(** * Graph search: breadth-first (blind) and hill-climbing (informed)

    A shallow embedding of the two scripts of the repository,
    [3_bfs_search_ciega.py] and [4_hillclimbing_search_informada.py]:
    the [Grafo] class of each script, the bulk loader and the exporter,
    [AlgoritmoBFS.buscar_camino] with [_reconstruir_camino], and
    [AlgoritmoHillClimbing.buscar_camino] with its two heuristics.

    Conventions of the embedding.
    - Python [float] is IEEE 754 binary64: Rocq's primitive [float].
    - Python [str] is modelled by Rocq's [string], read as UTF-8; the
      library calls [strip] and [upper] are modelled on the ASCII range
      (characters above 127 are left as they are), and [ord] decodes
      UTF-8.
    - [dict] is a [gmap], [set] is a [gset], [list] and [deque] are lists.
    - A call that can raise returns a [resultado]; the [while] loops take
      a fuel argument and the theorems show that the fuel given is never
      used up.
    - The [accion] text of a step record is kept as a tagged value that
      carries the data the f-string interpolates. *)

From Stdlib Require Import Floats ZArith Ascii String.
From stdpp Require Import gmap strings list.

Set Warnings "-register-all,-clear-no-such-hyp".

Local Open Scope string_scope.
Local Open Scope list_scope.
Local Open Scope nat_scope.

(** ** Python values and exceptions *)

Inductive excepcion : Set :=
| KeyError
| ValueError
| TypeError
| OverflowError
| AttributeError.

Inductive resultado (A : Type) : Type :=
| Valor (a : A)
| Excepcion (e : excepcion)
| SinCombustible.

Arguments Valor {A} a.
Arguments Excepcion {A} e.
Arguments SinCombustible {A}.

Definition ligar {A B : Type} (r : resultado A) (k : A → resultado B) : resultado B :=
  match r with
  | Valor a => k a
  | Excepcion e => Excepcion e
  | SinCombustible => SinCombustible
  end.

Notation "'intentar' x '<-' r ';;' k" := (ligar r (fun x => k))
  (at level 10, x name, r at level 99, k at level 200).

(** Equality of floats as values is decidable. *)
#[global] Instance float_eq_dec : EqDecision float.
Proof.
  intros x y. destruct (PrimFloat.Leibniz.eqb x y) eqn:E; [left|right].
  - by apply FloatAxioms.Leibniz.eqb_spec.
  - intros Hxy. apply FloatAxioms.Leibniz.eqb_spec in Hxy. congruence.
Defined.

(** What [json.load] hands to the loader. *)
Inductive json : Type :=
| JNull
| JBool (b : bool)
| JInt (z : Z)
| JFloat (f : float)
| JStr (s : string)
| JArr (l : list json)
| JObj (l : list (string * json)).

(** The library operations whose full definition lies outside the
    repository: [float(s)] on a string ([None] is [ValueError]), [str(v)]
    on a value that is not a string, and [d ** 2] on a float, the [pow] of
    the C library ([None] is [OverflowError], raised when the result of a
    finite [d] does not fit). *)
Class Python := {
  float_de_texto : string → option float;
  str_de_valor : json → string;
  potencia_2 : float → option float
}.

(** [float(n)] on an [int]: round to nearest even, [OverflowError] when the
    result does not fit. *)
Definition redondear (z : Z) : float :=
  SF2Prim (binary_normalize prec emax z 0 false).

Definition float_de_entero (z : Z) : resultado float :=
  let f := redondear z in
  if PrimFloat.is_infinity f then Excepcion OverflowError else Valor f.

(** [d ** 2] on a float. *)
Definition py_potencia_2 `{Python} (d : float) : resultado float :=
  match potencia_2 d with
  | Some p => Valor p
  | None => Excepcion OverflowError
  end.

(** [float(v)]. *)
Definition py_float `{Python} (v : json) : resultado float :=
  match v with
  | JFloat f => Valor f
  | JInt z => float_de_entero z
  | JBool b => Valor (if b then 1%float else 0%float)
  | JStr s => match float_de_texto s with
              | Some f => Valor f
              | None => Excepcion ValueError
              end
  | JNull | JArr _ | JObj _ => Excepcion TypeError
  end.

(** [str(v)]. *)
Definition py_str `{Python} (v : json) : string :=
  match v with
  | JStr s => s
  | _ => str_de_valor v
  end.

(** [d[k]] on a dictionary held as an association list. *)
Fixpoint buscar_clave (k : string) (l : list (string * json)) : option json :=
  match l with
  | [] => None
  | (k', v) :: l' => if decide (k' = k) then Some v else buscar_clave k l'
  end.

(** [v[k]] for a string key [k]. *)
Definition py_getitem (v : json) (k : string) : resultado json :=
  match v with
  | JObj l => match buscar_clave k l with
              | Some x => Valor x
              | None => Excepcion KeyError
              end
  | _ => Excepcion TypeError
  end.

(** ** [str.strip] and [str.upper] *)

Definition es_espacio (c : ascii) : bool :=
  let n := nat_of_ascii c in
  ((9 <=? n)%nat && (n <=? 13)%nat) || ((28 <=? n)%nat && (n <=? 32)%nat).

Fixpoint lstrip (s : string) : string :=
  match s with
  | EmptyString => EmptyString
  | String c s' => if es_espacio c then lstrip s' else s
  end.

Fixpoint rstrip (s : string) : string :=
  match s with
  | EmptyString => EmptyString
  | String c s' =>
      match rstrip s' with
      | EmptyString => if es_espacio c then EmptyString else String c EmptyString
      | r => String c r
      end
  end.

Definition strip (s : string) : string := rstrip (lstrip s).

Definition mayuscula (c : ascii) : ascii :=
  let n := nat_of_ascii c in
  if (97 <=? n)%nat && (n <=? 122)%nat then ascii_of_nat (n - 32) else c.

Fixpoint upper (s : string) : string :=
  match s with
  | EmptyString => EmptyString
  | String c s' => String (mayuscula c) (upper s')
  end.

(** [s.strip().upper()], the normalisation the callers of the graph apply. *)
Definition normalizar (s : string) : string := upper (strip s).

(** ** Results of a bulk load *)

(** One entry of the loader's [errores] list: the 1-based position of the
    edge record ([i+1]) and what the message reports. *)
Inductive motivo_error : Type :=
| FormatoInvalido (e : excepcion)
| ErrorAlProcesar (origen destino : string).

Record error_carga : Type := {
  indice : nat;
  motivo : motivo_error
}.

(** The exceptions the loader's inner handler names:
    [except (KeyError, ValueError, TypeError)]. *)
Definition atrapada (e : excepcion) : bool :=
  match e with
  | KeyError | ValueError | TypeError => true
  | OverflowError | AttributeError => false
  end.

(** Iterating a JSON value, as [enumerate] does: a list yields its items, a
    dictionary its keys, a string its characters; the rest is not
    iterable. *)
Fixpoint caracteres (s : string) : list json :=
  match s with
  | EmptyString => []
  | String c s' => JStr (String c EmptyString) :: caracteres s'
  end.

Definition iterar (v : json) : resultado (list json) :=
  match v with
  | JArr l => Valor l
  | JObj kvs => Valor (JStr <$> kvs.*1)
  | JStr s => Valor (caracteres s)
  | JNull | JBool _ | JInt _ | JFloat _ => Excepcion TypeError
  end.

(** The three reads of the loader's inner [try], in source order. *)
Definition leer_arista `{Python} (arista : json) : resultado (string * string * float) :=
  intentar o <- py_getitem arista "origen" ;;
  intentar d <- py_getitem arista "destino" ;;
  intentar p <- py_getitem arista "peso" ;;
  intentar peso <- py_float p ;;
  Valor (normalizar (py_str o), normalizar (py_str d), peso).

(** [except Exception as e: raise ValueError(...)]. *)
Definition envolver {A : Type} (r : resultado A) : resultado A :=
  match r with
  | Excepcion _ => Excepcion ValueError
  | _ => r
  end.

(** * [3_bfs_search_ciega.py] *)

Module Ciega.

(** ** class [Grafo] *)

Record Grafo : Type := {
  adyacencias : gmap string (list (string * float));
  aristas : list (string * string * float);
  nodos : gset string
}.

(** [__init__] *)
Definition vacio : Grafo :=
  {| adyacencias := ∅; aristas := []; nodos := ∅ |}.

(** [self.adyacencias[nodo]] on the [defaultdict]: a missing key reads as
    the empty list (the entry the read creates holds no edge). *)
Definition adyacentes (g : Grafo) (nodo : string) : list (string * float) :=
  default [] (adyacencias g !! nodo).

Definition agregar_arista `{Python} (g : Grafo) (origen destino : string) (peso : json)
  : resultado bool * Grafo :=
  match py_float peso with
  | Valor p =>
      (Valor true,
       {| adyacencias := <[origen := adyacentes g origen ++ [(destino, p)]]> (adyacencias g);
          aristas := aristas g ++ [(origen, destino, p)];
          nodos := {[destino]} ∪ ({[origen]} ∪ nodos g) |})
  | Excepcion ValueError => (Valor false, g)
  | Excepcion e => (Excepcion e, g)
  | SinCombustible => (SinCombustible, g)
  end.

Definition obtener_vecinos (g : Grafo) (nodo : string) : list string :=
  (adyacentes g nodo).*1.

Fixpoint primer_peso (destino : string) (l : list (string * float)) : option float :=
  match l with
  | [] => None
  | (dest, peso) :: l' => if decide (dest = destino) then Some peso else primer_peso destino l'
  end.

Definition obtener_peso (g : Grafo) (origen destino : string) : option float :=
  primer_peso destino (adyacentes g origen).

Definition limpiar (g : Grafo) : Grafo := vacio.

(** The [for i, arista in enumerate(...)] loop of [cargar_desde_json];
    [i] is the index of the head of [l]. *)
Fixpoint cargar_aristas `{Python} (i : nat) (l : list json) (g : Grafo)
    (aristas_cargadas : nat) (errores : list error_carga)
  : resultado (nat * list error_carga) * Grafo :=
  match l with
  | [] => (Valor (aristas_cargadas, errores), g)
  | arista :: l' =>
      match leer_arista arista with
      | Valor (origen, destino, peso) =>
          match agregar_arista g origen destino (JFloat peso) with
          | (Valor true, g') => cargar_aristas (S i) l' g' (S aristas_cargadas) errores
          | (Valor false, g') =>
              cargar_aristas (S i) l' g' aristas_cargadas
                (errores ++ [{| indice := S i; motivo := ErrorAlProcesar origen destino |}])
          | (Excepcion e, g') =>
              if atrapada e
              then cargar_aristas (S i) l' g' aristas_cargadas
                     (errores ++ [{| indice := S i; motivo := FormatoInvalido e |}])
              else (Excepcion e, g')
          | (SinCombustible, g') => (SinCombustible, g')
          end
      | Excepcion e =>
          if atrapada e
          then cargar_aristas (S i) l' g aristas_cargadas
                 (errores ++ [{| indice := S i; motivo := FormatoInvalido e |}])
          else (Excepcion e, g)
      | SinCombustible => (SinCombustible, g)
      end
  end.

(** [cargar_desde_json]. Every exception that leaves the outer [try] is
    raised again as [ValueError]; on a value that is not a dictionary both
    the membership test and the subscript end there. *)
Definition cargar_desde_json `{Python} (g : Grafo) (datos_json : json)
  : resultado (nat * list error_carga) * Grafo :=
  let g0 := limpiar g in
  match datos_json with
  | JObj kvs =>
      match buscar_clave "aristas" kvs with
      | None => (Excepcion ValueError, g0)
      | Some v =>
          match iterar v with
          | Valor l =>
              let '(r, g') := cargar_aristas 0 l g0 0 [] in (envolver r, g')
          | _ => (Excepcion ValueError, g0)
          end
      end
  | _ => (Excepcion ValueError, g0)
  end.

Definition exportar_arista (a : string * string * float) : json :=
  let '(origen, destino, peso) := a in
  JObj [("origen", JStr origen); ("destino", JStr destino); ("peso", JFloat peso)].

Definition exportar_a_json (g : Grafo) : json :=
  JObj [("nodos", JArr (JStr <$> elements (nodos g)));
        ("aristas", JArr (exportar_arista <$> aristas g))].

(** ** class [AlgoritmoBFS] *)

Inductive accion : Type :=
| Inicializar (inicio : string)
| ProcesarNodo (nodo : string)
| MetaEncontrada (camino : list string)
| AgregarVecinos (nodo : string) (vecinos_nuevos : list string)
| NoExisteCamino.

Record paso_busqueda : Type := {
  paso : nat;
  accion_paso : accion;
  cola_paso : list string;
  visitados_paso : gset string;
  nodo_actual_paso : option string;
  camino_final : option (list string);
  vecinos_agregados : option (list string)
}.

(** An element of the returned list: a step record, or the bare text the
    error return holds. *)
Inductive entrada : Type :=
| Registro (p : paso_busqueda)
| Texto (s : string).

(** The state the search keeps in [self]. *)
Record estado : Type := {
  cola : list string;
  visitados : gset string;
  padre : gmap string (option string)
}.

(** [_reconstruir_camino]: the walk along [padre] from [final]; [actual]
    is [None] when the [while] ends. *)
Fixpoint reconstruir (fuel : nat) (padre : gmap string (option string))
    (actual : option string) (camino : list string) : resultado (list string) :=
  match actual with
  | None => Valor (reverse camino)
  | Some a =>
      match fuel with
      | 0 => SinCombustible
      | S fuel' =>
          match padre !! a with
          | Some p => reconstruir fuel' padre p (camino ++ [a])
          | None => Excepcion KeyError
          end
      end
  end.

Definition _reconstruir_camino (fuel : nat) (padre : gmap string (option string))
    (inicio final : string) : resultado (list string) :=
  reconstruir fuel padre (Some final) [].

(** One turn of [for vecino in vecinos]; the fourth component is
    [vecinos_nuevos]. *)
Definition visitar (nodo_actual : string) (acc : estado * list string) (vecino : string)
  : estado * list string :=
  let '(e, vecinos_nuevos) := acc in
  if decide (vecino ∈ visitados e) then acc
  else ({| cola := cola e ++ [vecino];
           visitados := {[vecino]} ∪ visitados e;
           padre := <[vecino := Some nodo_actual]> (padre e) |},
        vecinos_nuevos ++ [vecino]).

Definition explorar (nodo_actual : string) (vecinos : list string) (e : estado)
  : estado * list string :=
  fold_left (visitar nodo_actual) vecinos (e, []).

Definition registro (n : nat) (a : accion) (c : list string) (v : gset string)
    (actual : option string) : paso_busqueda :=
  {| paso := n; accion_paso := a; cola_paso := c; visitados_paso := v;
     nodo_actual_paso := actual; camino_final := None; vecinos_agregados := None |}.

(** The [while self.cola] loop. [fuel] bounds the number of turns and
    [fuel_r] the walk of [_reconstruir_camino]. *)
Fixpoint bucle (fuel fuel_r : nat) (g : Grafo) (inicio final : string)
    (e : estado) (n : nat) (pasos : list entrada)
  : resultado (option (list string) * list entrada) :=
  match cola e with
  | [] =>
      Valor (None,
             pasos ++ [Registro (registro n NoExisteCamino [] (visitados e) None)])
  | nodo_actual :: resto =>
      match fuel with
      | 0 => SinCombustible
      | S fuel' =>
          let e1 := {| cola := resto; visitados := visitados e; padre := padre e |} in
          let pasos1 :=
            pasos ++ [Registro (registro n (ProcesarNodo nodo_actual) resto
                                  (visitados e) (Some nodo_actual))] in
          let n1 := S n in
          if decide (nodo_actual = final) then
            intentar camino <- _reconstruir_camino fuel_r (padre e) inicio final ;;
            Valor (Some camino,
                   pasos1 ++ [Registro
                     {| paso := n1; accion_paso := MetaEncontrada camino;
                        cola_paso := resto; visitados_paso := visitados e;
                        nodo_actual_paso := Some final; camino_final := Some camino;
                        vecinos_agregados := None |}])
          else
            let '(e2, vecinos_nuevos) := explorar nodo_actual (obtener_vecinos g nodo_actual) e1 in
            match vecinos_nuevos with
            | [] => bucle fuel' fuel_r g inicio final e2 n1 pasos1
            | _ :: _ =>
                bucle fuel' fuel_r g inicio final e2 (S n1)
                  (pasos1 ++ [Registro
                     {| paso := n1; accion_paso := AgregarVecinos nodo_actual vecinos_nuevos;
                        cola_paso := cola e2; visitados_paso := visitados e2;
                        nodo_actual_paso := Some nodo_actual; camino_final := None;
                        vecinos_agregados := Some vecinos_nuevos |}])
            end
      end
  end.

Definition mensaje_error : string := "Error: Uno o ambos nodos no existen en el grafo".

Definition buscar_camino (fuel : nat) (g : Grafo) (inicio final : string)
  : resultado (option (list string) * list entrada) :=
  if decide (inicio ∉ nodos g ∨ final ∉ nodos g) then
    Valor (None, [Texto mensaje_error])
  else
    let e := {| cola := [inicio]; visitados := {[inicio]}; padre := {[inicio := None]} |} in
    bucle fuel fuel g inicio final e 1
      [Registro (registro 0 (Inicializar inicio) [inicio] {[inicio]} (Some inicio))].

End Ciega.

(** * [4_hillclimbing_search_informada.py] *)

Module Informada.

(** ** class [Grafo] *)

Record Grafo : Type := {
  adyacencias : gmap string (list (string * float));
  aristas : list (string * string * float);
  nodos : gset string;
  posiciones_nodos : gmap string (json * json)
}.

Definition vacio : Grafo :=
  {| adyacencias := ∅; aristas := []; nodos := ∅; posiciones_nodos := ∅ |}.

Definition adyacentes (g : Grafo) (nodo : string) : list (string * float) :=
  default [] (adyacencias g !! nodo).

Definition agregar_arista `{Python} (g : Grafo) (origen destino : string) (peso : json)
  : resultado bool * Grafo :=
  match py_float peso with
  | Valor p =>
      (Valor true,
       {| adyacencias := <[origen := adyacentes g origen ++ [(destino, p)]]> (adyacencias g);
          aristas := aristas g ++ [(origen, destino, p)];
          nodos := {[destino]} ∪ ({[origen]} ∪ nodos g);
          posiciones_nodos := posiciones_nodos g |})
  | Excepcion ValueError => (Valor false, g)
  | Excepcion e => (Excepcion e, g)
  | SinCombustible => (SinCombustible, g)
  end.

Definition obtener_vecinos_con_peso (g : Grafo) (nodo : string) : list (string * float) :=
  adyacentes g nodo.

Fixpoint primer_peso (destino : string) (l : list (string * float)) : option float :=
  match l with
  | [] => None
  | (dest, peso) :: l' => if decide (dest = destino) then Some peso else primer_peso destino l'
  end.

Definition obtener_peso (g : Grafo) (origen destino : string) : option float :=
  primer_peso destino (adyacentes g origen).

(** [calcular_heuristica_euclidiana]: the two squares are evaluated from
    left to right and either can raise [OverflowError]; [math.sqrt] is the
    correctly rounded square root. *)
Definition calcular_heuristica_euclidiana `{Python} (nodo objetivo : string)
    (posiciones : gmap string (float * float)) : resultado float :=
  match posiciones !! nodo, posiciones !! objetivo with
  | Some (x1, y1), Some (x2, y2) =>
      intentar dx2 <- py_potencia_2 (x2 - x1)%float ;;
      intentar dy2 <- py_potencia_2 (y2 - y1)%float ;;
      Valor (PrimFloat.sqrt (dx2 + dy2)%float)
  | _, _ => Valor 0%float
  end.

Definition limpiar (g : Grafo) : Grafo := vacio.

Fixpoint cargar_aristas `{Python} (i : nat) (l : list json) (g : Grafo)
    (aristas_cargadas : nat) (errores : list error_carga)
  : resultado (nat * list error_carga) * Grafo :=
  match l with
  | [] => (Valor (aristas_cargadas, errores), g)
  | arista :: l' =>
      match leer_arista arista with
      | Valor (origen, destino, peso) =>
          match agregar_arista g origen destino (JFloat peso) with
          | (Valor true, g') => cargar_aristas (S i) l' g' (S aristas_cargadas) errores
          | (Valor false, g') =>
              cargar_aristas (S i) l' g' aristas_cargadas
                (errores ++ [{| indice := S i; motivo := ErrorAlProcesar origen destino |}])
          | (Excepcion e, g') =>
              if atrapada e
              then cargar_aristas (S i) l' g' aristas_cargadas
                     (errores ++ [{| indice := S i; motivo := FormatoInvalido e |}])
              else (Excepcion e, g')
          | (SinCombustible, g') => (SinCombustible, g')
          end
      | Excepcion e =>
          if atrapada e
          then cargar_aristas (S i) l' g aristas_cargadas
                 (errores ++ [{| indice := S i; motivo := FormatoInvalido e |}])
          else (Excepcion e, g)
      | SinCombustible => (SinCombustible, g)
      end
  end.

(** [for nodo, pos in datos_json["posiciones"].items()]: no handler of its
    own, so the first exception ends the load. *)
Fixpoint cargar_posiciones `{Python} (l : list (string * json)) (g : Grafo)
  : resultado unit * Grafo :=
  match l with
  | [] => (Valor tt, g)
  | (nodo, pos) :: l' =>
      match (intentar x <- py_getitem pos "x" ;;
             intentar y <- py_getitem pos "y" ;;
             Valor (x, y)) with
      | Valor xy =>
          cargar_posiciones l'
            {| adyacencias := adyacencias g; aristas := aristas g; nodos := nodos g;
               posiciones_nodos := <[upper nodo := xy]> (posiciones_nodos g) |}
      | Excepcion e => (Excepcion e, g)
      | SinCombustible => (SinCombustible, g)
      end
  end.

(** [d.items()]: only a dictionary has the method. *)
Definition items (v : json) : resultado (list (string * json)) :=
  match v with
  | JObj kvs => Valor kvs
  | _ => Excepcion AttributeError
  end.

Definition cargar_desde_json `{Python} (g : Grafo) (datos_json : json)
  : resultado (nat * list error_carga) * Grafo :=
  let g0 := limpiar g in
  match datos_json with
  | JObj kvs =>
      match buscar_clave "aristas" kvs with
      | None => (Excepcion ValueError, g0)
      | Some v =>
          match iterar v with
          | Valor l =>
              match cargar_aristas 0 l g0 0 [] with
              | (Valor r, g1) =>
                  match buscar_clave "posiciones" kvs with
                  | None => (Valor r, g1)
                  | Some ps =>
                      match items ps with
                      | Valor lp =>
                          match cargar_posiciones lp g1 with
                          | (Valor _, g2) => (Valor r, g2)
                          | (_, g2) => (Excepcion ValueError, g2)
                          end
                      | _ => (Excepcion ValueError, g1)
                      end
                  end
              | (r, g1) => (envolver r, g1)
              end
          | _ => (Excepcion ValueError, g0)
          end
      end
  | _ => (Excepcion ValueError, g0)
  end.

Definition exportar_arista (a : string * string * float) : json :=
  let '(origen, destino, peso) := a in
  JObj [("origen", JStr origen); ("destino", JStr destino); ("peso", JFloat peso)].

(** [exportar_a_json] as [json.dump] writes it: the pair [(x, y)] kept for
    a node is written as an array of two elements. *)
Definition exportar_a_json (g : Grafo) : json :=
  JObj [("nodos", JArr (JStr <$> elements (nodos g)));
        ("aristas", JArr (exportar_arista <$> aristas g));
        ("posiciones",
         JObj ((λ kp, (kp.1, JArr [kp.2.1; kp.2.2])) <$> map_to_list (posiciones_nodos g)))].

(** ** class [AlgoritmoHillClimbing] *)

(** The code points of a string read as UTF-8: a lead byte with its
    continuation bytes is one character.  A byte that does not start a
    complete sequence, which no Python [str] gives, counts for itself. *)
Definition octeto (c : ascii) : Z := Z.of_nat (nat_of_ascii c).

Definition continua (c : ascii) : bool := (128 <=? octeto c)%Z && (octeto c <? 192)%Z.

Fixpoint puntos_de_codigo (s : string) : list Z :=
  match s with
  | EmptyString => []
  | String c s1 =>
      let b := octeto c in
      match s1 with
      | String c1 s2 =>
          if (192 <=? b)%Z && (b <? 224)%Z && continua c1
          then ((b - 192) * 64 + (octeto c1 - 128))%Z :: puntos_de_codigo s2
          else
            match s2 with
            | String c2 s3 =>
                if (224 <=? b)%Z && (b <? 240)%Z && continua c1 && continua c2
                then ((b - 224) * 4096 + (octeto c1 - 128) * 64 + (octeto c2 - 128))%Z
                       :: puntos_de_codigo s3
                else
                  match s3 with
                  | String c3 s4 =>
                      if (240 <=? b)%Z && (b <? 248)%Z
                         && continua c1 && continua c2 && continua c3
                      then ((b - 240) * 262144 + (octeto c1 - 128) * 4096
                            + (octeto c2 - 128) * 64 + (octeto c3 - 128))%Z
                             :: puntos_de_codigo s4
                      else b :: puntos_de_codigo s1
                  | EmptyString => b :: puntos_de_codigo s1
                  end
            | EmptyString => b :: puntos_de_codigo s1
            end
      | EmptyString => [b]
      end
  end.

(** [sum(ord(c) for c in str(nodo))] *)
Definition suma_ord (s : string) : Z :=
  fold_right Z.add 0%Z (puntos_de_codigo s).

(** [abs(nodo_val - obj_val) / 100]: the quotient of two integers as a
    float (exact operands below 2^53 make it the correctly rounded one). *)
Definition calcular_heuristica_distancia_lineal (nodo objetivo : string) : float :=
  let nodo_val := suma_ord nodo in
  let obj_val := suma_ord objetivo in
  (redondear (Z.abs (nodo_val - obj_val)%Z) / redondear 100%Z)%float.

Record evaluacion : Type := {
  vecino : string;
  peso : float;
  heuristica : float;
  valor_evaluacion : float
}.

Inductive accion : Type :=
| ErrorNodos
| Iniciar (inicio : string)
| SinVecinos (nodo : string)
| EvaluarVecinos (nodo : string)
| TodosVisitados
| Moverse (mejor_vecino : string) (mejor_evaluacion : float) (objetivo_alcanzado : bool)
| MaximoIteraciones.

(** A step record; [evaluaciones] and [camino_final] are [None] when the
    dictionary has no such key. [costo_total] starts as the integer [0],
    here the float of the same value. *)
Record paso_busqueda : Type := {
  paso : nat;
  accion_paso : accion;
  nodo_actual_paso : option string;
  camino_actual : list string;
  costo_total_paso : float;
  visitados_paso : gset string;
  evaluaciones : option (list evaluacion);
  camino_final : option (option (list string))
}.

Record estado : Type := {
  nodo_actual : string;
  camino : list string;
  costo_total : float;
  visitados : gset string
}.

Definition registro (n : nat) (a : accion) (actual : option string) (e : estado)
  : paso_busqueda :=
  {| paso := n; accion_paso := a; nodo_actual_paso := actual;
     camino_actual := camino e; costo_total_paso := costo_total e;
     visitados_paso := visitados e; evaluaciones := None; camino_final := None |}.

(** [if posiciones_canvas:] is true for a dictionary that is not empty. *)
Definition hay_posiciones (posiciones_canvas : option (gmap string (float * float))) : bool :=
  match posiciones_canvas with
  | Some m => bool_decide (m ≠ ∅)
  | None => false
  end.

Definition heuristica_de `{Python} (posiciones_canvas : option (gmap string (float * float)))
    (vecino objetivo : string) : resultado float :=
  if hay_posiciones posiciones_canvas
  then calcular_heuristica_euclidiana vecino objetivo (default ∅ posiciones_canvas)
  else Valor (calcular_heuristica_distancia_lineal vecino objetivo).

(** One turn of [for vecino, peso in vecinos]. The accumulator holds
    [mejor_vecino] with [mejor_peso] (assigned together), then
    [mejor_evaluacion] and [evaluaciones]. The heuristic is computed
    first and can raise. *)
Definition evaluar `{Python} (objetivo : string)
    (posiciones_canvas : option (gmap string (float * float))) (e : estado)
    (acc : option (string * float) * float * list evaluacion) (vp : string * float)
  : resultado (option (string * float) * float * list evaluacion) :=
  let '(mejor, mejor_evaluacion, evals) := acc in
  let '(v, w) := vp in
  if decide (v ∈ visitados e) then Valor acc
  else
    intentar h <- heuristica_de posiciones_canvas v objetivo ;;
    let costo_nuevo := (costo_total e + w)%float in
    let f := (costo_nuevo + h)%float in
    let evals' := evals ++ [{| vecino := v; peso := w; heuristica := h; valor_evaluacion := f |}] in
    if (f <? mejor_evaluacion)%float
    then Valor (Some (v, w), f, evals')
    else Valor (mejor, mejor_evaluacion, evals').

(** The [for] loop from a given accumulator: an exception ends it. *)
Fixpoint evaluar_cada `{Python} (objetivo : string)
    (posiciones_canvas : option (gmap string (float * float))) (e : estado)
    (vecinos : list (string * float))
    (acc : option (string * float) * float * list evaluacion)
  : resultado (option (string * float) * float * list evaluacion) :=
  match vecinos with
  | [] => Valor acc
  | vp :: vecinos' =>
      intentar acc' <- evaluar objetivo posiciones_canvas e acc vp ;;
      evaluar_cada objetivo posiciones_canvas e vecinos' acc'
  end.

Definition evaluar_vecinos `{Python} (objetivo : string)
    (posiciones_canvas : option (gmap string (float * float))) (e : estado)
    (vecinos : list (string * float))
  : resultado (option (string * float) * float * list evaluacion) :=
  evaluar_cada objetivo posiciones_canvas e vecinos (None, infinity, []).

(** The [while nodo_actual != objetivo and paso < max_iteraciones] loop and
    the [if] that follows it. An exception of the heuristic leaves the
    search, which has no handler. *)
Fixpoint bucle `{Python} (fuel : nat) (g : Grafo) (objetivo : string)
    (posiciones_canvas : option (gmap string (float * float))) (max_iteraciones : nat)
    (e : estado) (n : nat) (pasos : list paso_busqueda)
  : resultado (option (list string) * list paso_busqueda) :=
  if decide (nodo_actual e ≠ objetivo ∧ n < max_iteraciones) then
    match fuel with
    | 0 => SinCombustible
    | S fuel' =>
        let vecinos := obtener_vecinos_con_peso g (nodo_actual e) in
        match vecinos with
        | [] =>
            Valor (None,
                   pasos ++ [registro n (SinVecinos (nodo_actual e)) (Some (nodo_actual e)) e])
        | _ :: _ =>
            match evaluar_vecinos objetivo posiciones_canvas e vecinos with
            | Excepcion ex => Excepcion ex
            | SinCombustible => SinCombustible
            | Valor (mejor, mejor_evaluacion, evals) =>
            let pasos1 :=
              pasos ++ [{| paso := n; accion_paso := EvaluarVecinos (nodo_actual e);
                           nodo_actual_paso := Some (nodo_actual e);
                           camino_actual := camino e; costo_total_paso := costo_total e;
                           visitados_paso := visitados e; evaluaciones := Some evals;
                           camino_final := None |}] in
            let n1 := S n in
            match mejor with
            | None =>
                Valor (None, pasos1 ++ [registro n1 TodosVisitados (Some (nodo_actual e)) e])
            | Some (mejor_vecino, mejor_peso) =>
                let e' := {| nodo_actual := mejor_vecino;
                             camino := camino e ++ [mejor_vecino];
                             costo_total := (costo_total e + mejor_peso)%float;
                             visitados := {[mejor_vecino]} ∪ visitados e |} in
                let alcanzado := bool_decide (mejor_vecino = objetivo) in
                bucle fuel' g objetivo posiciones_canvas max_iteraciones e' (S n1)
                  (pasos1 ++ [{| paso := n1;
                                 accion_paso := Moverse mejor_vecino mejor_evaluacion alcanzado;
                                 nodo_actual_paso := Some mejor_vecino;
                                 camino_actual := camino e'; costo_total_paso := costo_total e';
                                 visitados_paso := visitados e'; evaluaciones := None;
                                 camino_final :=
                                   Some (if alcanzado then Some (camino e') else None) |}])
            end
            end
        end
    end
  else if decide (nodo_actual e = objetivo) then Valor (Some (camino e), pasos)
  else Valor (None, pasos ++ [registro n MaximoIteraciones (Some (nodo_actual e)) e]).

Definition buscar_camino `{Python} (fuel : nat) (g : Grafo) (inicio objetivo : string)
    (posiciones_canvas : option (gmap string (float * float)))
  : resultado (option (list string) * list paso_busqueda) :=
  if decide (inicio ∉ nodos g ∨ objetivo ∉ nodos g) then
    Valor (None,
           [{| paso := 0; accion_paso := ErrorNodos; nodo_actual_paso := None;
               camino_actual := []; costo_total_paso := 0%float; visitados_paso := ∅;
               evaluaciones := None; camino_final := None |}])
  else
    let e := {| nodo_actual := inicio; camino := [inicio]; costo_total := 0%float;
                visitados := {[inicio]} |} in
    let max_iteraciones := size (nodos g) * 2 in
    bucle fuel g objetivo posiciones_canvas max_iteraciones e 1
      [registro 0 (Iniciar inicio) (Some inicio) e].

End Informada.

(** * [InterfazGrafica] of [3_bfs_search_ciega.py]: what it does to the graph *)

Module InterfazCiega.
Import Ciega.

(** The message box a handler ends with. *)
Inductive aviso : Set :=
| CamposIncompletos
| AristaAgregada
| PesoInvalido.

(** [_agregar_arista]: the reads of the three entry fields and the effect
    on [self.grafo].  The updates of the list box, the canvas and the text
    panel are not part of the model. *)
Definition _agregar_arista `{Python} (g : Grafo) (entry_origen entry_destino entry_peso : string)
  : resultado aviso * Grafo :=
  let origen := normalizar entry_origen in
  let destino := normalizar entry_destino in
  let peso := strip entry_peso in
  if decide (origen = EmptyString ∨ destino = EmptyString ∨ peso = EmptyString)
  then (Valor CamposIncompletos, g)
  else
    match agregar_arista g origen destino (JStr peso) with
    | (Valor true, g') => (Valor AristaAgregada, g')
    | (Valor false, g') => (Valor PesoInvalido, g')
    | (Excepcion e, g') => (Excepcion e, g')
    | (SinCombustible, g') => (SinCombustible, g')
    end.

(** [_limpiar_grafo], on [self.grafo]. *)
Definition _limpiar_grafo (g : Grafo) : Grafo := limpiar g.

(** [_cargar_json] once the file has been read as [datos_json]: the graph
    is left as the loader leaves it, also when the loader raises (the
    handler shows the message and goes on). *)
Definition _cargar_json `{Python} (g : Grafo) (datos_json : json) : Grafo :=
  (cargar_desde_json g datos_json).2.

(** [_exportar_json]: what is written to the file chosen, nothing when
    the graph has no edge. *)
Definition _exportar_json (g : Grafo) : option json :=
  match aristas g with
  | [] => None
  | _ :: _ => Some (exportar_a_json g)
  end.

(** The buttons that change the graph. *)
Inductive pulsacion : Type :=
| PulsarAgregar (entry_origen entry_destino entry_peso : string)
| PulsarLimpiar
| PulsarCargar (datos_json : json).

Definition atender `{Python} (g : Grafo) (b : pulsacion) : Grafo :=
  match b with
  | PulsarAgregar o d p => (_agregar_arista g o d p).2
  | PulsarLimpiar => _limpiar_grafo g
  | PulsarCargar datos_json => _cargar_json g datos_json
  end.

(** The graph of the window after a run of button presses; [__init__]
    starts from the empty graph. *)
Definition sesion `{Python} (pulsaciones : list pulsacion) : Grafo :=
  fold_left atender pulsaciones vacio.

(** What [_iniciar_busqueda] ends with: one of its two warnings, or the
    search it has run. *)
Inductive respuesta : Type :=
| IngreseNodos
| PrimeroUnGrafo
| Busqueda (r : resultado (option (list string) * list entrada)).

Definition _iniciar_busqueda (fuel : nat) (g : Grafo) (entry_inicio entry_final : string)
  : respuesta :=
  let inicio := normalizar entry_inicio in
  let final := normalizar entry_final in
  if decide (inicio = EmptyString ∨ final = EmptyString) then IngreseNodos
  else
    match aristas g with
    | [] => PrimeroUnGrafo
    | _ :: _ => Busqueda (buscar_camino fuel g inicio final)
    end.

End InterfazCiega.

(** * [InterfazGrafica] of [4_hillclimbing_search_informada.py] *)

Module InterfazInformada.
Import Informada.

(** The [for i in range(len(camino) - 1)] loop of [_calcular_costo_camino]:
    an edge that [obtener_peso] does not find adds nothing. *)
Fixpoint sumar_pesos (g : Grafo) (camino : list string) (costo_total : float) : float :=
  match camino with
  | a :: ((b :: _) as resto) =>
      sumar_pesos g resto
        match obtener_peso g a b with
        | Some peso => (costo_total + peso)%float
        | None => costo_total
        end
  | _ => costo_total
  end.

(** [_calcular_costo_camino]; the integer [0] it starts from is here the
    float of the same value, as in the records of the search. *)
Definition _calcular_costo_camino (g : Grafo) (camino : list string) : float :=
  if decide (length camino < 2) then 0%float else sumar_pesos g camino 0%float.

(** The message box a handler ends with. *)
Inductive aviso : Set :=
| CamposIncompletos
| AristaAgregada
| PesoInvalido.

(** [_agregar_arista]: the reads of the three entry fields and the effect
    on [self.grafo]. *)
Definition _agregar_arista `{Python} (g : Grafo) (entry_origen entry_destino entry_peso : string)
  : resultado aviso * Grafo :=
  let origen := normalizar entry_origen in
  let destino := normalizar entry_destino in
  let peso := strip entry_peso in
  if decide (origen = EmptyString ∨ destino = EmptyString ∨ peso = EmptyString)
  then (Valor CamposIncompletos, g)
  else
    match agregar_arista g origen destino (JStr peso) with
    | (Valor true, g') => (Valor AristaAgregada, g')
    | (Valor false, g') => (Valor PesoInvalido, g')
    | (Excepcion e, g') => (Excepcion e, g')
    | (SinCombustible, g') => (SinCombustible, g')
    end.

(** [_limpiar_grafo], on [self.grafo]. *)
Definition _limpiar_grafo (g : Grafo) : Grafo := limpiar g.

(** [_cargar_json] once the file has been read as [datos_json]: the graph
    is left as the loader leaves it, also when the loader raises. *)
Definition _cargar_json `{Python} (g : Grafo) (datos_json : json) : Grafo :=
  (cargar_desde_json g datos_json).2.

(** [_exportar_json]: what is written to the file chosen, nothing when
    the graph has no edge. *)
Definition _exportar_json (g : Grafo) : option json :=
  match aristas g with
  | [] => None
  | _ :: _ => Some (exportar_a_json g)
  end.

(** The buttons that change the graph. *)
Inductive pulsacion : Type :=
| PulsarAgregar (entry_origen entry_destino entry_peso : string)
| PulsarLimpiar
| PulsarCargar (datos_json : json).

Definition atender `{Python} (g : Grafo) (b : pulsacion) : Grafo :=
  match b with
  | PulsarAgregar o d p => (_agregar_arista g o d p).2
  | PulsarLimpiar => _limpiar_grafo g
  | PulsarCargar datos_json => _cargar_json g datos_json
  end.

(** The graph of the window after a run of button presses. *)
Definition sesion `{Python} (pulsaciones : list pulsacion) : Grafo :=
  fold_left atender pulsaciones vacio.

(** What [_iniciar_busqueda] ends with: one of its two warnings, or the
    search it has run and, for a path found, the cost it prints. *)
Inductive respuesta : Type :=
| IngreseNodos
| PrimeroUnGrafo
| Busqueda (r : resultado (option (list string) * list paso_busqueda))
    (costo_total : option float).

Definition _iniciar_busqueda `{Python} (fuel : nat) (g : Grafo)
    (posiciones_nodos : gmap string (float * float)) (entry_inicio entry_final : string)
  : respuesta :=
  let inicio := normalizar entry_inicio in
  let final := normalizar entry_final in
  if decide (inicio = EmptyString ∨ final = EmptyString) then IngreseNodos
  else
    match aristas g with
    | [] => PrimeroUnGrafo
    | _ :: _ =>
        let r := buscar_camino fuel g inicio final (Some posiciones_nodos) in
        Busqueda r
          match r with
          | Valor (Some ((_ :: _) as camino), _) => Some (_calcular_costo_camino g camino)
          | _ => None
          end
    end.

End InterfazInformada.

(** * The vocabulary of the statements *)

(** ** Paths *)

(** Consecutive nodes of [l] are related by [R]. *)
Fixpoint encadenado (R : string → string → Prop) (l : list string) : Prop :=
  match l with
  | [] => True
  | x :: l' =>
      match l' with
      | [] => True
      | y :: _ => R x y ∧ encadenado R l'
      end
  end.

(** [l] is a path from [s] to [t] along [R]. *)
Definition camino_entre (R : string → string → Prop) (s t : string) (l : list string) : Prop :=
  head l = Some s ∧ last l = Some t ∧ encadenado R l.

(** The number of edges of a path given by its nodes. *)
Definition saltos (l : list string) : nat := length l - 1.

(** Reachability from [s] in exactly [n] steps of [R]. *)
Inductive alcanza (R : string → string → Prop) (s : string) : nat → string → Prop :=
| alcanza_0 : alcanza R s 0 s
| alcanza_S n u v : alcanza R s n u → R u v → alcanza R s (S n) v.

(** ** Edge lists *)

(** The edges of [l] that leave [u], as (target, weight) pairs in order. *)
Definition salientes (u : string) (l : list (string * string * float))
  : list (string * float) :=
  omap (λ a, if decide (a.1.1 = u) then Some (a.1.2, a.2) else None) l.

(** The endpoints of the edges of [l]. *)
Definition extremos (l : list (string * string * float)) : gset string :=
  foldr (λ a s, {[a.1.1]} ∪ ({[a.1.2]} ∪ s)) ∅ l.

(** ** What the loader reads *)

(** The edges that the loader's reads accept, in order. *)
Definition validas `{Python} (l : list json) : list (string * string * float) :=
  omap (λ a, match leer_arista a with Valor x => Some x | _ => None end) l.

(** The entries the loader appends to [errores] for the records of [l],
    the head of [l] being record number [i+1]. *)
Fixpoint errores_desde `{Python} (i : nat) (l : list json) : list error_carga :=
  match l with
  | [] => []
  | a :: l' =>
      match leer_arista a with
      | Excepcion e => {| indice := S i; motivo := FormatoInvalido e |} :: errores_desde (S i) l'
      | _ => errores_desde (S i) l'
      end
  end.

(** One error of type for each of [n] records. *)
Definition errores_de_tipo (n : nat) : list error_carga :=
  (λ i, {| indice := S i; motivo := FormatoInvalido TypeError |}) <$> seq 0 n.

(** A record the loader gets past: its reads succeed or raise one of the
    exceptions the inner handler names. *)
Definition tolerable `{Python} (a : json) : Prop :=
  match leer_arista a with
  | Valor _ => True
  | Excepcion e => atrapada e = true
  | SinCombustible => False
  end.

(** ** The graph of the blind search *)

Module CiegaGrafo.
Import Ciega.

(** The edge relation the search walks: [v] is listed among the neighbours
    of [u]. *)
Definition arco (g : Grafo) (u v : string) : Prop := v ∈ obtener_vecinos g u.

(** There is an edge from [u] to [v] in the edge list. *)
Definition arista_dirigida (g : Grafo) (u v : string) : Prop :=
  ∃ p, (u, v, p) ∈ aristas g.

(** The three attributes agree, as they do after any run of [__init__],
    [agregar_arista], [limpiar] and [cargar_desde_json]: the adjacency
    list of a node holds its outgoing edges in insertion order, and the
    node set holds the endpoints of the edges. *)
Record bien_formado (g : Grafo) : Prop := {
  bf_adyacentes : ∀ u, adyacentes g u = salientes u (aristas g);
  bf_nodos : nodos g = extremos (aristas g)
}.

(** The invariant of [while self.cola].  The ghost function [d] gives the
    level of every visited node, [k] is the level of the front of the
    queue, and [u] is the node being expanded, if any. *)
Record inv (g : Grafo) (inicio final : string) (d : string → nat) (k : nat)
    (u : option string) (e : estado) : Prop := {
  inv_inicio : inicio ∈ visitados e ∧ d inicio = 0;
  inv_padre : ∀ v, v ∈ visitados e →
    (v = inicio ∧ padre e !! v = Some None) ∨
    (∃ p, padre e !! v = Some (Some p) ∧ p ∈ visitados e ∧ arco g p v ∧ d v = S (d p));
  inv_nodos : visitados e ⊆ nodos g;
  inv_cota : ∀ v, v ∈ visitados e → d v < size (visitados e);
  inv_nivel : ∀ v, v ∈ visitados e → d v ≤ S k;
  inv_cola : NoDup (cola e) ∧ ∀ q, q ∈ cola e → q ∈ visitados e;
  inv_orden : ∃ A B, cola e = A ++ B ∧ Forall (λ q, d q = k) A ∧ Forall (λ q, d q = S k) B;
  inv_hecho : ∀ p, p ∈ visitados e → p ∉ cola e → (Some p ≠ u) →
    p ≠ final ∧ ∀ w, arco g p w → w ∈ visitados e ∧ d w ≤ S (d p);
  inv_actual : ∀ x, u = Some x →
    x ∈ visitados e ∧ (x ∉ cola e) ∧ d x = k ∧ (x ≠ final)
}.

(** The graph after a successful [agregar_arista]. *)
Definition con_arista (g : Grafo) (a : string * string * float) : Grafo :=
  {| adyacencias := <[a.1.1 := adyacentes g a.1.1 ++ [(a.1.2, a.2)]]> (adyacencias g);
     aristas := aristas g ++ [a];
     nodos := {[a.1.2]} ∪ ({[a.1.1]} ∪ nodos g) |}.

(** Every endpoint of an edge is its own normal form. *)
Definition normalizado (g : Grafo) : Prop :=
  Forall (λ a, normalizar a.1.1 = a.1.1 ∧ normalizar a.1.2 = a.1.2) (aristas g).

End CiegaGrafo.

(** ** The graph of the informed search *)

Module InformadaGrafo.
Import Informada.

Definition arco (g : Grafo) (u v : string) : Prop :=
  ∃ p, (v, p) ∈ obtener_vecinos_con_peso g u.

Definition arista_dirigida (g : Grafo) (u v : string) : Prop :=
  ∃ p, (u, v, p) ∈ aristas g.

Record bien_formado (g : Grafo) : Prop := {
  bf_adyacentes : ∀ u, adyacentes g u = salientes u (aristas g);
  bf_nodos : nodos g = extremos (aristas g)
}.

(** The actions that close a failed search. *)
Definition es_fallo (a : accion) : Prop :=
  match a with
  | SinVecinos _ | TodosVisitados | MaximoIteraciones => True
  | _ => False
  end.

(** What holds of [camino] and [visitados] at every test of the [while]. *)
Definition inv (g : Grafo) (inicio : string) (e : estado) : Prop :=
  camino_entre (arco g) inicio (nodo_actual e) (camino e) ∧
  NoDup (camino e) ∧
  ∀ x, x ∈ camino e → x ∈ visitados e.

(** The graph after a successful [agregar_arista]. *)
Definition con_arista (g : Grafo) (a : string * string * float) : Grafo :=
  {| adyacencias := <[a.1.1 := adyacentes g a.1.1 ++ [(a.1.2, a.2)]]> (adyacencias g);
     aristas := aristas g ++ [a];
     nodos := {[a.1.2]} ∪ ({[a.1.1]} ∪ nodos g);
     posiciones_nodos := posiciones_nodos g |}.

(** Every endpoint of an edge is its own normal form. *)
Definition normalizado (g : Grafo) : Prop :=
  Forall (λ a, normalizar a.1.1 = a.1.1 ∧ normalizar a.1.2 = a.1.2) (aristas g).


End InformadaGrafo.

(** ** Reading a trace *)

Module CiegaTraza.
Import Ciega.

(** The nodes of the records "Procesar nodo", in the order of the trace. *)
Definition procesados (pasos : list entrada) : list string :=
  omap (λ en, match en with
              | Registro p => match accion_paso p with
                              | ProcesarNodo x => Some x
                              | _ => None
                              end
              | Texto _ => None
              end) pasos.

(** The nodes put in the queue according to the trace: the start node of
    the initial record, then the [vecinos_agregados] of each record
    "Agregar vecinos". *)
Definition encolados (pasos : list entrada) : list string :=
  concat ((λ en, match en with
                | Registro p => match accion_paso p with
                                | Inicializar x => [x]
                                | AgregarVecinos _ nuevos => nuevos
                                | _ => []
                                end
                | Texto _ => []
                end) <$> pasos).

(** Every element is a record whose [paso] is its position. *)
Definition numerados (pasos : list entrada) : Prop :=
  ∀ i en, pasos !! i = Some en → ∃ p, en = Registro p ∧ paso p = i.

(** When the trace queues nodes. The initial record is the first of the
    trace and queues the start node. A record "Agregar vecinos" of [u]
    comes right after the record "Procesar nodo" of [u], and queues
    neighbours of [u] only. *)
Definition encola_tras_procesar (g : Grafo) (inicio : string) (pasos : list entrada)
  : Prop :=
  ∀ j p, pasos !! j = Some (Registro p) →
    match accion_paso p with
    | Inicializar x => j = 0 ∧ x = inicio
    | AgregarVecinos u nuevos =>
        (∃ i q, j = S i ∧ pasos !! i = Some (Registro q) ∧
                accion_paso q = ProcesarNodo u) ∧
        ∀ x, x ∈ nuevos → x ∈ obtener_vecinos g u
    | _ => True
    end.

End CiegaTraza.

Module InformadaTraza.
Import Informada.

Definition numerados (pasos : list paso_busqueda) : Prop :=
  ∀ i p, pasos !! i = Some p → paso p = i.

(** The record shows the nodes of its path as visited, and the last of
    them as the current node. *)
Definition coherente (p : paso_busqueda) : Prop :=
  visitados_paso p = list_to_set (camino_actual p) ∧
  nodo_actual_paso p = last (camino_actual p).

(** The neighbours not yet visited, in the order of the adjacency list. *)
Definition por_visitar (e : estado) (vecinos : list (string * float))
  : list (string * float) :=
  filter (λ vp, vp.1 ∉ visitados e) vecinos.

(** The number of records "Moverse a ...": the turns of the loop that
    ended with a move. *)
Definition es_movimiento (p : paso_busqueda) : bool :=
  match accion_paso p with
  | Moverse _ _ _ => true
  | _ => false
  end.

Definition movimientos (pasos : list paso_busqueda) : nat :=
  length (filter (λ p, es_movimiento p = true) pasos).

(** The record [ev] is the evaluation of the neighbour [vp] from the state
    [e]: its heuristic is the one computed for the neighbour, and its
    value is the cost so far plus the weight plus the heuristic. *)
Definition evaluada `{Python} (objetivo : string)
    (posiciones_canvas : option (gmap string (float * float))) (e : estado)
    (vp : string * float) (ev : evaluacion) : Prop :=
  vecino ev = vp.1 ∧ peso ev = vp.2 ∧
  heuristica_de posiciones_canvas vp.1 objetivo = Valor (heuristica ev) ∧
  valor_evaluacion ev = (costo_total e + vp.2 + heuristica ev)%float.

(** What the [for] loop keeps at every turn: [mejor_evaluacion] is below
    infinity and is the evaluation of [mejor_vecino], none listed so far is
    below it, and none listed before it is equal to it. *)
Definition elegido (acc : option (string * float) * float * list evaluacion) : Prop :=
  let '(mejor, f, evals) := acc in
  match mejor with
  | Some (v, w) =>
      ∃ j ev, evals !! j = Some ev ∧ vecino ev = v ∧ peso ev = w ∧
        valor_evaluacion ev = f ∧ (f <? infinity)%float = true ∧
        (∀ ev', ev' ∈ evals → (valor_evaluacion ev' <? f)%float = false) ∧
        (∀ i ev', i < j → evals !! i = Some ev' →
                  (valor_evaluacion ev' <=? f)%float = false)
  | None =>
      f = infinity ∧
      ∀ ev', ev' ∈ evals → (valor_evaluacion ev' <? infinity)%float = false
  end.

(** No two edges leave a node for the same target. *)
Definition sin_paralelas (g : Grafo) : Prop :=
  map_Forall (λ _ vecinos, NoDup vecinos.*1) (adyacencias g).

End InformadaTraza.

(** ** Closed examples *)

(** A stand-in for the library operations in the closed examples below:
    [float] of a string of decimal digits, as Python reads it, [str] of
    [None], [True] and [False], and [d ** 2] as the product, which is
    exact on the small integers of the examples, with [OverflowError] when
    a finite [d] gives an infinite product.  The examples never apply
    them to anything else. *)
Fixpoint valor_digitos (s : string) (acc : Z) : option Z :=
  match s with
  | EmptyString => Some acc
  | String c s' =>
      let n := nat_of_ascii c in
      if (48 <=? n)%nat && (n <=? 57)%nat
      then valor_digitos s' (10 * acc + Z.of_nat (n - 48))%Z
      else None
  end.

Definition python_ejemplo : Python :=
  {| float_de_texto := λ s,
       match s with
       | EmptyString => None
       | _ => redondear <$> valor_digitos s 0%Z
       end;
     str_de_valor := λ v,
       match v with
       | JNull => "None"
       | JBool true => "True"
       | JBool false => "False"
       | _ => EmptyString
       end;
     potencia_2 := λ d,
       let p := (d * d)%float in
       if PrimFloat.is_infinity p && negb (PrimFloat.is_infinity d) then None else Some p |}.

(** The graph of the scenarios: A→B (1), B→C (1), A→C (5), entered in
    that order. *)
Definition grafo_ciego_abc : Ciega.Grafo :=
  let g0 := Ciega.vacio in
  let g1 := (Ciega.agregar_arista (H := python_ejemplo) g0 "A" "B" (JStr "1")).2 in
  let g2 := (Ciega.agregar_arista (H := python_ejemplo) g1 "B" "C" (JStr "1")).2 in
  (Ciega.agregar_arista (H := python_ejemplo) g2 "A" "C" (JStr "5")).2.

Definition grafo_informado_abc : Informada.Grafo :=
  let g0 := Informada.vacio in
  let g1 := (Informada.agregar_arista (H := python_ejemplo) g0 "A" "B" (JStr "1")).2 in
  let g2 := (Informada.agregar_arista (H := python_ejemplo) g1 "B" "C" (JStr "1")).2 in
  (Informada.agregar_arista (H := python_ejemplo) g2 "A" "C" (JStr "5")).2.

(** The graph with the single edge a→b (1), entered with lower-case
    labels. *)
Definition grafo_minusculas : Ciega.Grafo :=
  (Ciega.agregar_arista (H := python_ejemplo) Ciega.vacio "a" "b" (JStr "1")).2.

(** A well-formed edge record. *)
Definition registro_arista (origen destino : string) (peso : json) : json :=
  JObj [("origen", JStr origen); ("destino", JStr destino); ("peso", peso)].

(** Three edges whose second weight is the integer 10^400, which JSON
    admits and no float holds. *)
Definition datos_desbordados : json :=
  JObj [("aristas",
         JArr [registro_arista "A" "B" (JInt 1);
               registro_arista "B" "C" (JInt (10 ^ 400));
               registro_arista "A" "C" (JInt 5)])].

(** Four records, the second without its weight. *)
Definition datos_escenario_d : json :=
  JObj [("nodos", JArr [JStr "A"; JStr "B"; JStr "C"]);
        ("aristas",
         JArr [registro_arista "a" " b" (JInt 1);
               JObj [("origen", JStr "B"); ("destino", JStr "C")];
               registro_arista "B" "C" (JStr "2");
               registro_arista "A" "C" (JFloat 5)])].

(** A run of the window of the blind-search script: two edges typed in
    lower case and with blanks, and a third whose weight is not a number. *)
Definition pulsaciones_abc : list InterfazCiega.pulsacion :=
  [InterfazCiega.PulsarAgregar "a" " b " "1";
   InterfazCiega.PulsarAgregar "b" "c" "2";
   InterfazCiega.PulsarAgregar "a" "c" "x"].

(** The same run in the window of the informed-search script. *)
Definition pulsaciones_informadas_abc : list InterfazInformada.pulsacion :=
  [InterfazInformada.PulsarAgregar "a" " b " "1";
   InterfazInformada.PulsarAgregar "b" "c" "2";
   InterfazInformada.PulsarAgregar "a" "c" "x"].


(** The cost recorded in the last record of a trace of the informed
    search. *)
Definition costo_final (pasos : list Informada.paso_busqueda) : option float :=
  Informada.costo_total_paso <$> last pasos.

(** Settles a decidable closed proposition by evaluation. *)
Ltac por_calculo := apply (bool_decide_unpack _); vm_compute; exact I.

(** * Paths: lemmas *)

Section Caminos.
Context (R : string → string → Prop).

Lemma encadenado_snoc l u v :
  encadenado R l → last l = Some u → R u v → encadenado R (l ++ [v]).
Proof.
  induction l as [|x l IH]; intros Hl Hu Huv; [done|].
  destruct l as [|y l].
  - simpl in *. injection Hu as ->. done.
  - destruct Hl as [Hxy Hl]. split; [done|]. apply IH; done.
Qed.

Lemma encadenado_snoc_inv l v :
  l ≠ [] → encadenado R (l ++ [v]) →
  ∃ u, last l = Some u ∧ R u v ∧ encadenado R l.
Proof.
  induction l as [|x l IH]; intros Hne Hl; [done|].
  destruct l as [|y l].
  - simpl in Hl. exists x. destruct Hl as [Hxv _]. done.
  - destruct Hl as [Hxy Hl].
    destruct (IH ltac:(done) Hl) as (u & Hu & Huv & Hl').
    exists u. split_and!; [done|done|]. split; done.
Qed.

Lemma camino_un_nodo s : camino_entre R s s [s].
Proof. done. Qed.

Lemma camino_snoc s u v l :
  camino_entre R s u l → R u v → camino_entre R s v (l ++ [v]).
Proof.
  intros (Hh & Hl & He) Huv. split_and!.
  - destruct l; [done|]. done.
  - apply last_snoc.
  - eapply encadenado_snoc; done.
Qed.

Lemma camino_alcanza s t l : camino_entre R s t l → alcanza R s (saltos l) t.
Proof.
  revert t. induction l as [|x l IH] using rev_ind; intros t (Hh & Hl & He).
  - done.
  - rewrite last_snoc in Hl. injection Hl as ->.
    unfold saltos. rewrite length_app. simpl.
    destruct (decide (l = [])) as [->|Hne].
    + simpl in Hh. injection Hh as ->. constructor.
    + destruct (encadenado_snoc_inv l t Hne He) as (u & Hu & Hut & Hl).
      replace (length l + 1 - 1) with (S (saltos l)).
      * econstructor; [|done]. apply IH. split_and!; [|done|done].
        destruct l; [done|]. done.
      * unfold saltos. destruct l; [done|]. simpl. lia.
Qed.

Lemma encadenado_mono (R' : string → string → Prop) l :
  (∀ u v, R u v → R' u v) → encadenado R l → encadenado R' l.
Proof.
  intros HR. induction l as [|x l IH]; [done|].
  destruct l as [|y l]; [done|]. intros [? ?]. split; auto.
Qed.

End Caminos.

Lemma camino_entre_mono (R R' : string → string → Prop) s t l :
  (∀ u v, R u v → R' u v) → camino_entre R s t l → camino_entre R' s t l.
Proof. intros HR (?&?&?). split_and!; [done..|]. by eapply encadenado_mono. Qed.

(** * Normalisation of node labels *)

Lemma es_espacio_mayuscula c : es_espacio (mayuscula c) = es_espacio c.
Proof. destruct c as [[] [] [] [] [] [] [] []]; reflexivity. Qed.

Lemma mayuscula_idem c : mayuscula (mayuscula c) = mayuscula c.
Proof. destruct c as [[] [] [] [] [] [] [] []]; reflexivity. Qed.

Lemma upper_idem s : upper (upper s) = upper s.
Proof. induction s as [|c s IH]; simpl; [done|]. by rewrite mayuscula_idem, IH. Qed.

Lemma lstrip_upper s : lstrip (upper s) = upper (lstrip s).
Proof.
  induction s as [|c s IH]; simpl; [done|].
  rewrite es_espacio_mayuscula. by destruct (es_espacio c).
Qed.

Lemma rstrip_upper s : rstrip (upper s) = upper (rstrip s).
Proof.
  induction s as [|c s IH]; simpl; [done|].
  rewrite IH, es_espacio_mayuscula.
  destruct (rstrip s); simpl; [|done]. by destruct (es_espacio c).
Qed.

Lemma strip_upper s : strip (upper s) = upper (strip s).
Proof. unfold strip. by rewrite lstrip_upper, rstrip_upper. Qed.

(** What [lstrip] returns is empty or starts with a character that is not
    white space. *)
Lemma lstrip_cabeza s :
  lstrip s = EmptyString ∨ ∃ c t, lstrip s = String c t ∧ es_espacio c = false.
Proof.
  induction s as [|c s IH]; simpl; [by left|].
  destruct (es_espacio c) eqn:Hc; [done|]. right. by exists c, s.
Qed.

Lemma rstrip_idem s : rstrip (rstrip s) = rstrip s.
Proof.
  induction s as [|c s IH]; simpl; [done|].
  destruct (rstrip s) as [|c' r] eqn:Hr.
  - destruct (es_espacio c) eqn:Hc; simpl; [done|]. by rewrite Hc.
  - change (rstrip (String c (String c' r))) with
      (match rstrip (String c' r) with
       | EmptyString => if es_espacio c then EmptyString else String c EmptyString
       | r' => String c r'
       end).
    by rewrite IH.
Qed.

Lemma strip_idem s : strip (strip s) = strip s.
Proof.
  unfold strip. destruct (lstrip_cabeza s) as [->|(c & t & -> & Hc)]; [done|].
  assert (∃ r, rstrip (String c t) = String c r) as [r Hr].
  { simpl. destruct (rstrip t); [|by eexists]. rewrite Hc. by eexists. }
  rewrite Hr. simpl lstrip. rewrite Hc. rewrite <- Hr. apply rstrip_idem.
Qed.

(** Normalising twice is normalising once. *)
Lemma normalizar_idem s : normalizar (normalizar s) = normalizar s.
Proof. unfold normalizar. by rewrite strip_upper, upper_idem, strip_idem. Qed.

(** * Edge lists and the graph of the blind search *)

Lemma salientes_app u l1 l2 : salientes u (l1 ++ l2) = salientes u l1 ++ salientes u l2.
Proof. apply omap_app. Qed.

Lemma elem_of_salientes u v p l : (v, p) ∈ salientes u l ↔ (u, v, p) ∈ l.
Proof.
  unfold salientes. rewrite list_elem_of_omap. split.
  - intros ([[o d] q] & Hin & Heq). simpl in Heq.
    case_decide; [|done]. by simplify_eq.
  - intros Hin. exists (u, v, p). split; [done|]. simpl. by rewrite decide_True.
Qed.

Lemma extremos_app l1 l2 : extremos (l1 ++ l2) = extremos l1 ∪ extremos l2.
Proof.
  induction l1 as [|a l1 IH]; simpl.
  - by rewrite (left_id_L ∅ (∪)).
  - rewrite IH. set_solver.
Qed.

Lemma elem_of_extremos n l :
  n ∈ extremos l ↔ ∃ o d p, (o, d, p) ∈ l ∧ (n = o ∨ n = d).
Proof.
  induction l as [|[[o d] p] l IH]; simpl.
  - split; [set_solver|]. intros (? & ? & ? & H & _). by apply elem_of_nil in H.
  - rewrite !elem_of_union, !elem_of_singleton, IH. split.
    + intros [->|[->|(o' & d' & p' & Hin & Hor)]].
      * exists o, d, p. split; [by left|by left].
      * exists o, d, p. split; [by left|by right].
      * exists o', d', p'. split; [by right|done].
    + intros (o' & d' & p' & Hin & Hor).
      apply elem_of_cons in Hin as [[= -> -> ->]|Hin]; [naive_solver|].
      right. right. eauto 6.
Qed.

Lemma salientes_ajeno u l : u ∉ extremos l → salientes u l = [].
Proof.
  induction l as [|[[o d] p] l IH]; intros Hu; [done|].
  simpl in Hu. unfold salientes. cbn [omap list_omap]. simpl.
  rewrite decide_False by set_solver. apply IH. set_solver.
Qed.

Section LemasCiegaGrafo.
Import Ciega CiegaGrafo.

Lemma vacio_bien_formado : bien_formado vacio.
Proof.
  split.
  - intros u. unfold adyacentes. simpl. by rewrite lookup_empty.
  - done.
Qed.

Lemma adyacentes_agregar g o d p u :
  adyacentes
    {| adyacencias := <[o := adyacentes g o ++ [(d, p)]]> (adyacencias g);
       aristas := aristas g ++ [(o, d, p)];
       nodos := {[d]} ∪ ({[o]} ∪ nodos g) |} u
  = if decide (o = u) then adyacentes g u ++ [(d, p)] else adyacentes g u.
Proof.
  unfold adyacentes at 1. simpl. case_decide as Hou.
  - subst. by rewrite lookup_insert_eq.
  - by rewrite lookup_insert_ne.
Qed.

Lemma agregar_arista_valor `{Python} g o d w p :
  py_float w = Valor p →
  agregar_arista g o d w =
    (Valor true,
     {| adyacencias := <[o := adyacentes g o ++ [(d, p)]]> (adyacencias g);
        aristas := aristas g ++ [(o, d, p)];
        nodos := {[d]} ∪ ({[o]} ∪ nodos g) |}).
Proof. intros Hw. unfold agregar_arista. by rewrite Hw. Qed.

Lemma agregar_bien_formado g o d p :
  bien_formado g →
  bien_formado
    {| adyacencias := <[o := adyacentes g o ++ [(d, p)]]> (adyacencias g);
       aristas := aristas g ++ [(o, d, p)];
       nodos := {[d]} ∪ ({[o]} ∪ nodos g) |}.
Proof.
  intros [Ha Hn]. split.
  - intros u. rewrite adyacentes_agregar. cbn [aristas].
    rewrite salientes_app, Ha. unfold salientes at 3. simpl.
    case_decide; [done|]. by rewrite app_nil_r.
  - cbn [aristas nodos]. rewrite extremos_app, Hn. simpl. set_solver.
Qed.

(** [agregar_arista] keeps the attributes in agreement, whatever it
    returns. *)
Lemma agregar_arista_bien_formado `{Python} g o d w :
  bien_formado g → bien_formado (agregar_arista g o d w).2.
Proof.
  intros Hg. unfold agregar_arista.
  destruct (py_float w) as [p|e|]; simpl; [|by destruct e|done].
  by apply agregar_bien_formado.
Qed.

Lemma arco_arista g u v : bien_formado g → arco g u v ↔ arista_dirigida g u v.
Proof.
  intros [Ha _]. unfold arco, arista_dirigida, obtener_vecinos.
  rewrite list_elem_of_fmap, Ha. split.
  - intros ([v' p] & -> & Hin). exists p. by apply elem_of_salientes.
  - intros (p & Hin). exists (v, p). split; [done|]. by apply elem_of_salientes.
Qed.

Lemma arco_en_nodos g u v : bien_formado g → arco g u v → v ∈ nodos g.
Proof.
  intros Hg Huv. apply (arco_arista g u v Hg) in Huv as (p & Hin).
  rewrite (bf_nodos g Hg). apply elem_of_extremos. eauto 6.
Qed.

(** Well-formedness only has to be checked on the keys of the adjacency
    dictionary and on the endpoints of the edges, so it is decidable. *)
Lemma bien_formado_finito g :
  bien_formado g ↔
  nodos g = extremos (aristas g) ∧
  set_Forall (λ u, adyacentes g u = salientes u (aristas g))
    (dom (adyacencias g) ∪ extremos (aristas g)).
Proof.
  split.
  - intros [Ha Hn]. split; [done|]. intros u _. apply Ha.
  - intros [Hn Ha]. split; [|done]. intros u.
    destruct (decide (u ∈ dom (adyacencias g) ∪ extremos (aristas g))) as [Hu|Hu];
      [by apply Ha|].
    apply not_elem_of_union in Hu as [Hd He].
    rewrite salientes_ajeno by done. unfold adyacentes.
    apply not_elem_of_dom in Hd. by rewrite Hd.
Qed.

#[global] Instance bien_formado_dec g : Decision (bien_formado g).
Proof.
  destruct (decide (nodos g = extremos (aristas g) ∧
                    set_Forall (λ u, adyacentes g u = salientes u (aristas g))
                      (dom (adyacencias g) ∪ extremos (aristas g)))) as [H|H].
  - left. by apply bien_formado_finito.
  - right. intros Hg. by apply H, bien_formado_finito.
Defined.

End LemasCiegaGrafo.

(** * Breadth-first search: the loop invariant *)

Section LemasCiegaBFS.
Import Ciega CiegaGrafo.

Section Invariante.
Context (g : Grafo) (inicio final : string).
Context (Hcerrado : ∀ u v, arco g u v → v ∈ nodos g).

Lemma inv_inicial :
  inicio ∈ nodos g →
  inv g inicio final (λ _, 0) 0 None
    {| cola := [inicio]; visitados := {[inicio]}; padre := {[inicio := None]} |}.
Proof.
  intros Hi. split; cbn [cola visitados padre].
  - set_solver.
  - intros v Hv. apply elem_of_singleton in Hv as ->. left.
    by rewrite lookup_singleton_eq.
  - set_solver.
  - intros v _. rewrite size_singleton. lia.
  - intros; lia.
  - split; [apply NoDup_singleton|]. set_solver.
  - exists [inicio], []. split_and!; [done|by constructor|constructor].
  - intros p Hp Hnp _. apply elem_of_singleton in Hp as ->.
    exfalso. apply Hnp. by left.
  - done.
Qed.

(** Every node reached in [n] steps is visited at level at most [n], unless
    [n] is beyond the level of the queue. *)
Lemma inv_alcanza d k e n v :
  inv g inicio final d k None e →
  alcanza (arco g) inicio n v →
  (v ∈ visitados e ∧ d v ≤ n) ∨ S k ≤ n.
Proof.
  intros Hinv Hn. induction Hn as [|n u v Hn IH Huv].
  - left. destruct (inv_inicio _ _ _ _ _ _ _ Hinv) as [? ->]. done.
  - destruct IH as [[Hu Hdu]|?]; [|right; lia].
    destruct (decide (u ∈ cola e)) as [Hq|Hq].
    + right. destruct (inv_orden _ _ _ _ _ _ _ Hinv) as (A & B & HAB & HA & HB).
      rewrite HAB in Hq. apply elem_of_app in Hq as [Hq|Hq].
      * rewrite Forall_forall in HA. specialize (HA _ Hq). lia.
      * rewrite Forall_forall in HB. specialize (HB _ Hq). lia.
    + left. destruct (inv_hecho _ _ _ _ _ _ _ Hinv u Hu Hq ltac:(done)) as [_ Hw].
      destruct (Hw v Huv) as [? ?]. split; [done|lia].
Qed.

Lemma inv_minimo d k e n v :
  inv g inicio final d k None e →
  v ∈ visitados e → alcanza (arco g) inicio n v → d v ≤ n.
Proof.
  intros Hinv Hv Hn.
  destruct (inv_alcanza d k e n v Hinv Hn) as [[_ ?]|?]; [done|].
  pose proof (inv_nivel _ _ _ _ _ _ _ Hinv v Hv). lia.
Qed.

(** With an empty queue every reachable node has been expanded, so the
    goal is not reachable. *)
Lemma inv_agotado d k e n :
  inv g inicio final d k None e → cola e = [] → ¬ alcanza (arco g) inicio n final.
Proof.
  intros Hinv Hcola Hn.
  assert (∀ n v, alcanza (arco g) inicio n v → v ∈ visitados e) as Hvis.
  { clear n Hn. intros n v Hn. induction Hn as [|n u v Hn IH Huv].
    - apply (inv_inicio _ _ _ _ _ _ _ Hinv).
    - destruct (inv_hecho _ _ _ _ _ _ _ Hinv u IH) as [_ Hw]; [|done|].
      + rewrite Hcola. apply not_elem_of_nil.
      + apply (Hw v Huv). }
  destruct (inv_hecho _ _ _ _ _ _ _ Hinv final (Hvis _ _ Hn)) as [Hne _]; [|done|done].
  rewrite Hcola. apply not_elem_of_nil.
Qed.

(** [popleft]: the front of the queue becomes the node being expanded. *)
Lemma inv_sacar d k e x resto :
  inv g inicio final d k None e → cola e = x :: resto → x ≠ final →
  ∃ k', inv g inicio final d k' (Some x)
          {| cola := resto; visitados := visitados e; padre := padre e |}.
Proof.
  intros Hinv Hcola Hxf.
  destruct Hinv as [Hi Hp Hn Hc Hl [Hnd Hq] (A & B & HAB & HA & HB) Hh _].
  rewrite Hcola in *. apply NoDup_cons in Hnd as [Hxr Hnd].
  assert (∃ k', d x = k' ∧ k ≤ k' ∧ (∀ v, v ∈ visitados e → d v ≤ S k') ∧
          ∃ A' B', resto = A' ++ B' ∧ Forall (λ q, d q = k') A' ∧
                   Forall (λ q, d q = S k') B') as (k' & Hdx & Hkk & Hl' & Hord).
  { destruct A as [|a A].
    - simpl in HAB. subst B. apply Forall_cons in HB as [Hdx HB].
      exists (S k). split_and!; [done|lia| |].
      + intros v Hv. specialize (Hl v Hv). lia.
      + exists resto, []. rewrite app_nil_r. split_and!; [done|done|constructor].
    - simpl in HAB. injection HAB as <- ->. apply Forall_cons in HA as [Hdx HA].
      exists k. split_and!; [done|lia|done|]. by exists A, B. }
  exists k'. split; simpl; try done.
  - split; [done|]. intros q Hq'. apply Hq. by right.
  - intros p Hpv Hpr Hpx. apply Hh; [done| |done].
    intros [->|?]%elem_of_cons; [by apply Hpx|done].
  - intros ? [= <-]. split_and!; [|done|done|done]. apply Hq. by left.
Qed.

(** One turn of [for vecino in vecinos]. *)
Lemma inv_visitar d k x e nuevos w :
  inv g inicio final d k (Some x) e → arco g x w →
  ∃ d', inv g inicio final d' k (Some x) (visitar x (e, nuevos) w).1 ∧
        visitados e ⊆ visitados (visitar x (e, nuevos) w).1 ∧
        w ∈ visitados (visitar x (e, nuevos) w).1 ∧
        length (cola (visitar x (e, nuevos) w).1) + size (visitados e)
          = length (cola e) + size (visitados (visitar x (e, nuevos) w).1).
Proof.
  intros Hinv Hxw. unfold visitar. case_decide as Hw; simpl.
  { exists d. split_and!; [done|done|done|lia]. }
  destruct Hinv as [[Hi Hdi] Hp Hn Hc Hl [Hnd Hq] (A & B & HAB & HA & HB) Hh Ha].
  destruct (Ha x eq_refl) as (Hxv & Hxq & Hdx & Hxf).
  assert (x ≠ w) as Hxw' by (intros ->; done).
  assert (inicio ≠ w) as Hiw by (intros ->; done).
  set (d' := λ v, if decide (v = w) then S k else d v).
  assert (∀ v, v ∈ visitados e → d' v = d v) as Hd'.
  { intros v Hv. unfold d'. case_decide; [by subst|done]. }
  assert (d' w = S k) as Hd'w by (unfold d'; by rewrite decide_True).
  exists d'. split_and!.
  - split; simpl.
    + split; [set_solver|]. unfold d'. by rewrite decide_False.
    + intros v [->%elem_of_singleton|Hv]%elem_of_union.
      * right. exists x. rewrite lookup_insert_eq.
        split_and!; [done|set_solver|done|]. rewrite Hd'w, Hd'; [lia|done].
      * assert (v ≠ w) by (intros ->; done).
        rewrite lookup_insert_ne by done.
        destruct (Hp v Hv) as [?|(p & ? & Hpv & ? & ?)]; [by left|].
        right. exists p. split_and!; [done|set_solver|done|].
        rewrite !Hd'; done.
    + apply union_subseteq. split; [|done].
      apply singleton_subseteq_l. by eapply Hcerrado.
    + intros v Hv. rewrite size_union by set_solver. rewrite size_singleton.
      apply elem_of_union in Hv as [->%elem_of_singleton|Hv].
      * rewrite Hd'w. specialize (Hc x Hxv). lia.
      * rewrite Hd' by done. specialize (Hc v Hv). lia.
    + intros v [->%elem_of_singleton|Hv]%elem_of_union.
      * lia.
      * rewrite Hd' by done. by apply Hl.
    + split.
      * apply NoDup_app. split_and!; [done| |apply NoDup_singleton].
        intros q Hq1 ->%list_elem_of_singleton. by apply Hw, Hq.
      * intros q [?| ->%list_elem_of_singleton]%elem_of_app; [|set_solver].
        apply elem_of_union. right. by apply Hq.
    + exists A, (B ++ [w]). split_and!.
      * by rewrite HAB, app_assoc.
      * rewrite Forall_forall in HA. apply Forall_forall. intros q Hq'.
        rewrite Hd'; [by apply HA|]. apply Hq. rewrite HAB. apply elem_of_app. by left.
      * apply Forall_app. split.
        -- rewrite Forall_forall in HB. apply Forall_forall. intros q Hq'.
           rewrite Hd'; [by apply HB|]. apply Hq. rewrite HAB. apply elem_of_app. by right.
        -- by constructor.
    + intros p Hpv Hpq Hpx.
      assert (p ≠ w) as Hpw.
      { intros ->. apply Hpq. apply elem_of_app. right. by left. }
      assert (p ∈ visitados e) as Hpv' by set_solver.
      destruct (Hh p Hpv') as [Hpf Hpw']; [|done|].
      * intros ?. apply Hpq. apply elem_of_app. by left.
      * split; [done|]. intros w' Hpw''. destruct (Hpw' w' Hpw'') as [? ?].
        split; [set_solver|]. rewrite !Hd'; done.
    + intros ? [= <-]. split_and!; [set_solver| |by rewrite Hd'|done].
      intros [?| ->%list_elem_of_singleton]%elem_of_app; done.
  - set_solver.
  - set_solver.
  - rewrite length_app. simpl. rewrite size_union by set_solver.
    rewrite size_singleton. lia.
Qed.

(** The whole [for] loop: afterwards every neighbour listed is visited. *)
Lemma inv_explorar d k x vs e nuevos :
  inv g inicio final d k (Some x) e → (∀ w, w ∈ vs → arco g x w) →
  ∃ d', inv g inicio final d' k (Some x) (fold_left (visitar x) vs (e, nuevos)).1 ∧
        visitados e ⊆ visitados (fold_left (visitar x) vs (e, nuevos)).1 ∧
        (∀ w, w ∈ vs → w ∈ visitados (fold_left (visitar x) vs (e, nuevos)).1) ∧
        length (cola (fold_left (visitar x) vs (e, nuevos)).1) + size (visitados e)
          = length (cola e) + size (visitados (fold_left (visitar x) vs (e, nuevos)).1).
Proof.
  revert d e nuevos. induction vs as [|w vs IH]; intros d e nuevos Hinv Hvs.
  - exists d. simpl. split_and!; [done|done| |lia]. intros w Hw. by apply elem_of_nil in Hw.
  - cbn [fold_left].
    destruct (inv_visitar d k x e nuevos w Hinv) as (d1 & Hinv1 & Hsub1 & Hw1 & Hlen1).
    { apply Hvs. by left. }
    destruct (visitar x (e, nuevos) w) as [e1 nuevos1]. cbn [fst] in *.
    destruct (IH d1 e1 nuevos1 Hinv1) as (d2 & Hinv2 & Hsub2 & Hw2 & Hlen2).
    { intros w' Hw'. apply Hvs. by right. }
    exists d2. split_and!; [done|set_solver| |lia].
    intros w' [->|Hw']%elem_of_cons; [set_solver|by apply Hw2].
Qed.

(** After the [for] loop the node expanded counts as done. *)
Lemma inv_cerrar d k x e :
  inv g inicio final d k (Some x) e → (∀ w, arco g x w → w ∈ visitados e) →
  inv g inicio final d k None e.
Proof.
  intros [Hi Hp Hn Hc Hl Hq Ho Hh Ha] Hx.
  destruct (Ha x eq_refl) as (Hxv & Hxq & Hdx & Hxf).
  split; try done.
  intros p Hpv Hpq _. destruct (decide (p = x)) as [->|Hpx].
  - split; [done|]. intros w Hw. split; [by apply Hx|].
    rewrite Hdx. apply Hl. by apply Hx.
  - apply Hh; [done|done|]. by intros [= ->].
Qed.

(** [_reconstruir_camino] walks back [d v + 1] nodes and returns a path
    from [inicio] with [d v] edges. *)
Lemma reconstruir_correcto d k u e fuel :
  inv g inicio final d k u e →
  ∀ v acc, v ∈ visitados e →
  match reconstruir fuel (padre e) (Some v) acc with
  | Valor c =>
      ∃ l, c = l ++ reverse acc ∧ camino_entre (arco g) inicio v l ∧ length l = S (d v)
  | SinCombustible => fuel ≤ d v
  | Excepcion _ => False
  end.
Proof.
  intros Hinv. induction fuel as [|fuel IH]; intros v acc Hv.
  - simpl. lia.
  - cbn [reconstruir].
    destruct (inv_padre _ _ _ _ _ _ _ Hinv v Hv) as [[-> Hp]|(p & Hp & Hpv & Hpa & Hd)];
      rewrite Hp.
    + destruct fuel; cbn [reconstruir]; exists [inicio]; rewrite reverse_snoc;
        (split_and!; [done|apply camino_un_nodo|]);
        destruct (inv_inicio _ _ _ _ _ _ _ Hinv) as [_ ->]; done.
    + specialize (IH p (acc ++ [v]) Hpv).
      destruct (reconstruir fuel (padre e) (Some p) (acc ++ [v])) as [c|ex|].
      * destruct IH as (l & -> & Hl & Hlen). exists (l ++ [v]). split_and!.
        -- rewrite reverse_snoc. by rewrite <- app_assoc.
        -- by eapply camino_snoc.
        -- rewrite length_app. simpl. lia.
      * done.
      * lia.
Qed.

(** The loop, for any fuel: a path returned is a shortest one, [None] is
    returned only when the goal is out of reach, no exception is raised,
    and the fuel runs out only when it was below the bound. *)
Lemma bucle_correcto fuel fuel_r :
  ∀ e n pasos d k,
  inv g inicio final d k None e →
  match bucle fuel fuel_r g inicio final e n pasos with
  | Valor (Some c, _) =>
      camino_entre (arco g) inicio final c ∧
      ∀ m, alcanza (arco g) inicio m final → length c ≤ S m
  | Valor (None, _) => ∀ m, ¬ alcanza (arco g) inicio m final
  | Excepcion _ => False
  | SinCombustible =>
      fuel + size (visitados e) ≤ size (nodos g) + length (cola e) ∨
      fuel_r ≤ size (nodos g)
  end.
Proof.
  induction fuel as [|fuel IH]; intros e n pasos d k Hinv.
  - cbn [bucle]. destruct (cola e) as [|x resto] eqn:Hcola.
    + intros m. by eapply inv_agotado.
    + left. pose proof (subseteq_size _ _ (inv_nodos _ _ _ _ _ _ _ Hinv)). simpl. lia.
  - cbn [bucle]. destruct (cola e) as [|x resto] eqn:Hcola.
    { intros m. by eapply inv_agotado. }
    assert (x ∈ visitados e) as Hxv.
    { apply (inv_cola _ _ _ _ _ _ _ Hinv). rewrite Hcola. by left. }
    pose proof (subseteq_size _ _ (inv_nodos _ _ _ _ _ _ _ Hinv)) as Hsize.
    case_decide as Hxf.
    + subst x. unfold _reconstruir_camino.
      pose proof (reconstruir_correcto d k None e fuel_r Hinv final [] Hxv) as Hr.
      destruct (reconstruir fuel_r (padre e) (Some final) []) as [c|ex|]; cbn [ligar].
      * destruct Hr as (l & -> & Hl & Hlen). rewrite app_nil_r. split; [done|].
        intros m Hm. rewrite Hlen.
        pose proof (inv_minimo d k e m final Hinv Hxv Hm). lia.
      * done.
      * right. pose proof (inv_cota _ _ _ _ _ _ _ Hinv final Hxv). lia.
    + destruct (inv_sacar d k e x resto Hinv Hcola Hxf) as (k' & Hinv1).
      unfold explorar.
      set (e1 := {| cola := resto; visitados := visitados e; padre := padre e |}) in *.
      destruct (inv_explorar d k' x (obtener_vecinos g x) e1 [] Hinv1)
        as (d2 & Hinv2 & Hsub & Hvs & Hlen); [done|].
      destruct (fold_left (visitar x) (obtener_vecinos g x) (e1, [])) as [e2 nuevos].
      cbn [fst] in *.
      apply inv_cerrar in Hinv2; [|done].
      cbn [cola visitados e1] in Hlen.
      destruct nuevos as [|w nuevos].
      * match goal with |- context [bucle fuel fuel_r g inicio final e2 ?a ?b] =>
          specialize (IH e2 a b d2 k' Hinv2);
          destruct (bucle fuel fuel_r g inicio final e2 a b) as [[[c|] ps]|ex|] end;
          [done|done|done|]. simpl. lia.
      * match goal with |- context [bucle fuel fuel_r g inicio final e2 ?a ?b] =>
          specialize (IH e2 a b d2 k' Hinv2);
          destruct (bucle fuel fuel_r g inicio final e2 a b) as [[[c|] ps]|ex|] end;
          [done|done|done|]. simpl. lia.
Qed.

End Invariante.
End LemasCiegaBFS.

(** * The bulk loader and the exporter of the blind search *)

Lemma leer_arista_normaliza `{Python} a o d p :
  leer_arista a = Valor (o, d, p) → normalizar o = o ∧ normalizar d = d.
Proof.
  unfold leer_arista. intros Hl.
  destruct (py_getitem a "origen") as [vo| |]; [|done..]. cbn [ligar] in Hl.
  destruct (py_getitem a "destino") as [vd| |]; [|done..]. cbn [ligar] in Hl.
  destruct (py_getitem a "peso") as [vp| |]; [|done..]. cbn [ligar] in Hl.
  destruct (py_float vp) as [q| |]; [|done..]. cbn [ligar] in Hl.
  injection Hl as <- <- <-. by rewrite !normalizar_idem.
Qed.

Section LemasCiegaCarga.
Import Ciega CiegaGrafo.

Lemma agregar_arista_float `{Python} g o d p :
  agregar_arista g o d (JFloat p) = (Valor true, con_arista g (o, d, p)).
Proof. done. Qed.

Lemma con_aristas_aristas l g : aristas (fold_left con_arista l g) = aristas g ++ l.
Proof.
  revert g. induction l as [|a l IH]; intros g; simpl.
  - by rewrite app_nil_r.
  - rewrite IH. simpl. by rewrite <- app_assoc.
Qed.

Lemma con_aristas_bien_formado l g :
  bien_formado g → bien_formado (fold_left con_arista l g).
Proof.
  revert g. induction l as [|[[o d] p] l IH]; intros g Hg; simpl; [done|].
  apply IH. by apply agregar_bien_formado.
Qed.

(** The [for] loop of the loader over records it gets past: the valid
    ones are added in order and counted, the others are reported with
    their 1-based position. *)
Lemma cargar_aristas_tolerables `{Python} l : ∀ i g n errs,
  Forall tolerable l →
  cargar_aristas i l g n errs =
    (Valor (n + length (validas l), errs ++ errores_desde i l),
     fold_left con_arista (validas l) g).
Proof.
  induction l as [|a l IH]; intros i g n errs Hl.
  - simpl. by rewrite Nat.add_0_r, app_nil_r.
  - apply Forall_cons in Hl as [Ha Hl]. unfold tolerable in Ha.
    cbn [cargar_aristas]. unfold validas. cbn [omap list_omap errores_desde].
    destruct (leer_arista a) as [[[o d] p]|e|]; [| |done].
    + rewrite agregar_arista_float. rewrite IH by done. cbn [length fold_left].
      fold (validas l). do 2 f_equal. f_equal. lia.
    + rewrite Ha. rewrite IH by done. fold (validas l).
      by rewrite <- app_assoc.
Qed.

Lemma leer_exportada `{Python} o d p :
  leer_arista (exportar_arista (o, d, p)) = Valor (normalizar o, normalizar d, p).
Proof. reflexivity. Qed.

Lemma validas_exportadas `{Python} l :
  Forall (λ a, normalizar a.1.1 = a.1.1 ∧ normalizar a.1.2 = a.1.2) l →
  Forall tolerable (exportar_arista <$> l) ∧
  validas (exportar_arista <$> l) = l ∧
  ∀ i, errores_desde i (exportar_arista <$> l) = [].
Proof.
  induction l as [|[[o d] p] l IH]; intros Hl.
  - split_and!; [constructor|done|done].
  - apply Forall_cons in Hl as [[Ho Hd] Hl]. simpl in Ho, Hd.
    destruct (IH Hl) as (Ht & Hv & He). split_and!.
    + rewrite fmap_cons. constructor; [|done]. unfold tolerable. by rewrite leer_exportada.
    + rewrite fmap_cons. unfold validas. cbn [omap list_omap]. rewrite leer_exportada.
      fold (validas (exportar_arista <$> l)). by rewrite Hv, Ho, Hd.
    + intros i. rewrite fmap_cons. cbn [errores_desde]. rewrite leer_exportada. apply He.
Qed.

End LemasCiegaCarga.

(** * The graph of the informed search *)

Section LemasInformadaGrafo.
Import Informada InformadaGrafo.

Lemma vacio_informado_bien_formado : bien_formado vacio.
Proof.
  split.
  - intros u. unfold adyacentes. simpl. by rewrite lookup_empty.
  - done.
Qed.

Lemma agregar_arista_informada_valor `{Python} g o d w p :
  py_float w = Valor p →
  agregar_arista g o d w =
    (Valor true,
     {| adyacencias := <[o := adyacentes g o ++ [(d, p)]]> (adyacencias g);
        aristas := aristas g ++ [(o, d, p)];
        nodos := {[d]} ∪ ({[o]} ∪ nodos g);
        posiciones_nodos := posiciones_nodos g |}).
Proof. intros Hw. unfold agregar_arista. by rewrite Hw. Qed.

Lemma agregar_informado_bien_formado g o d p :
  bien_formado g →
  bien_formado
    {| adyacencias := <[o := adyacentes g o ++ [(d, p)]]> (adyacencias g);
       aristas := aristas g ++ [(o, d, p)];
       nodos := {[d]} ∪ ({[o]} ∪ nodos g);
       posiciones_nodos := posiciones_nodos g |}.
Proof.
  intros [Ha Hn]. split.
  - intros u. unfold adyacentes at 1. cbn [adyacencias aristas].
    rewrite salientes_app. unfold salientes at 2. simpl.
    destruct (decide (o = u)) as [->|Hou].
    + rewrite lookup_insert_eq. simpl. by rewrite Ha.
    + rewrite lookup_insert_ne by done. rewrite app_nil_r. apply Ha.
  - cbn [aristas nodos]. rewrite extremos_app, Hn. simpl. set_solver.
Qed.

Lemma agregar_arista_informada_bien_formado `{Python} g o d w :
  bien_formado g → bien_formado (agregar_arista g o d w).2.
Proof.
  intros Hg. unfold agregar_arista.
  destruct (py_float w) as [p|e|]; simpl; [|by destruct e|done].
  by apply agregar_informado_bien_formado.
Qed.

Lemma arco_arista_informada g u v : bien_formado g → arco g u v ↔ arista_dirigida g u v.
Proof.
  intros [Ha _]. unfold arco, arista_dirigida, obtener_vecinos_con_peso.
  rewrite Ha. split; intros [p Hp]; exists p; by apply elem_of_salientes.
Qed.

Lemma bien_formado_informado_finito g :
  bien_formado g ↔
  nodos g = extremos (aristas g) ∧
  set_Forall (λ u, adyacentes g u = salientes u (aristas g))
    (dom (adyacencias g) ∪ extremos (aristas g)).
Proof.
  split.
  - intros [Ha Hn]. split; [done|]. intros u _. apply Ha.
  - intros [Hn Ha]. split; [|done]. intros u.
    destruct (decide (u ∈ dom (adyacencias g) ∪ extremos (aristas g))) as [Hu|Hu];
      [by apply Ha|].
    apply not_elem_of_union in Hu as [Hd He].
    rewrite salientes_ajeno by done. unfold adyacentes.
    apply not_elem_of_dom in Hd. by rewrite Hd.
Qed.

#[global] Instance bien_formado_informado_dec g : Decision (bien_formado g).
Proof.
  destruct (decide (nodos g = extremos (aristas g) ∧
                    set_Forall (λ u, adyacentes g u = salientes u (aristas g))
                      (dom (adyacencias g) ∪ extremos (aristas g)))) as [H|H].
  - left. by apply bien_formado_informado_finito.
  - right. intros Hg. by apply H, bien_formado_informado_finito.
Defined.

End LemasInformadaGrafo.

(** * Hill climbing: the loop *)

Section LemasInformadaHC.
Import Informada InformadaGrafo.
Context `{Python}.

Section Bucle.
Context (g : Grafo) (objetivo : string)
  (posiciones_canvas : option (gmap string (float * float))) (max_iteraciones : nat).

(** The neighbour chosen by the [for] loop is a neighbour and has not been
    visited. *)
Lemma evaluar_elige e (vecinos : list (string * float)) : ∀ l acc r,
  (∀ v w, acc.1.1 = Some (v, w) → (v, w) ∈ vecinos ∧ v ∉ visitados e) →
  (∀ x, x ∈ l → x ∈ vecinos) →
  evaluar_cada objetivo posiciones_canvas e l acc = Valor r →
  ∀ v w, r.1.1 = Some (v, w) → (v, w) ∈ vecinos ∧ v ∉ visitados e.
Proof.
  induction l as [|[v' w'] l IH]; intros acc r Hacc Hl Hr v w.
  - injection Hr as <-. by apply Hacc.
  - cbn [evaluar_cada] in Hr.
    destruct (evaluar objetivo posiciones_canvas e acc (v', w')) as [acc'| |] eqn:He;
      [|done..]. cbn [ligar] in Hr.
    eapply IH; [|intros x Hx; apply Hl; by right|exact Hr].
    destruct acc as [[mejor f] evals]. unfold evaluar in He.
    case_decide as Hv'; [by injection He as <-|].
    destruct (heuristica_de posiciones_canvas v' objetivo) as [h| |]; [|done..].
    cbn [ligar] in He. destruct (PrimFloat.ltb _ f); injection He as <-; [|done].
    simpl. intros ? ? [= <- <-]. split; [|done]. apply Hl. by left.
Qed.

Lemma evaluar_vecinos_elige e vecinos v w f evals :
  evaluar_vecinos objetivo posiciones_canvas e vecinos = Valor (Some (v, w), f, evals) →
  (v, w) ∈ vecinos ∧ v ∉ visitados e.
Proof.
  intros He. unfold evaluar_vecinos in He.
  by eapply (evaluar_elige e vecinos vecinos (None, infinity, []) _ ltac:(done) ltac:(done) He).
Qed.

(** A path returned is a path of the graph from [inicio] to [objetivo]
    without a repeated node; this holds for any fuel. *)
Lemma bucle_camino inicio fuel : ∀ e n pasos c ps,
  inv g inicio e →
  bucle fuel g objetivo posiciones_canvas max_iteraciones e n pasos = Valor (Some c, ps) →
  camino_entre (arco g) inicio objetivo c ∧ NoDup c.
Proof.
  induction fuel as [|fuel IH]; intros e n pasos c ps (Hc & Hnd & Hvis) Hb.
  - cbn [bucle] in Hb. case_decide as Hg; [done|].
    case_decide as Ho; [|done]. injection Hb as <- <-. by rewrite <- Ho.
  - cbn [bucle] in Hb. case_decide as Hg.
    + destruct (obtener_vecinos_con_peso g (nodo_actual e)) as [|vp vs] eqn:Hvs; [done|].
      destruct (evaluar_vecinos objetivo posiciones_canvas e (vp :: vs))
        as [[[[[v w]|] f] evals]| |] eqn:He; [|done..].
      apply evaluar_vecinos_elige in He as [Hin Hnv].
      eapply IH; [|exact Hb]. split_and!; cbn [nodo_actual camino visitados].
      * eapply camino_snoc; [done|]. exists w. by rewrite Hvs.
      * apply NoDup_app. split_and!; [done| |apply NoDup_singleton].
        intros x Hx ->%list_elem_of_singleton. by apply Hnv, Hvis.
      * intros x [Hx| ->%list_elem_of_singleton]%elem_of_app; [|set_solver].
        apply elem_of_union. right. by apply Hvis.
    + case_decide as Ho; [|done]. injection Hb as <- <-. by rewrite <- Ho.
Qed.

(** Leaving the [while] at the cap without having reached the goal. *)
Lemma bucle_limite fuel e n pasos :
  nodo_actual e ≠ objetivo → max_iteraciones ≤ n →
  bucle fuel g objetivo posiciones_canvas max_iteraciones e n pasos =
    Valor (None, pasos ++ [registro n MaximoIteraciones (Some (nodo_actual e)) e]).
Proof.
  intros Ho Hn. destruct fuel; cbn [bucle];
    (case_decide as Hg; [lia|]); by rewrite decide_False.
Qed.

(** More fuel does not change a result. *)
Lemma bucle_monotono fuel : ∀ fuel' e n pasos r,
  fuel ≤ fuel' →
  bucle fuel g objetivo posiciones_canvas max_iteraciones e n pasos = Valor r →
  bucle fuel' g objetivo posiciones_canvas max_iteraciones e n pasos = Valor r.
Proof.
  induction fuel as [|fuel IH]; intros fuel' e n pasos r Hle Hb.
  - cbn [bucle] in Hb. case_decide as Hg; [done|].
    destruct fuel'; cbn [bucle]; by rewrite decide_False.
  - destruct fuel' as [|fuel']; [lia|]. cbn [bucle] in *.
    case_decide as Hg; [|done].
    destruct (obtener_vecinos_con_peso g (nodo_actual e)) as [|vp vs]; [done|].
    destruct (evaluar_vecinos objetivo posiciones_canvas e (vp :: vs))
      as [[[[[v w]|] f] evals]| |]; [|done..].
    apply IH; [lia|done].
Qed.

End Bucle.

Lemma buscar_camino_monotono g inicio objetivo posiciones_canvas fuel fuel' r :
  fuel ≤ fuel' →
  buscar_camino fuel g inicio objetivo posiciones_canvas = Valor r →
  buscar_camino fuel' g inicio objetivo posiciones_canvas = Valor r.
Proof.
  intros Hle. unfold buscar_camino. case_decide; [done|]. by apply bucle_monotono.
Qed.

End LemasInformadaHC.

(** * The blind search returns a shortest path *)

(** C1. On a well-formed graph, for known [inicio] and [final] with
    [final] reachable from [inicio] (some path [l] joins them), the blind
    search returns a path from [inicio] to [final] whose number of edges
    is the least among all directed paths from [inicio] to [final]; any
    fuel above the number of nodes is enough. *)
Theorem bfs_camino_minimo (g : Ciega.Grafo) (inicio final : string) (fuel : nat)
    (l : list string) :
  CiegaGrafo.bien_formado g →
  inicio ∈ Ciega.nodos g → final ∈ Ciega.nodos g →
  camino_entre (CiegaGrafo.arista_dirigida g) inicio final l →
  size (Ciega.nodos g) < fuel →
  ∃ camino pasos,
    Ciega.buscar_camino fuel g inicio final = Valor (Some camino, pasos) ∧
    camino_entre (CiegaGrafo.arista_dirigida g) inicio final camino ∧
    ∀ l', camino_entre (CiegaGrafo.arista_dirigida g) inicio final l' →
          saltos camino ≤ saltos l'.
Proof.
  intros Hg Hi Hf Hl Hfuel.
  assert (∀ u v, CiegaGrafo.arista_dirigida g u v → CiegaGrafo.arco g u v) as Hab.
  { intros u v. by apply arco_arista. }
  assert (∀ u v, CiegaGrafo.arco g u v → CiegaGrafo.arista_dirigida g u v) as Hba.
  { intros u v. by apply arco_arista. }
  unfold Ciega.buscar_camino. rewrite decide_False by tauto.
  match goal with |- context [Ciega.bucle fuel fuel g inicio final ?e ?n ?ps] =>
    pose proof (bucle_correcto g inicio final
                  (λ u v, arco_en_nodos g u v Hg) fuel fuel e n ps
                  (λ _, 0) 0
                  (inv_inicial g inicio final
                     (λ u v, arco_en_nodos g u v Hg) Hi)) as Hb;
    destruct (Ciega.bucle fuel fuel g inicio final e n ps) as [[[c|] ps']|ex|]
  end.
  - destruct Hb as [Hc Hmin]. exists c, ps'. split_and!; [done| |].
    + by eapply camino_entre_mono.
    + intros l' Hl'. apply (camino_entre_mono _ _ _ _ _ Hab) in Hl'.
      apply camino_alcanza, Hmin in Hl'. unfold saltos in *. lia.
  - exfalso. apply (camino_entre_mono _ _ _ _ _ Hab) in Hl.
    apply camino_alcanza in Hl. by eapply Hb.
  - done.
  - exfalso. cbn [Ciega.visitados Ciega.cola] in Hb.
    rewrite size_singleton in Hb. simpl in Hb. lia.
Qed.

Lemma bfs_camino_minimo_testigo :
  ∃ camino pasos,
    Ciega.buscar_camino 4 grafo_ciego_abc "A" "C" = Valor (Some camino, pasos) ∧
    camino_entre (CiegaGrafo.arista_dirigida grafo_ciego_abc) "A" "C" camino ∧
    ∀ l', camino_entre (CiegaGrafo.arista_dirigida grafo_ciego_abc) "A" "C" l' →
          saltos camino ≤ saltos l'.
Proof.
  apply (bfs_camino_minimo grafo_ciego_abc "A" "C" 4 ["A"; "B"; "C"]).
  - por_calculo.
  - por_calculo.
  - por_calculo.
  - split_and!; [reflexivity|reflexivity|].
    split; [exists 1%float|split; [exists 1%float|exact I]]; por_calculo.
  - vm_compute. lia.
Defined.

(** * Unknown nodes *)



(** * Start equal to goal *)

(** C9. For a known node [s], both searches called with start and goal
    equal to [s] return the path [[s]]: the blind search after the three
    records of initialising, processing [s] and finding the goal, the
    informed search with only the initial record, whose cost is 0. *)
Theorem inicio_igual_a_meta `{Python} :
  (∀ (g : Ciega.Grafo) (s : string) (fuel : nat),
     s ∈ Ciega.nodos g →
     ∃ pasos, Ciega.buscar_camino (S fuel) g s s = Valor (Some [s], pasos) ∧
              length pasos = 3) ∧
  (∀ (g : Informada.Grafo) (s : string)
     (posiciones_canvas : option (gmap string (float * float))) (fuel : nat),
     s ∈ Informada.nodos g →
     ∃ pasos, Informada.buscar_camino fuel g s s posiciones_canvas = Valor (Some [s], pasos) ∧
              costo_final pasos = Some 0%float).
Proof.
  split.
  - intros g s fuel Hs. unfold Ciega.buscar_camino. rewrite decide_False by tauto.
    cbn [Ciega.bucle Ciega.cola]. rewrite decide_True by done.
    unfold Ciega._reconstruir_camino. cbn [Ciega.reconstruir Ciega.padre].
    rewrite lookup_singleton_eq. destruct fuel; cbn [Ciega.reconstruir ligar];
      eexists; split; reflexivity.
  - intros g s pos fuel Hs. unfold Informada.buscar_camino. rewrite decide_False by tauto.
    destruct fuel; cbn [Informada.bucle Informada.nodo_actual];
      (rewrite decide_False by tauto); rewrite decide_True by done;
      eexists; split; reflexivity.
Qed.

Lemma inicio_igual_a_meta_testigo :
  (∃ pasos, Ciega.buscar_camino 1 grafo_ciego_abc "B" "B" = Valor (Some ["B"], pasos) ∧
            length pasos = 3) ∧
  (∃ pasos, Informada.buscar_camino (H := python_ejemplo) 0 grafo_informado_abc "B" "B" None
              = Valor (Some ["B"], pasos) ∧
            costo_final pasos = Some 0%float).
Proof.
  split.
  - apply (proj1 (@inicio_igual_a_meta python_ejemplo)). por_calculo.
  - apply (proj2 (@inicio_igual_a_meta python_ejemplo)). por_calculo.
Defined.

(** * A path returned is a path of the graph *)

(** C10. On a well-formed graph, a path returned by either search starts
    at the start node, ends at the goal, and each pair of consecutive
    nodes is joined by a directed edge of the edge list; this holds for
    any fuel. *)
Theorem camino_devuelto_valido `{Python} :
  (∀ (g : Ciega.Grafo) (inicio final : string) (fuel : nat)
     (camino : list string) (pasos : list Ciega.entrada),
     CiegaGrafo.bien_formado g →
     Ciega.buscar_camino fuel g inicio final = Valor (Some camino, pasos) →
     camino_entre (CiegaGrafo.arista_dirigida g) inicio final camino) ∧
  (∀ (g : Informada.Grafo) (inicio objetivo : string)
     (posiciones_canvas : option (gmap string (float * float))) (fuel : nat)
     (camino : list string) (pasos : list Informada.paso_busqueda),
     InformadaGrafo.bien_formado g →
     Informada.buscar_camino fuel g inicio objetivo posiciones_canvas
       = Valor (Some camino, pasos) →
     camino_entre (InformadaGrafo.arista_dirigida g) inicio objetivo camino).
Proof.
  split.
  - intros g inicio final fuel camino pasos Hg Hb.
    unfold Ciega.buscar_camino in Hb. case_decide as Hn; [done|].
    assert (inicio ∈ Ciega.nodos g) as Hi.
    { destruct (decide (inicio ∈ Ciega.nodos g)); [done|]. exfalso. apply Hn. by left. }
    match type of Hb with Ciega.bucle fuel fuel g inicio final ?e ?n ?ps = _ =>
      pose proof (bucle_correcto g inicio final
                    (λ u v, arco_en_nodos g u v Hg) fuel fuel e n ps
                    (λ _, 0) 0
                    (inv_inicial g inicio final
                       (λ u v, arco_en_nodos g u v Hg) Hi)) as Hc
    end.
    rewrite Hb in Hc. destruct Hc as [Hc _].
    eapply camino_entre_mono; [|exact Hc]. intros u v. by apply arco_arista.
  - intros g inicio objetivo pos fuel camino pasos Hg Hb.
    unfold Informada.buscar_camino in Hb. case_decide as Hn; [done|].
    eapply bucle_camino in Hb as [Hc _].
    + eapply camino_entre_mono; [|exact Hc]. intros u v. by apply arco_arista_informada.
    + split_and!; cbn [Informada.camino Informada.nodo_actual Informada.visitados].
      * apply camino_un_nodo.
      * apply NoDup_singleton.
      * intros x ->%list_elem_of_singleton. set_solver.
Qed.

Lemma camino_devuelto_valido_testigo :
  camino_entre (CiegaGrafo.arista_dirigida grafo_ciego_abc) "A" "C" ["A"; "C"] ∧
  camino_entre (InformadaGrafo.arista_dirigida grafo_informado_abc) "A" "C" ["A"; "B"; "C"].
Proof.
  split.
  - eapply (proj1 (@camino_devuelto_valido python_ejemplo) grafo_ciego_abc "A" "C" 4).
    + por_calculo.
    + vm_compute. reflexivity.
  - eapply (proj2 (@camino_devuelto_valido python_ejemplo) grafo_informado_abc "A" "C" None 3).
    + por_calculo.
    + vm_compute. reflexivity.
Defined.

(** * The informed search never revisits a node *)

(** C8. Whatever the graph, the end nodes and the position map, a path
    returned by the informed search has no repeated node; this holds for
    any fuel. *)
Theorem camino_sin_repetidos `{Python} (g : Informada.Grafo) (inicio objetivo : string)
    (posiciones_canvas : option (gmap string (float * float))) (fuel : nat)
    (camino : list string) (pasos : list Informada.paso_busqueda) :
  Informada.buscar_camino fuel g inicio objetivo posiciones_canvas
    = Valor (Some camino, pasos) →
  NoDup camino.
Proof.
  intros Hb. unfold Informada.buscar_camino in Hb. case_decide as Hn; [done|].
  eapply bucle_camino in Hb as [_ Hnd]; [done|].
  split_and!; cbn [Informada.camino Informada.nodo_actual Informada.visitados].
  - apply camino_un_nodo.
  - apply NoDup_singleton.
  - intros x ->%list_elem_of_singleton. set_solver.
Qed.

Lemma camino_sin_repetidos_testigo : NoDup ["A"; "B"; "C"].
Proof.
  eapply (@camino_sin_repetidos python_ejemplo grafo_informado_abc "A" "C" None 3).
  vm_compute. reflexivity.
Defined.

(** * Scenario B *)

(** C2, as the code runs it.  On the graph A→B (1), B→C (1), A→C (5) with
    no position map, the informed search from A to C evaluates both
    neighbours of A, B with f = 1 + 0.01 and C with f = 5 + 0, moves to B,
    the lower of the two, then to C, and returns [A, B, C] with
    accumulated cost 2; any fuel from 2 on gives this result. *)
Theorem escenario_b_informada `{Python} (fuel : nat) :
  2 ≤ fuel →
  ∃ pasos,
    Informada.buscar_camino fuel grafo_informado_abc "A" "C" None
      = Valor (Some ["A"; "B"; "C"], pasos) ∧
    (Informada.evaluaciones <$> pasos !! 1) =
      Some (Some [ {| Informada.vecino := "B"; Informada.peso := 1%float;
                      Informada.heuristica := (1 / 100)%float;
                      Informada.valor_evaluacion := (1 + 1 / 100)%float |};
                   {| Informada.vecino := "C"; Informada.peso := 5%float;
                      Informada.heuristica := 0%float;
                      Informada.valor_evaluacion := 5%float |} ]) ∧
    (Informada.accion_paso <$> pasos !! 2) =
      Some (Informada.Moverse "B" (1 + 1 / 100)%float false) ∧
    costo_final pasos = Some 2%float.
Proof.
  intros Hfuel. eexists. split_and!.
  - apply (buscar_camino_monotono _ _ _ _ 2 fuel); [done|].
    vm_compute. reflexivity.
  - vm_compute. reflexivity.
  - vm_compute. reflexivity.
  - vm_compute. reflexivity.
Qed.

Lemma escenario_b_informada_testigo :
  ∃ pasos,
    Informada.buscar_camino (H := python_ejemplo) 3 grafo_informado_abc "A" "C" None
      = Valor (Some ["A"; "B"; "C"], pasos) ∧
    (Informada.evaluaciones <$> pasos !! 1) =
      Some (Some [ {| Informada.vecino := "B"; Informada.peso := 1%float;
                      Informada.heuristica := (1 / 100)%float;
                      Informada.valor_evaluacion := (1 + 1 / 100)%float |};
                   {| Informada.vecino := "C"; Informada.peso := 5%float;
                      Informada.heuristica := 0%float;
                      Informada.valor_evaluacion := 5%float |} ]) ∧
    (Informada.accion_paso <$> pasos !! 2) =
      Some (Informada.Moverse "B" (1 + 1 / 100)%float false) ∧
    costo_final pasos = Some 2%float.
Proof. apply (escenario_b_informada 3). lia. Defined.

(** The claim of scenario B fails on the code: the path returned is not
    [A, C] and the accumulated cost is not 5. *)
Lemma escenario_b_contraejemplo :
  ∃ camino pasos c,
    Informada.buscar_camino (H := python_ejemplo) 3 grafo_informado_abc "A" "C" None
      = Valor (Some camino, pasos) ∧
    bool_decide (camino = ["A"; "C"]) = false ∧
    costo_final pasos = Some c ∧
    PrimFloat.eqb c 5 = false.
Proof.
  eexists _, _, _. split_and!.
  - vm_compute. reflexivity.
  - vm_compute. reflexivity.
  - vm_compute. reflexivity.
  - vm_compute. reflexivity.
Qed.

(** * [agregar_arista] stores the endpoints it is given *)

(** C6, as the code runs it.  [agregar_arista] with a weight that converts
    to a float stores both endpoints exactly as received, in the edge
    list, in the adjacency list of the source and in the node set; it does
    not trim or change case.  The normalisation is done by the caller:
    every edge the bulk loader reads has the trimmed, upper-cased [str] of
    the record's fields as endpoints, which normalising again leaves
    unchanged. *)
Theorem agregar_arista_sin_normalizar `{Python} :
  (∀ (g : Ciega.Grafo) (origen destino : string) (peso : json) (p : float),
     py_float peso = Valor p →
     ∃ g', Ciega.agregar_arista g origen destino peso = (Valor true, g') ∧
           Ciega.aristas g' = Ciega.aristas g ++ [(origen, destino, p)] ∧
           Ciega.adyacentes g' origen = Ciega.adyacentes g origen ++ [(destino, p)] ∧
           Ciega.nodos g' = {[destino]} ∪ ({[origen]} ∪ Ciega.nodos g)) ∧
  (∀ (g : Informada.Grafo) (origen destino : string) (peso : json) (p : float),
     py_float peso = Valor p →
     ∃ g', Informada.agregar_arista g origen destino peso = (Valor true, g') ∧
           Informada.aristas g' = Informada.aristas g ++ [(origen, destino, p)] ∧
           Informada.adyacentes g' origen
             = Informada.adyacentes g origen ++ [(destino, p)] ∧
           Informada.nodos g' = {[destino]} ∪ ({[origen]} ∪ Informada.nodos g)) ∧
  (∀ (arista : json) (origen destino : string) (p : float),
     leer_arista arista = Valor (origen, destino, p) →
     (∃ vo vd, py_getitem arista "origen" = Valor vo ∧
               py_getitem arista "destino" = Valor vd ∧
               origen = normalizar (py_str vo) ∧ destino = normalizar (py_str vd)) ∧
     normalizar origen = origen ∧ normalizar destino = destino).
Proof.
  split_and!.
  - intros g o d w p Hw. eexists. split; [by apply agregar_arista_valor|].
    split_and!; [done| |done].
    unfold Ciega.adyacentes at 1. simpl. by rewrite lookup_insert_eq.
  - intros g o d w p Hw. eexists.
    split; [by apply agregar_arista_informada_valor|].
    split_and!; [done| |done].
    unfold Informada.adyacentes at 1. simpl. by rewrite lookup_insert_eq.
  - intros a o d p Hl. split; [|by eapply leer_arista_normaliza].
    unfold leer_arista in Hl.
    destruct (py_getitem a "origen") as [vo| |]; [|done..]. cbn [ligar] in Hl.
    destruct (py_getitem a "destino") as [vd| |]; [|done..]. cbn [ligar] in Hl.
    destruct (py_getitem a "peso") as [vp| |]; [|done..]. cbn [ligar] in Hl.
    destruct (py_float vp) as [q| |]; [|done..]. cbn [ligar] in Hl.
    injection Hl as <- <- <-. by exists vo, vd.
Qed.

Lemma agregar_arista_sin_normalizar_testigo :
  (∃ g', Ciega.agregar_arista (H := python_ejemplo) Ciega.vacio " a" "b " (JStr "7")
           = (Valor true, g') ∧
         Ciega.aristas g' = Ciega.aristas Ciega.vacio ++ [(" a", "b ", 7%float)] ∧
         Ciega.adyacentes g' " a" = Ciega.adyacentes Ciega.vacio " a" ++ [("b ", 7%float)] ∧
         Ciega.nodos g' = {["b "]} ∪ ({[" a"]} ∪ Ciega.nodos Ciega.vacio)) ∧
  (∃ g', Informada.agregar_arista (H := python_ejemplo) Informada.vacio " a" "b " (JStr "7")
           = (Valor true, g') ∧
         Informada.aristas g' = Informada.aristas Informada.vacio ++ [(" a", "b ", 7%float)] ∧
         Informada.adyacentes g' " a"
           = Informada.adyacentes Informada.vacio " a" ++ [("b ", 7%float)] ∧
         Informada.nodos g' = {["b "]} ∪ ({[" a"]} ∪ Informada.nodos Informada.vacio)) ∧
  ((∃ vo vd,
      py_getitem (JObj [("origen", JStr " a"); ("destino", JStr "b "); ("peso", JInt 7)])
        "origen" = Valor vo ∧
      py_getitem (JObj [("origen", JStr " a"); ("destino", JStr "b "); ("peso", JInt 7)])
        "destino" = Valor vd ∧
      "A" = normalizar (py_str (H := python_ejemplo) vo) ∧
      "B" = normalizar (py_str (H := python_ejemplo) vd)) ∧
   normalizar "A" = "A" ∧ normalizar "B" = "B").
Proof.
  pose proof (@agregar_arista_sin_normalizar python_ejemplo) as (Hc & Hi & Hl).
  split; [|split].
  - apply Hc. vm_compute. reflexivity.
  - apply Hi. vm_compute. reflexivity.
  - apply (Hl (JObj [("origen", JStr " a"); ("destino", JStr "b "); ("peso", JInt 7)])
              "A" "B" 7%float).
    vm_compute. reflexivity.
Defined.

(** The claim fails on the code: with endpoints [" a"] and ["b "] the edge
    stored keeps them as they are, and they differ from their normal
    forms ["A"] and ["B"], in both scripts. *)
Lemma agregar_arista_contraejemplo :
  Ciega.aristas
    (Ciega.agregar_arista (H := python_ejemplo) Ciega.vacio " a" "b " (JStr "7")).2
    = [(" a", "b ", 7%float)] ∧
  bool_decide (" a" ∈ Ciega.nodos
    (Ciega.agregar_arista (H := python_ejemplo) Ciega.vacio " a" "b " (JStr "7")).2)
    = true ∧
  bool_decide ("A" ∈ Ciega.nodos
    (Ciega.agregar_arista (H := python_ejemplo) Ciega.vacio " a" "b " (JStr "7")).2)
    = false ∧
  Informada.aristas
    (Informada.agregar_arista (H := python_ejemplo) Informada.vacio " a" "b " (JStr "7")).2
    = [(" a", "b ", 7%float)] ∧
  (normalizar " a", normalizar "b ") = ("A", "B") ∧
  bool_decide ((" a", "b ") = (normalizar " a", normalizar "b ")) = false.
Proof. split_and!; vm_compute; reflexivity. Qed.

(** * Export, then load *)

(** C7, as the code runs it.  For a well-formed graph of the blind-search
    script whose node labels are already in normal form (trimmed and
    upper-cased, as the loader and the edge form leave them), loading the
    export into any graph succeeds with every edge counted and no error,
    and yields the same edge list in the same order, the same node set and
    the same adjacency lists. *)
Theorem exportar_y_cargar `{Python} (g g0 : Ciega.Grafo) :
  CiegaGrafo.bien_formado g →
  set_Forall (λ n, normalizar n = n) (Ciega.nodos g) →
  ∃ g', Ciega.cargar_desde_json g0 (Ciega.exportar_a_json g)
          = (Valor (length (Ciega.aristas g), []), g') ∧
        Ciega.aristas g' = Ciega.aristas g ∧
        Ciega.nodos g' = Ciega.nodos g ∧
        ∀ u, Ciega.adyacentes g' u = Ciega.adyacentes g u.
Proof.
  intros Hg Hn.
  assert (Forall (λ a, normalizar a.1.1 = a.1.1 ∧ normalizar a.1.2 = a.1.2)
            (Ciega.aristas g)) as Hl.
  { apply Forall_forall. intros [[o d] p] Hin. simpl.
    split; apply Hn; rewrite (CiegaGrafo.bf_nodos g Hg); apply elem_of_extremos;
      exists o, d, p; auto. }
  destruct (validas_exportadas _ Hl) as (Ht & Hv & He).
  exists (fold_left CiegaGrafo.con_arista (Ciega.aristas g) Ciega.vacio).
  assert (CiegaGrafo.bien_formado
            (fold_left CiegaGrafo.con_arista (Ciega.aristas g) Ciega.vacio)) as Hg'.
  { apply con_aristas_bien_formado, vacio_bien_formado. }
  assert (Ciega.aristas (fold_left CiegaGrafo.con_arista (Ciega.aristas g) Ciega.vacio)
          = Ciega.aristas g) as Ha.
  { by rewrite con_aristas_aristas. }
  split_and!.
  - unfold Ciega.cargar_desde_json, Ciega.exportar_a_json.
    change (buscar_clave "aristas" _) with
      (Some (JArr (Ciega.exportar_arista <$> Ciega.aristas g))).
    cbn [iterar]. rewrite cargar_aristas_tolerables by done.
    rewrite Hv, He. done.
  - done.
  - by rewrite (CiegaGrafo.bf_nodos _ Hg'), Ha, (CiegaGrafo.bf_nodos g Hg).
  - intros u. by rewrite (CiegaGrafo.bf_adyacentes _ Hg'), Ha, (CiegaGrafo.bf_adyacentes g Hg).
Qed.

Lemma exportar_y_cargar_testigo :
  ∃ g', Ciega.cargar_desde_json (H := python_ejemplo) Ciega.vacio
          (Ciega.exportar_a_json grafo_ciego_abc)
          = (Valor (length (Ciega.aristas grafo_ciego_abc), []), g') ∧
        Ciega.aristas g' = Ciega.aristas grafo_ciego_abc ∧
        Ciega.nodos g' = Ciega.nodos grafo_ciego_abc ∧
        ∀ u, Ciega.adyacentes g' u = Ciega.adyacentes grafo_ciego_abc u.
Proof.
  apply (@exportar_y_cargar python_ejemplo grafo_ciego_abc Ciega.vacio).
  - por_calculo.
  - por_calculo.
Defined.

(** The claim fails on the code: loading the export of the graph with the
    edge a→b succeeds and yields the edge A→B, not the edge of the
    original. *)
Lemma exportar_y_cargar_contraejemplo :
  ∃ g', Ciega.cargar_desde_json (H := python_ejemplo) Ciega.vacio
          (Ciega.exportar_a_json grafo_minusculas) = (Valor (1, []), g') ∧
        Ciega.aristas grafo_minusculas = [("a", "b", 1%float)] ∧
        Ciega.aristas g' = [("A", "B", 1%float)] ∧
        bool_decide (Ciega.aristas g' = Ciega.aristas grafo_minusculas) = false ∧
        bool_decide (Ciega.nodos g' = Ciega.nodos grafo_minusculas) = false.
Proof.
  eexists. split; [vm_compute; reflexivity|]. split_and!; vm_compute; reflexivity.
Qed.

(** * The bulk loader, record by record *)

Section LemasInformadaCarga.
Import Informada InformadaGrafo.

Lemma con_aristas_aristas_informada l g :
  aristas (fold_left con_arista l g) = aristas g ++ l.
Proof.
  revert g. induction l as [|a l IH]; intros g; simpl.
  - by rewrite app_nil_r.
  - rewrite IH. simpl. by rewrite <- app_assoc.
Qed.

Lemma agregar_arista_float_informada `{Python} g o d p :
  agregar_arista g o d (JFloat p) = (Valor true, con_arista g (o, d, p)).
Proof. done. Qed.

Lemma cargar_aristas_tolerables_informada `{Python} l : ∀ i g n errs,
  Forall tolerable l →
  cargar_aristas i l g n errs =
    (Valor (n + length (validas l), errs ++ errores_desde i l),
     fold_left con_arista (validas l) g).
Proof.
  induction l as [|a l IH]; intros i g n errs Hl.
  - simpl. by rewrite Nat.add_0_r, app_nil_r.
  - apply Forall_cons in Hl as [Ha Hl]. unfold tolerable in Ha.
    cbn [cargar_aristas]. unfold validas. cbn [omap list_omap errores_desde].
    destruct (leer_arista a) as [[[o d] p]|e|]; [| |done].
    + rewrite agregar_arista_float_informada. rewrite IH by done. cbn [length fold_left].
      fold (validas l). do 2 f_equal. f_equal. lia.
    + rewrite Ha. rewrite IH by done. fold (validas l).
      by rewrite <- app_assoc.
Qed.

End LemasInformadaCarga.

(** C5, where the code departs from it.  A record whose weight is an
    integer too large for a float raises [OverflowError], which the inner
    handler does not name: the whole load is rejected with [ValueError],
    with the key [aristas] present and the other records well formed.
    Only the edge read before it is in the graph, in both scripts. *)
Lemma carga_desbordamiento :
  (Ciega.cargar_desde_json (H := python_ejemplo) Ciega.vacio datos_desbordados).1
    = Excepcion ValueError ∧
  Ciega.aristas
    (Ciega.cargar_desde_json (H := python_ejemplo) Ciega.vacio datos_desbordados).2
    = [("A", "B", 1%float)] ∧
  (Informada.cargar_desde_json (H := python_ejemplo) Informada.vacio datos_desbordados).1
    = Excepcion ValueError ∧
  Informada.aristas
    (Informada.cargar_desde_json (H := python_ejemplo) Informada.vacio datos_desbordados).2
    = [("A", "B", 1%float)].
Proof. split_and!; vm_compute; reflexivity. Qed.

(** X1. Without the key [aristas], or on a value that is not a dictionary,
    both loaders reject the load with [ValueError] and leave the graph
    empty. *)
Theorem carga_sin_aristas `{Python} (datos_json : json) :
  (∀ kvs, datos_json = JObj kvs → buscar_clave "aristas" kvs = None) →
  (∀ g, Ciega.cargar_desde_json g datos_json = (Excepcion ValueError, Ciega.vacio)) ∧
  (∀ g, Informada.cargar_desde_json g datos_json = (Excepcion ValueError, Informada.vacio)).
Proof.
  intros Hk. split; intros g;
    unfold Ciega.cargar_desde_json, Informada.cargar_desde_json;
    destruct datos_json as [| | | | | |kvs]; try done; by rewrite (Hk kvs eq_refl).
Qed.

Lemma carga_sin_aristas_testigo :
  (∀ g, Ciega.cargar_desde_json (H := python_ejemplo) g (JObj [("nodos", JArr [JStr "A"])])
        = (Excepcion ValueError, Ciega.vacio)) ∧
  (∀ g, Informada.cargar_desde_json (H := python_ejemplo) g (JObj [("nodos", JArr [JStr "A"])])
        = (Excepcion ValueError, Informada.vacio)).
Proof.
  apply (@carga_sin_aristas python_ejemplo (JObj [("nodos", JArr [JStr "A"])])).
  intros kvs [= <-]. reflexivity.
Defined.

(** X2. With the key [aristas] bound to a list of records each of which
    reads well or raises one of [KeyError], [ValueError], [TypeError], the
    loader of the blind-search script returns the number of records that
    read well and, for each of the others, an error with its 1-based
    position; the graph holds the records that read well, in order, with
    normalised endpoints. *)
Theorem carga_registro_a_registro `{Python} (g : Ciega.Grafo)
    (kvs : list (string * json)) (l : list json) :
  buscar_clave "aristas" kvs = Some (JArr l) →
  Forall tolerable l →
  ∃ g', Ciega.cargar_desde_json g (JObj kvs)
          = (Valor (length (validas l), errores_desde 0 l), g') ∧
        Ciega.aristas g' = validas l ∧
        CiegaGrafo.bien_formado g'.
Proof.
  intros Hk Hl. exists (fold_left CiegaGrafo.con_arista (validas l) Ciega.vacio).
  split_and!.
  - unfold Ciega.cargar_desde_json. rewrite Hk. cbn [iterar].
    by rewrite cargar_aristas_tolerables.
  - by rewrite con_aristas_aristas.
  - apply con_aristas_bien_formado, vacio_bien_formado.
Qed.

Lemma carga_registro_a_registro_testigo :
  ∃ g', Ciega.cargar_desde_json (H := python_ejemplo) Ciega.vacio datos_escenario_d
          = (Valor (3, [{| indice := 2; motivo := FormatoInvalido KeyError |}]), g') ∧
        Ciega.aristas g' = [("A", "B", 1%float); ("B", "C", 2%float); ("A", "C", 5%float)] ∧
        CiegaGrafo.bien_formado g'.
Proof.
  apply (@carga_registro_a_registro python_ejemplo Ciega.vacio
           [("nodos", JArr [JStr "A"; JStr "B"; JStr "C"]);
            ("aristas",
             JArr [registro_arista "a" " b" (JInt 1);
                   JObj [("origen", JStr "B"); ("destino", JStr "C")];
                   registro_arista "B" "C" (JStr "2");
                   registro_arista "A" "C" (JFloat 5)])]
           [registro_arista "a" " b" (JInt 1);
            JObj [("origen", JStr "B"); ("destino", JStr "C")];
            registro_arista "B" "C" (JStr "2");
            registro_arista "A" "C" (JFloat 5)]).
  - reflexivity.
  - repeat constructor.
Defined.

(** X3. The same for the loader of the informed-search script, on an input
    without the key [posiciones]. *)
Theorem carga_registro_a_registro_informada `{Python} (g : Informada.Grafo)
    (kvs : list (string * json)) (l : list json) :
  buscar_clave "aristas" kvs = Some (JArr l) →
  buscar_clave "posiciones" kvs = None →
  Forall tolerable l →
  ∃ g', Informada.cargar_desde_json g (JObj kvs)
          = (Valor (length (validas l), errores_desde 0 l), g') ∧
        Informada.aristas g' = validas l.
Proof.
  intros Hk Hp Hl.
  exists (fold_left InformadaGrafo.con_arista (validas l) Informada.vacio).
  split.
  - unfold Informada.cargar_desde_json. rewrite Hk. cbn [iterar].
    rewrite cargar_aristas_tolerables_informada by done.
    by rewrite Hp.
  - by rewrite con_aristas_aristas_informada.
Qed.

Lemma carga_registro_a_registro_informada_testigo :
  ∃ g', Informada.cargar_desde_json (H := python_ejemplo) Informada.vacio datos_escenario_d
          = (Valor (3, [{| indice := 2; motivo := FormatoInvalido KeyError |}]), g') ∧
        Informada.aristas g'
          = [("A", "B", 1%float); ("B", "C", 2%float); ("A", "C", 5%float)].
Proof.
  apply (@carga_registro_a_registro_informada python_ejemplo Informada.vacio
           [("nodos", JArr [JStr "A"; JStr "B"; JStr "C"]);
            ("aristas",
             JArr [registro_arista "a" " b" (JInt 1);
                   JObj [("origen", JStr "B"); ("destino", JStr "C")];
                   registro_arista "B" "C" (JStr "2");
                   registro_arista "A" "C" (JFloat 5)])]
           [registro_arista "a" " b" (JInt 1);
            JObj [("origen", JStr "B"); ("destino", JStr "C")];
            registro_arista "B" "C" (JStr "2");
            registro_arista "A" "C" (JFloat 5)]).
  - reflexivity.
  - reflexivity.
  - repeat constructor.
Defined.

(** * The iteration cap of the informed search is never the cause *)

Lemma bucle_sin_limite `{Python} (g : Informada.Grafo) (objetivo : string)
    (posiciones_canvas : option (gmap string (float * float))) (fuel : nat) :
  InformadaGrafo.bien_formado g →
  ∀ e n pasos r ps,
  Informada.visitados e ⊆ Informada.nodos g →
  n + 1 = 2 * size (Informada.visitados e) →
  Forall (λ p, Informada.accion_paso p ≠ Informada.MaximoIteraciones) pasos →
  Informada.bucle fuel g objetivo posiciones_canvas (size (Informada.nodos g) * 2) e n pasos
    = Valor (r, ps) →
  Forall (λ p, Informada.accion_paso p ≠ Informada.MaximoIteraciones) ps.
Proof.
  intros Hg. induction fuel as [|fuel IH]; intros e n pasos r ps Hsub Hn Hps Hb.
  - cbn [Informada.bucle] in Hb. case_decide as Hgd; [done|].
    case_decide as Ho; [by injection Hb as <- <-|].
    exfalso. apply Hgd. split; [done|].
    pose proof (subseteq_size _ _ Hsub). lia.
  - cbn [Informada.bucle] in Hb. case_decide as Hgd.
    + destruct (Informada.obtener_vecinos_con_peso g (Informada.nodo_actual e))
        as [|vp vs] eqn:Hvs.
      { injection Hb as <- <-. apply Forall_app. split; [done|]. by repeat constructor. }
      destruct (Informada.evaluar_vecinos objetivo posiciones_canvas e (vp :: vs))
        as [[[[[v w]|] f] evals]| |] eqn:He; [| |done..].
      * apply evaluar_vecinos_elige in He as [Hin Hnv].
        eapply IH; [| | |exact Hb]; cbn [Informada.visitados].
        -- apply union_subseteq. split; [|done]. apply singleton_subseteq_l.
           rewrite (InformadaGrafo.bf_nodos g Hg). apply elem_of_extremos.
           exists (Informada.nodo_actual e), v, w. split; [|by right].
           apply elem_of_salientes. rewrite <- (InformadaGrafo.bf_adyacentes g Hg).
           unfold Informada.obtener_vecinos_con_peso in Hvs. by rewrite Hvs.
        -- rewrite size_union by set_solver. rewrite size_singleton. lia.
        -- repeat (apply Forall_app; split); [done| |]; by repeat constructor.
      * injection Hb as <- <-.
        repeat (apply Forall_app; split); [done| |]; by repeat constructor.
    + case_decide as Ho; [by injection Hb as <- <-|].
      exfalso. apply Hgd. split; [done|].
      pose proof (subseteq_size _ _ Hsub). lia.
Qed.

(** X4. On a well-formed graph the informed search never reports the
    iteration limit: each turn of the loop visits a new node, so the step
    counter stays below [2 * |nodos|] and the search ends at the goal or
    at a node without an unvisited neighbour. *)
Theorem limite_nunca_alcanzado `{Python} (g : Informada.Grafo) (inicio objetivo : string)
    (posiciones_canvas : option (gmap string (float * float))) (fuel : nat)
    (r : option (list string)) (pasos : list Informada.paso_busqueda) :
  InformadaGrafo.bien_formado g →
  Informada.buscar_camino fuel g inicio objetivo posiciones_canvas = Valor (r, pasos) →
  Forall (λ p, Informada.accion_paso p ≠ Informada.MaximoIteraciones) pasos.
Proof.
  intros Hg Hb. unfold Informada.buscar_camino in Hb. case_decide as Hn.
  - injection Hb as <- <-. by repeat constructor.
  - eapply bucle_sin_limite; [done| | | |exact Hb]; cbn [Informada.visitados].
    + apply singleton_subseteq_l.
      destruct (decide (inicio ∈ Informada.nodos g)); [done|]. exfalso. apply Hn. by left.
    + by rewrite size_singleton.
    + by repeat constructor.
Qed.

Lemma limite_nunca_alcanzado_testigo :
  Forall (λ p, Informada.accion_paso p ≠ Informada.MaximoIteraciones)
    [Informada.registro 0 (Informada.Iniciar "C") (Some "C")
       {| Informada.nodo_actual := "C"; Informada.camino := ["C"];
          Informada.costo_total := 0%float; Informada.visitados := {["C"]} |};
     Informada.registro 1 (Informada.SinVecinos "C") (Some "C")
       {| Informada.nodo_actual := "C"; Informada.camino := ["C"];
          Informada.costo_total := 0%float; Informada.visitados := {["C"]} |}].
Proof.
  eapply (@limite_nunca_alcanzado python_ejemplo grafo_informado_abc "C" "A" None 3 None).
  - por_calculo.
  - reflexivity.
Defined.

(** * The blind search always ends *)

(** X5. On a well-formed graph with known end nodes the blind search
    returns for any fuel above the number of nodes, and it returns no path
    exactly when no directed path joins [inicio] to [final]. *)
Theorem bfs_termina (g : Ciega.Grafo) (inicio final : string) (fuel : nat) :
  CiegaGrafo.bien_formado g →
  inicio ∈ Ciega.nodos g → final ∈ Ciega.nodos g →
  size (Ciega.nodos g) < fuel →
  ∃ r pasos,
    Ciega.buscar_camino fuel g inicio final = Valor (r, pasos) ∧
    (r = None ↔ ∀ l, ¬ camino_entre (CiegaGrafo.arista_dirigida g) inicio final l).
Proof.
  intros Hg Hi Hf Hfuel.
  assert (∀ u v, CiegaGrafo.arista_dirigida g u v → CiegaGrafo.arco g u v) as Hab.
  { intros u v. by apply arco_arista. }
  assert (∀ u v, CiegaGrafo.arco g u v → CiegaGrafo.arista_dirigida g u v) as Hba.
  { intros u v. by apply arco_arista. }
  unfold Ciega.buscar_camino. rewrite decide_False by tauto.
  match goal with |- context [Ciega.bucle fuel fuel g inicio final ?e ?n ?ps] =>
    pose proof (bucle_correcto g inicio final
                  (λ u v, arco_en_nodos g u v Hg) fuel fuel e n ps
                  (λ _, 0) 0
                  (inv_inicial g inicio final
                     (λ u v, arco_en_nodos g u v Hg) Hi)) as Hb;
    destruct (Ciega.bucle fuel fuel g inicio final e n ps) as [[[c|] ps']|ex|]
  end.
  - destruct Hb as [Hc _]. exists (Some c), ps'. split; [done|]. split; [done|].
    intros Hno. exfalso. apply (Hno c). by eapply camino_entre_mono.
  - exists None, ps'. split; [done|]. split; [|done].
    intros _ l Hl. apply (camino_entre_mono _ _ _ _ _ Hab) in Hl.
    apply camino_alcanza in Hl. by eapply Hb.
  - done.
  - exfalso. cbn [Ciega.visitados Ciega.cola] in Hb.
    rewrite size_singleton in Hb. simpl in Hb. lia.
Qed.

Lemma bfs_termina_testigo :
  ∃ r pasos,
    Ciega.buscar_camino 4 grafo_ciego_abc "C" "A" = Valor (r, pasos) ∧
    (r = None ↔
     ∀ l, ¬ camino_entre (CiegaGrafo.arista_dirigida grafo_ciego_abc) "C" "A" l).
Proof.
  apply (bfs_termina grafo_ciego_abc "C" "A" 4).
  - por_calculo.
  - por_calculo.
  - por_calculo.
  - vm_compute. lia.
Defined.

(** * Queries on the graph *)

Section LemasConsultas.

Lemma primer_peso_ciega_primero d l :
  match Ciega.primer_peso d l with
  | Some p => ∃ l1 l2, l = l1 ++ (d, p) :: l2 ∧ ∀ q, (d, q) ∉ l1
  | None => ∀ q, (d, q) ∉ l
  end.
Proof.
  induction l as [|[d' p'] l IH]; simpl.
  - intros q Hq. by apply elem_of_nil in Hq.
  - case_decide as Hd.
    + subst. exists [], l. split; [done|]. intros q Hq. by apply elem_of_nil in Hq.
    + destruct (Ciega.primer_peso d l) as [p|].
      * destruct IH as (l1 & l2 & -> & Hl1). exists ((d', p') :: l1), l2.
        split; [done|]. intros q [[= ? ?]|Hq]%elem_of_cons; [done|]. by eapply Hl1.
      * intros q [[= ? ?]|Hq]%elem_of_cons; [done|]. by eapply IH.
Qed.

Lemma primer_peso_informada_primero d l :
  match Informada.primer_peso d l with
  | Some p => ∃ l1 l2, l = l1 ++ (d, p) :: l2 ∧ ∀ q, (d, q) ∉ l1
  | None => ∀ q, (d, q) ∉ l
  end.
Proof.
  induction l as [|[d' p'] l IH]; simpl.
  - intros q Hq. by apply elem_of_nil in Hq.
  - case_decide as Hd.
    + subst. exists [], l. split; [done|]. intros q Hq. by apply elem_of_nil in Hq.
    + destruct (Informada.primer_peso d l) as [p|].
      * destruct IH as (l1 & l2 & -> & Hl1). exists ((d', p') :: l1), l2.
        split; [done|]. intros q [[= ? ?]|Hq]%elem_of_cons; [done|]. by eapply Hl1.
      * intros q [[= ? ?]|Hq]%elem_of_cons; [done|]. by eapply IH.
Qed.

(** An occurrence in [salientes u l] that is the first for its target comes
    from the first edge of [l] from [u] to that target. *)
Lemma salientes_primero u d p l s1 s2 :
  salientes u l = s1 ++ (d, p) :: s2 → (∀ q, (d, q) ∉ s1) →
  ∃ l1 l2, l = l1 ++ (u, d, p) :: l2 ∧ ∀ q, (u, d, q) ∉ l1.
Proof.
  revert s1. induction l as [|[[o d'] p'] l IH]; intros s1 Hs Hs1.
  - by destruct s1.
  - unfold salientes in Hs. cbn [omap list_omap] in Hs. simpl in Hs.
    fold (salientes u l) in Hs. case_decide as Ho.
    + subst o. destruct s1 as [|[d1 p1] s1]; simpl in Hs.
      * injection Hs as -> -> Hs. exists [], l. split; [done|].
        intros q Hq. by apply elem_of_nil in Hq.
      * injection Hs as -> -> Hs.
        destruct (IH s1 Hs) as (l1 & l2 & -> & Hl1).
        { intros q Hq. apply (Hs1 q). by right. }
        exists ((u, d1, p1) :: l1), l2. split; [done|].
        intros q [[= -> ->]|Hq]%elem_of_cons; [|by eapply Hl1].
        apply (Hs1 p1). by left.
    + destruct (IH s1 Hs Hs1) as (l1 & l2 & -> & Hl1).
      exists ((o, d', p') :: l1), l2. split; [done|].
      intros q [[= ? ? ?]|Hq]%elem_of_cons; [done|]. by eapply Hl1.
Qed.

End LemasConsultas.

(** X6. On a well-formed graph of the blind-search script the two queries
    read the edge list: [obtener_vecinos] returns the targets of the edges
    that leave the node, in insertion order and with repetitions for
    parallel edges, and nothing for a node that is not in the graph;
    [obtener_peso] returns the weight of the first edge from [origen] to
    [destino] in insertion order, and [None] exactly when there is no such
    edge. *)
Theorem consultas_del_grafo (g : Ciega.Grafo) :
  CiegaGrafo.bien_formado g →
  (∀ u, Ciega.obtener_vecinos g u = (salientes u (Ciega.aristas g)).*1) ∧
  (∀ u, u ∉ Ciega.nodos g → Ciega.obtener_vecinos g u = []) ∧
  (∀ o d, Ciega.obtener_peso g o d = None ↔ ¬ CiegaGrafo.arista_dirigida g o d) ∧
  (∀ o d p, Ciega.obtener_peso g o d = Some p →
     ∃ l1 l2, Ciega.aristas g = l1 ++ (o, d, p) :: l2 ∧ ∀ q, (o, d, q) ∉ l1).
Proof.
  intros Hg. pose proof (CiegaGrafo.bf_adyacentes g Hg) as Ha. split_and!.
  - intros u. unfold Ciega.obtener_vecinos. by rewrite Ha.
  - intros u Hu. unfold Ciega.obtener_vecinos. rewrite Ha, salientes_ajeno; [done|].
    by rewrite <- (CiegaGrafo.bf_nodos g Hg).
  - intros o d. unfold Ciega.obtener_peso, CiegaGrafo.arista_dirigida. rewrite Ha.
    pose proof (primer_peso_ciega_primero d (salientes o (Ciega.aristas g))) as Hp.
    destruct (Ciega.primer_peso d (salientes o (Ciega.aristas g))) as [p|].
    + destruct Hp as (l1 & l2 & Hl & _). split; [done|]. intros Hno. exfalso.
      apply Hno. exists p. apply elem_of_salientes. rewrite Hl.
      apply elem_of_app. right. by left.
    + split; [|done]. intros _ [q Hq]. apply (Hp q). by apply elem_of_salientes.
  - intros o d p. unfold Ciega.obtener_peso. rewrite Ha. intros Hp.
    pose proof (primer_peso_ciega_primero d (salientes o (Ciega.aristas g))) as Hpp.
    rewrite Hp in Hpp. destruct Hpp as (s1 & s2 & Hs & Hs1).
    by eapply salientes_primero.
Qed.

Lemma consultas_del_grafo_testigo :
  (∀ u, Ciega.obtener_vecinos grafo_ciego_abc u
        = (salientes u (Ciega.aristas grafo_ciego_abc)).*1) ∧
  (∀ u, u ∉ Ciega.nodos grafo_ciego_abc → Ciega.obtener_vecinos grafo_ciego_abc u = []) ∧
  (∀ o d, Ciega.obtener_peso grafo_ciego_abc o d = None
          ↔ ¬ CiegaGrafo.arista_dirigida grafo_ciego_abc o d) ∧
  (∀ o d p, Ciega.obtener_peso grafo_ciego_abc o d = Some p →
     ∃ l1 l2, Ciega.aristas grafo_ciego_abc = l1 ++ (o, d, p) :: l2 ∧
              ∀ q, (o, d, q) ∉ l1).
Proof. apply (consultas_del_grafo grafo_ciego_abc). por_calculo. Defined.

(** X7. The same for the informed-search script:
    [obtener_vecinos_con_peso] returns the (target, weight) pairs of the
    edges that leave the node in insertion order, nothing for a node that
    is not in the graph, and [obtener_peso] reads the first edge from
    [origen] to [destino]. *)
Theorem consultas_del_grafo_informado (g : Informada.Grafo) :
  InformadaGrafo.bien_formado g →
  (∀ u, Informada.obtener_vecinos_con_peso g u = salientes u (Informada.aristas g)) ∧
  (∀ u, u ∉ Informada.nodos g → Informada.obtener_vecinos_con_peso g u = []) ∧
  (∀ o d, Informada.obtener_peso g o d = None ↔ ¬ InformadaGrafo.arista_dirigida g o d) ∧
  (∀ o d p, Informada.obtener_peso g o d = Some p →
     ∃ l1 l2, Informada.aristas g = l1 ++ (o, d, p) :: l2 ∧ ∀ q, (o, d, q) ∉ l1).
Proof.
  intros Hg. pose proof (InformadaGrafo.bf_adyacentes g Hg) as Ha. split_and!.
  - intros u. unfold Informada.obtener_vecinos_con_peso. by rewrite Ha.
  - intros u Hu. unfold Informada.obtener_vecinos_con_peso.
    rewrite Ha, salientes_ajeno; [done|]. by rewrite <- (InformadaGrafo.bf_nodos g Hg).
  - intros o d. unfold Informada.obtener_peso, InformadaGrafo.arista_dirigida. rewrite Ha.
    pose proof (primer_peso_informada_primero d (salientes o (Informada.aristas g))) as Hp.
    destruct (Informada.primer_peso d (salientes o (Informada.aristas g))) as [p|].
    + destruct Hp as (l1 & l2 & Hl & _). split; [done|]. intros Hno. exfalso.
      apply Hno. exists p. apply elem_of_salientes. rewrite Hl.
      apply elem_of_app. right. by left.
    + split; [|done]. intros _ [q Hq]. apply (Hp q). by apply elem_of_salientes.
  - intros o d p. unfold Informada.obtener_peso. rewrite Ha. intros Hp.
    pose proof (primer_peso_informada_primero d (salientes o (Informada.aristas g))) as Hpp.
    rewrite Hp in Hpp. destruct Hpp as (s1 & s2 & Hs & Hs1).
    by eapply salientes_primero.
Qed.

Lemma consultas_del_grafo_informado_testigo :
  (∀ u, Informada.obtener_vecinos_con_peso grafo_informado_abc u
        = salientes u (Informada.aristas grafo_informado_abc)) ∧
  (∀ u, u ∉ Informada.nodos grafo_informado_abc →
        Informada.obtener_vecinos_con_peso grafo_informado_abc u = []) ∧
  (∀ o d, Informada.obtener_peso grafo_informado_abc o d = None
          ↔ ¬ InformadaGrafo.arista_dirigida grafo_informado_abc o d) ∧
  (∀ o d p, Informada.obtener_peso grafo_informado_abc o d = Some p →
     ∃ l1 l2, Informada.aristas grafo_informado_abc = l1 ++ (o, d, p) :: l2 ∧
              ∀ q, (o, d, q) ∉ l1).
Proof. apply (consultas_del_grafo_informado grafo_informado_abc). por_calculo. Defined.

(** * What every operation keeps *)

Section LemasOperacionesCiega.
Import Ciega CiegaGrafo InterfazCiega.
Context `{Python}.

Lemma cargar_aristas_bien_formado l : ∀ i g n errs,
  bien_formado g → bien_formado (cargar_aristas i l g n errs).2.
Proof.
  induction l as [|a l IH]; intros i g n errs Hg; [done|].
  cbn [cargar_aristas].
  destruct (leer_arista a) as [[[o d] p]|e|]; [| |done].
  - pose proof (agregar_arista_bien_formado g o d (JFloat p) Hg) as Hg'.
    destruct (agregar_arista g o d (JFloat p)) as [[[]|e|] g']; simpl in Hg';
      [by apply IH|by apply IH| |done].
    destruct (atrapada e); [by apply IH|done].
  - destruct (atrapada e); [by apply IH|done].
Qed.

Lemma agregar_normalizado g o d w :
  normalizado g → normalizar o = o → normalizar d = d →
  normalizado (agregar_arista g o d w).2.
Proof.
  intros Hg Ho Hd. unfold agregar_arista.
  destruct (py_float w) as [p|e|]; simpl; [|by destruct e|done].
  unfold normalizado. cbn [aristas]. apply Forall_app. split; [done|].
  by repeat constructor.
Qed.

Lemma cargar_aristas_normalizado l : ∀ i g n errs,
  normalizado g → normalizado (cargar_aristas i l g n errs).2.
Proof.
  induction l as [|a l IH]; intros i g n errs Hg; [done|].
  cbn [cargar_aristas].
  destruct (leer_arista a) as [[[o d] p]|e|] eqn:Ha; [| |done].
  - apply leer_arista_normaliza in Ha as [Ho Hd].
    pose proof (agregar_normalizado g o d (JFloat p) Hg Ho Hd) as Hg'.
    destruct (agregar_arista g o d (JFloat p)) as [[[]|e|] g']; simpl in Hg';
      [by apply IH|by apply IH| |done].
    destruct (atrapada e); [by apply IH|done].
  - destruct (atrapada e); [by apply IH|done].
Qed.

Lemma cargar_desde_json_mantiene g datos_json :
  bien_formado (cargar_desde_json g datos_json).2 ∧
  normalizado (cargar_desde_json g datos_json).2.
Proof.
  assert (bien_formado vacio ∧ normalizado vacio) as [Hv Hn].
  { split; [apply vacio_bien_formado|constructor]. }
  unfold cargar_desde_json, limpiar.
  destruct datos_json as [| | | | | |kvs]; try done.
  destruct (buscar_clave "aristas" kvs) as [v|]; [|done].
  destruct (iterar v) as [l| |]; [|done..].
  pose proof (cargar_aristas_bien_formado l 0 vacio 0 [] Hv).
  pose proof (cargar_aristas_normalizado l 0 vacio 0 [] Hn).
  by destruct (cargar_aristas 0 l vacio 0 []).
Qed.

Lemma _agregar_arista_mantiene g eo ed ep :
  bien_formado g → normalizado g →
  bien_formado (_agregar_arista g eo ed ep).2 ∧ normalizado (_agregar_arista g eo ed ep).2.
Proof.
  intros Hg Hn. unfold _agregar_arista. case_decide; [done|].
  pose proof (agregar_arista_bien_formado g (normalizar eo) (normalizar ed)
                (JStr (strip ep)) Hg) as Hg'.
  pose proof (agregar_normalizado g (normalizar eo) (normalizar ed) (JStr (strip ep)) Hn
                (normalizar_idem eo) (normalizar_idem ed)) as Hn'.
  by destruct (agregar_arista g (normalizar eo) (normalizar ed) (JStr (strip ep)))
    as [[[]|e|] g'].
Qed.

Lemma sesion_mantiene pulsaciones :
  bien_formado (sesion pulsaciones) ∧ normalizado (sesion pulsaciones).
Proof.
  unfold sesion.
  assert (bien_formado vacio ∧ normalizado vacio) as Hv.
  { split; [apply vacio_bien_formado|constructor]. }
  revert Hv. generalize vacio. induction pulsaciones as [|b bs IH]; intros g [Hg Hn]; [done|].
  simpl. apply IH. destruct b as [eo ed ep| |datos]; simpl.
  - by apply _agregar_arista_mantiene.
  - split; [apply vacio_bien_formado|constructor].
  - apply cargar_desde_json_mantiene.
Qed.

Lemma normalizado_nodos g :
  bien_formado g → normalizado g → set_Forall (λ n, normalizar n = n) (nodos g).
Proof.
  intros Hg Hn n. rewrite (bf_nodos g Hg). intros (o & d & p & Hin & Hor)%elem_of_extremos.
  unfold normalizado in Hn. rewrite Forall_forall in Hn.
  destruct (Hn _ Hin) as [Ho Hd]. simpl in *. by destruct Hor as [->| ->].
Qed.

(** Loading the export of a well-formed graph with normalised labels gives
    the graph back. *)
Lemma exportar_cargar_normalizado g g0 :
  bien_formado g → normalizado g →
  ∃ g', cargar_desde_json g0 (exportar_a_json g) = (Valor (length (aristas g), []), g') ∧
        aristas g' = aristas g ∧ nodos g' = nodos g ∧
        ∀ u, adyacentes g' u = adyacentes g u.
Proof.
  intros Hg Hl.
  destruct (validas_exportadas _ Hl) as (Ht & Hv & He).
  exists (fold_left con_arista (aristas g) vacio).
  assert (bien_formado (fold_left con_arista (aristas g) vacio)) as Hg'.
  { apply con_aristas_bien_formado, vacio_bien_formado. }
  assert (aristas (fold_left con_arista (aristas g) vacio) = aristas g) as Ha.
  { by rewrite con_aristas_aristas. }
  split_and!.
  - unfold cargar_desde_json, exportar_a_json.
    change (buscar_clave "aristas" _) with (Some (JArr (exportar_arista <$> aristas g))).
    cbn [iterar]. rewrite cargar_aristas_tolerables by done.
    rewrite Hv, He. done.
  - done.
  - by rewrite (bf_nodos _ Hg'), Ha, (bf_nodos g Hg).
  - intros u. by rewrite (bf_adyacentes _ Hg'), Ha, (bf_adyacentes g Hg).
Qed.

End LemasOperacionesCiega.

(** X8. In the blind-search script every operation keeps the graph well
    formed: [agregar_arista] whatever it is given and whatever it returns,
    [limpiar], and [cargar_desde_json] on any input, also when it raises.
    After a load, moreover, every node label is in normal form. *)
Theorem operaciones_mantienen_el_grafo `{Python} :
  (∀ (g : Ciega.Grafo) (origen destino : string) (peso : json),
     CiegaGrafo.bien_formado g →
     CiegaGrafo.bien_formado (Ciega.agregar_arista g origen destino peso).2) ∧
  (∀ g : Ciega.Grafo, CiegaGrafo.bien_formado (Ciega.limpiar g)) ∧
  (∀ (g : Ciega.Grafo) (datos_json : json),
     CiegaGrafo.bien_formado (Ciega.cargar_desde_json g datos_json).2 ∧
     set_Forall (λ n, normalizar n = n)
       (Ciega.nodos (Ciega.cargar_desde_json g datos_json).2)).
Proof.
  split_and!.
  - intros g o d w Hg. by apply agregar_arista_bien_formado.
  - intros g. apply vacio_bien_formado.
  - intros g datos. destruct (cargar_desde_json_mantiene g datos) as [Hg Hn].
    split; [done|]. by apply normalizado_nodos.
Qed.

Lemma operaciones_mantienen_el_grafo_testigo :
  CiegaGrafo.bien_formado
    (Ciega.agregar_arista (H := python_ejemplo) grafo_ciego_abc " x" "y" (JStr "no")).2 ∧
  CiegaGrafo.bien_formado
    (Ciega.agregar_arista (H := python_ejemplo) grafo_ciego_abc " x" "y" JNull).2.
Proof.
  split; apply (proj1 (@operaciones_mantienen_el_grafo python_ejemplo)); por_calculo.
Defined.

(** X9. Whatever buttons are pressed in the window of the blind-search
    script (adding edges through the form, clearing, opening files), the
    graph it holds is well formed and all its node labels are in normal
    form. *)
Theorem grafo_de_la_sesion `{Python} (pulsaciones : list InterfazCiega.pulsacion) :
  CiegaGrafo.bien_formado (InterfazCiega.sesion pulsaciones) ∧
  set_Forall (λ n, normalizar n = n) (Ciega.nodos (InterfazCiega.sesion pulsaciones)).
Proof.
  destruct (sesion_mantiene pulsaciones) as [Hg Hn].
  split; [done|]. by apply normalizado_nodos.
Qed.

(** X10. Saving and opening again: for the graph of any run of the window,
    [_exportar_json] writes nothing exactly when the graph has no edge;
    what it writes otherwise loads without error into any graph and gives
    the same edge list in the same order, the same node set and the same
    adjacency lists. *)
Theorem guardar_y_abrir `{Python} (pulsaciones : list InterfazCiega.pulsacion)
    (g0 : Ciega.Grafo) :
  match InterfazCiega._exportar_json (InterfazCiega.sesion pulsaciones) with
  | Some datos_json =>
      Ciega.aristas (InterfazCiega.sesion pulsaciones) ≠ [] ∧
      ∃ g', Ciega.cargar_desde_json g0 datos_json
              = (Valor (length (Ciega.aristas (InterfazCiega.sesion pulsaciones)), []), g') ∧
            Ciega.aristas g' = Ciega.aristas (InterfazCiega.sesion pulsaciones) ∧
            Ciega.nodos g' = Ciega.nodos (InterfazCiega.sesion pulsaciones) ∧
            ∀ u, Ciega.adyacentes g' u
                 = Ciega.adyacentes (InterfazCiega.sesion pulsaciones) u
  | None => Ciega.aristas (InterfazCiega.sesion pulsaciones) = []
  end.
Proof.
  destruct (sesion_mantiene pulsaciones) as [Hg Hn].
  unfold InterfazCiega._exportar_json.
  destruct (Ciega.aristas (InterfazCiega.sesion pulsaciones)) eqn:Ha; [done|].
  split; [done|]. rewrite <- Ha. by apply exportar_cargar_normalizado.
Qed.

(** * The trace of the blind search *)

Section LemasTrazaCiega.
Import Ciega CiegaTraza.

Lemma procesados_app l1 l2 : procesados (l1 ++ l2) = procesados l1 ++ procesados l2.
Proof. apply omap_app. Qed.

Lemma encolados_app l1 l2 : encolados (l1 ++ l2) = encolados l1 ++ encolados l2.
Proof. unfold encolados. by rewrite fmap_app, concat_app. Qed.

Lemma numerados_snoc pasos p :
  numerados pasos → paso p = length pasos → numerados (pasos ++ [Registro p]).
Proof.
  intros Hn Hp i en Hi.
  destruct (decide (i < length pasos)) as [Hlt|Hge].
  - rewrite lookup_app_l in Hi by done. by apply Hn.
  - rewrite lookup_app_r in Hi by lia.
    destruct (i - length pasos) as [|k] eqn:Hk; [|done].
    injection Hi as <-. exists p. split; [done|]. lia.
Qed.

Lemma encola_snoc g inicio pasos p :
  encola_tras_procesar g inicio pasos →
  match accion_paso p with
  | Inicializar x => pasos = [] ∧ x = inicio
  | AgregarVecinos u nuevos =>
      (∃ q, last pasos = Some (Registro q) ∧ accion_paso q = ProcesarNodo u) ∧
      ∀ x, x ∈ nuevos → x ∈ obtener_vecinos g u
  | _ => True
  end →
  encola_tras_procesar g inicio (pasos ++ [Registro p]).
Proof.
  intros Hp Hnew j q Hj.
  destruct (decide (j < length pasos)) as [Hlt|Hge].
  - rewrite lookup_app_l in Hj by done. specialize (Hp j q Hj).
    destruct (accion_paso q); try done.
    destruct Hp as [(i & q' & -> & Hi & Hq') Hv]. split; [|done].
    exists i, q'. split_and!; [done| |done]. by apply lookup_app_l_Some.
  - rewrite lookup_app_r in Hj by lia.
    destruct (j - length pasos) as [|k] eqn:Hk; [|done].
    injection Hj as <-. assert (j = length pasos) as -> by lia.
    destruct (accion_paso p); try done.
    + destruct Hnew as [-> ->]. done.
    + destruct Hnew as [(q & Hq & Hqa) Hv]. split; [|done].
      destruct pasos as [|en pasos _] using rev_ind; [done|].
      rewrite last_snoc in Hq. injection Hq as ->.
      exists (length pasos), q. split_and!.
      * rewrite length_app. simpl. lia.
      * rewrite <- app_assoc. by rewrite lookup_app_r, Nat.sub_diag.
      * done.
Qed.

(** The [for] loop: what it adds to the queue and to the visited set. *)
Lemma explorar_resultado x vs : ∀ e nuevos,
  ∃ mas pd,
    fold_left (visitar x) vs (e, nuevos) =
      ({| cola := cola e ++ mas;
          visitados := list_to_set mas ∪ visitados e;
          padre := pd |},
       nuevos ++ mas) ∧
    NoDup mas ∧ ∀ y, y ∈ mas → (y ∉ visitados e) ∧ y ∈ vs.
Proof.
  induction vs as [|v vs IH]; intros e nuevos.
  - exists [], (padre e). simpl. rewrite !app_nil_r, (left_id_L ∅ (∪)).
    split; [by destruct e|]. split; [constructor|]. intros y Hy. by apply elem_of_nil in Hy.
  - cbn [fold_left]. unfold visitar at 2. case_decide as Hv.
    + destruct (IH e nuevos) as (mas & pd & Heq & Hnd & Hdis).
      exists mas, pd. split_and!; [done|done|].
      intros y Hy. destruct (Hdis y Hy). split; [done|by right].
    + match goal with |- context [fold_left _ vs (?e1, ?n1)] =>
        destruct (IH e1 n1) as (mas & pd & Heq & Hnd & Hdis) end.
      cbn [cola visitados] in *.
      exists (v :: mas), pd. rewrite Heq. split_and!.
      * f_equal; [|by rewrite <- app_assoc].
        f_equal; [by rewrite <- app_assoc|]. simpl. set_solver.
      * constructor; [|done]. intros Hin. destruct (Hdis v Hin). set_solver.
      * intros y [->|Hy]%elem_of_cons; [split; [done|by left]|].
        destruct (Hdis y Hy). split; [set_solver|by right].
Qed.

(** The invariant that ties the trace to the state at every test of
    [while self.cola]. *)
Lemma bucle_traza fuel fuel_r g inicio final : ∀ e n pasos r ps,
  encolados pasos = procesados pasos ++ cola e →
  NoDup (encolados pasos) →
  (∀ x, x ∈ encolados pasos ↔ x ∈ visitados e) →
  encola_tras_procesar g inicio pasos →
  numerados pasos → n = length pasos →
  final ∉ procesados pasos →
  bucle fuel fuel_r g inicio final e n pasos = Valor (r, ps) →
  NoDup (encolados ps) ∧
  procesados ps `prefix_of` encolados ps ∧
  encola_tras_procesar g inicio ps ∧
  numerados ps ∧
  match r with
  | Some c =>
      ∃ p, last ps = Some (Registro p) ∧ accion_paso p = MetaEncontrada c ∧
           camino_final p = Some c ∧ nodo_actual_paso p = Some final ∧
           last (procesados ps) = Some final
  | None =>
      ∃ p, last ps = Some (Registro p) ∧ accion_paso p = NoExisteCamino ∧
           procesados ps = encolados ps ∧ final ∉ procesados ps
  end.
Proof.
  induction fuel as [|fuel IH]; intros e n pasos r ps Henc Hnd Hvis Hor Hnum Hn Hfin Hb;
    cbn [bucle] in Hb; destruct (cola e) as [|x resto] eqn:Hcola; try done.
  - injection Hb as <- <-. rewrite app_nil_r in Henc.
    rewrite encolados_app, procesados_app. simpl. rewrite !app_nil_r.
    split_and!; [done|by rewrite Henc|by apply encola_snoc
                |apply numerados_snoc; [done|by subst]|].
    eexists. rewrite last_snoc. by split_and!.
  - injection Hb as <- <-. rewrite app_nil_r in Henc.
    rewrite encolados_app, procesados_app. simpl. rewrite !app_nil_r.
    split_and!; [done|by rewrite Henc|by apply encola_snoc
                |apply numerados_snoc; [done|by subst]|].
    eexists. rewrite last_snoc. by split_and!.
  - set (p1 := registro n (ProcesarNodo x) resto (visitados e) (Some x)) in *.
    assert (numerados (pasos ++ [Registro p1])) as Hnum1.
    { apply numerados_snoc; [done|by subst]. }
    assert (encola_tras_procesar g inicio (pasos ++ [Registro p1])) as Hor1.
    { by apply encola_snoc. }
    assert (encolados (pasos ++ [Registro p1]) = encolados pasos) as He1.
    { rewrite encolados_app. simpl. by rewrite app_nil_r. }
    assert (procesados (pasos ++ [Registro p1]) = procesados pasos ++ [x]) as Hp1.
    { by rewrite procesados_app. }
    assert (length (pasos ++ [Registro p1]) = S n) as Hl1.
    { rewrite length_app. simpl. lia. }
    case_decide as Hxf.
    + subst x.
      destruct (_reconstruir_camino fuel_r (padre e) inicio final) as [c| |];
        cbn [ligar] in Hb; [|done..].
      injection Hb as <- <-.
      rewrite encolados_app, procesados_app, He1, Hp1. simpl. rewrite !app_nil_r.
      split_and!.
      * done.
      * rewrite Henc. exists resto. by rewrite <- app_assoc.
      * by apply encola_snoc.
      * apply numerados_snoc; [done|]. by rewrite Hl1.
      * eexists. rewrite last_snoc. split_and!; [done..|]. by rewrite last_snoc.
    + unfold explorar in Hb.
      destruct (explorar_resultado x (obtener_vecinos g x)
                  {| cola := resto; visitados := visitados e; padre := padre e |} [])
        as (mas & pd & Heq & Hndm & Hdis).
      rewrite Heq in Hb. cbn [cola visitados app] in Hb, Hdis.
      assert (NoDup (encolados pasos ++ mas)) as Hnd'.
      { apply NoDup_app. split_and!; [done| |done].
        intros y Hy Hym. destruct (Hdis y Hym) as [Hnv _]. by apply Hnv, Hvis. }
      assert (∀ y, y ∈ encolados pasos ++ mas ↔ y ∈ list_to_set mas ∪ visitados e)
        as Hvis'.
      { intros y. rewrite elem_of_app, elem_of_union, elem_of_list_to_set, Hvis. tauto. }
      assert (final ∉ procesados pasos ++ [x]) as Hfin'.
      { intros [?| ->%list_elem_of_singleton]%elem_of_app; done. }
      destruct mas as [|m mas].
      * rewrite app_nil_r in Hnd', Hvis'.
        apply IH in Hb; [done|..]; cbn [cola visitados];
          rewrite ?He1, ?Hp1, ?app_nil_r; try done.
        -- rewrite Henc. by rewrite <- app_assoc.
      * match type of Hb with bucle _ _ _ _ _ _ _ (_ ++ [Registro ?r2]) = _ =>
          set (p2 := r2) in * end.
        assert (encolados ((pasos ++ [Registro p1]) ++ [Registro p2])
                = encolados pasos ++ m :: mas) as He2.
        { rewrite encolados_app, He1. unfold encolados. simpl. by rewrite app_nil_r. }
        assert (procesados ((pasos ++ [Registro p1]) ++ [Registro p2])
                = procesados pasos ++ [x]) as Hp2.
        { by rewrite procesados_app, Hp1, app_nil_r. }
        apply IH in Hb; [done|..]; cbn [cola visitados]; rewrite ?He2, ?Hp2; try done.
        -- rewrite Henc. by rewrite <- !app_assoc.
        -- apply encola_snoc; [done|]. cbn [p2 accion_paso]. split.
           ++ exists p1. by rewrite last_snoc.
           ++ intros y Hy. by destruct (Hdis y Hy).
        -- apply numerados_snoc; [done|]. by rewrite Hl1.
        -- rewrite length_app, Hl1. simpl. lia.
Qed.

End LemasTrazaCiega.

(** X11. The trace of [AlgoritmoBFS.buscar_camino] shows a first-in,
    first-out queue. No node is put in the queue twice; the nodes of the
    records "Procesar nodo" are, in order, a prefix of the queued nodes;
    and nodes are queued only by the initial record, which is the first of
    the trace and queues the start node, and by a record "Agregar vecinos"
    of a node [u], which comes right after the record "Procesar nodo" of
    [u] and queues neighbours of [u] only. So every queued node is the
    start node or a neighbour of a node processed before it was queued.
    This holds for every graph and every pair of labels. *)
Theorem traza_cola_fifo (g : Ciega.Grafo) (inicio final : string)
    (fuel : nat) (r : option (list string)) (pasos : list Ciega.entrada) :
  Ciega.buscar_camino fuel g inicio final = Valor (r, pasos) →
  NoDup (CiegaTraza.encolados pasos) ∧
  CiegaTraza.procesados pasos `prefix_of` CiegaTraza.encolados pasos ∧
  CiegaTraza.encola_tras_procesar g inicio pasos.
Proof.
  unfold Ciega.buscar_camino. case_decide as Hn.
  - intros [= <- <-]. split_and!.
    + constructor.
    + by exists [].
    + by intros [|j] p Hp.
  - intros Hb. apply bucle_traza in Hb; [by destruct Hb as (? & ? & ? & _)|..];
      cbn [Ciega.cola Ciega.visitados].
    + done.
    + apply NoDup_singleton.
    + intros x. unfold CiegaTraza.encolados. simpl. set_solver.
    + intros [|j] p Hp; [|done]. by injection Hp as <-.
    + intros [|i] en Hi; [|done]. injection Hi as <-. by eexists.
    + done.
    + by intros ?%elem_of_nil.
Qed.

Lemma traza_cola_fifo_testigo :
  ∃ r pasos,
    Ciega.buscar_camino 4 grafo_ciego_abc "A" "C" = Valor (r, pasos) ∧
    NoDup (CiegaTraza.encolados pasos) ∧
    CiegaTraza.procesados pasos `prefix_of` CiegaTraza.encolados pasos ∧
    CiegaTraza.encola_tras_procesar grafo_ciego_abc "A" pasos.
Proof.
  eexists _, _. split; [vm_compute; reflexivity|].
  eapply (traza_cola_fifo grafo_ciego_abc "A" "C" 4).
  vm_compute. reflexivity.
Defined.

(** X12. When both nodes are in the graph, every element of the trace of
    [AlgoritmoBFS.buscar_camino] is a record whose [paso] is its position
    in the list, and the last record states the outcome. With a path
    returned it is "Meta encontrada", its [camino_final] is the returned
    path, and the goal is the last node processed. With [None] returned it
    is "No existe camino", every node that was queued has been processed,
    and the goal is not among them. *)
Theorem traza_numerada_y_cierre (g : Ciega.Grafo) (inicio final : string)
    (fuel : nat) (r : option (list string)) (pasos : list Ciega.entrada) :
  inicio ∈ Ciega.nodos g → final ∈ Ciega.nodos g →
  Ciega.buscar_camino fuel g inicio final = Valor (r, pasos) →
  CiegaTraza.numerados pasos ∧
  ∃ p, last pasos = Some (Ciega.Registro p) ∧
    match r with
    | Some camino =>
        Ciega.accion_paso p = Ciega.MetaEncontrada camino ∧
        Ciega.camino_final p = Some camino ∧
        Ciega.nodo_actual_paso p = Some final ∧
        last (CiegaTraza.procesados pasos) = Some final
    | None =>
        Ciega.accion_paso p = Ciega.NoExisteCamino ∧
        CiegaTraza.procesados pasos = CiegaTraza.encolados pasos ∧
        final ∉ CiegaTraza.procesados pasos
    end.
Proof.
  intros Hi Hf. unfold Ciega.buscar_camino. rewrite decide_False by tauto.
  intros Hb. apply bucle_traza in Hb; cbn [Ciega.cola Ciega.visitados].
  - destruct Hb as (_ & _ & _ & Hnum & Hfin). split; [done|].
    destruct r as [c|]; destruct Hfin as (p & ? & ?); by exists p.
  - done.
  - apply NoDup_singleton.
  - intros x. unfold CiegaTraza.encolados. simpl. set_solver.
  - intros [|j] p Hp; [|done]. by injection Hp as <-.
  - intros [|i] en Hi'; [|done]. injection Hi' as <-. by eexists.
  - done.
  - by intros ?%elem_of_nil.
Qed.

Lemma traza_numerada_y_cierre_testigo :
  ∃ r pasos,
    Ciega.buscar_camino 4 grafo_ciego_abc "C" "A" = Valor (r, pasos) ∧
    CiegaTraza.numerados pasos ∧
    ∃ p, last pasos = Some (Ciega.Registro p) ∧
      match r with
      | Some camino =>
          Ciega.accion_paso p = Ciega.MetaEncontrada camino ∧
          Ciega.camino_final p = Some camino ∧
          Ciega.nodo_actual_paso p = Some "A" ∧
          last (CiegaTraza.procesados pasos) = Some "A"
      | None =>
          Ciega.accion_paso p = Ciega.NoExisteCamino ∧
          CiegaTraza.procesados pasos = CiegaTraza.encolados pasos ∧
          "A" ∉ CiegaTraza.procesados pasos
      end.
Proof.
  eexists _, _. split; [vm_compute; reflexivity|].
  eapply (traza_numerada_y_cierre grafo_ciego_abc "C" "A" 4).
  - por_calculo.
  - por_calculo.
  - vm_compute. reflexivity.
Defined.

(** * The trace and the cost of the informed search *)

Section LemasTrazaInformada.
Import Informada InformadaTraza InterfazInformada.
Context `{Python}.

Lemma numerados_informada_snoc pasos p :
  numerados pasos → paso p = length pasos → numerados (pasos ++ [p]).
Proof.
  intros Hn Hp i q Hi.
  destruct (decide (i < length pasos)) as [Hlt|Hge].
  - rewrite lookup_app_l in Hi by done. by apply Hn.
  - rewrite lookup_app_r in Hi by lia.
    destruct (i - length pasos) as [|k] eqn:Hk; [|done].
    injection Hi as <-. lia.
Qed.

Lemma primer_peso_sin_repetir d w (l : list (string * float)) :
  NoDup l.*1 → (d, w) ∈ l → primer_peso d l = Some w.
Proof.
  induction l as [|[d' w'] l IH]; intros Hnd Hin; [by apply elem_of_nil in Hin|].
  simpl in *. apply NoDup_cons in Hnd as [Hd' Hnd].
  apply elem_of_cons in Hin as [[= <- <-]|Hin].
  - by rewrite decide_True.
  - case_decide as Hdd; [|by apply IH]. subst d'. exfalso. apply Hd'.
    apply list_elem_of_fmap. by exists (d, w).
Qed.

Lemma sumar_pesos_snoc g u v w : ∀ c costo,
  last c = Some u → obtener_peso g u v = Some w →
  sumar_pesos g (c ++ [v]) costo = (sumar_pesos g c costo + w)%float.
Proof.
  induction c as [|a c IH]; intros costo Hl Hw; [done|].
  destruct c as [|b c].
  - simpl in Hl. injection Hl as ->. simpl. by rewrite Hw.
  - change ((a :: b :: c) ++ [v]) with (a :: (b :: c) ++ [v]).
    cbn [sumar_pesos app]. by apply IH.
Qed.

Section Bucle.
Context (g : Grafo) (objetivo : string)
  (posiciones_canvas : option (gmap string (float * float))) (max_iteraciones : nat).

(** Every record is numbered by its position and coherent, and the last
    one shows the state the loop ends in. *)
Lemma bucle_traza_informada fuel : ∀ e n pasos r ps,
  numerados pasos → n = length pasos → Forall coherente pasos →
  visitados e = list_to_set (camino e) → last (camino e) = Some (nodo_actual e) →
  (∃ p, last pasos = Some p ∧ camino_actual p = camino e ∧
        costo_total_paso p = costo_total e) →
  bucle fuel g objetivo posiciones_canvas max_iteraciones e n pasos = Valor (r, ps) →
  numerados ps ∧ Forall coherente ps ∧
  ∃ p e', last ps = Some p ∧ camino_actual p = camino e' ∧
          costo_total_paso p = costo_total e' ∧
          (∀ c, r = Some c → c = camino e' ∧ nodo_actual_paso p = Some objetivo) ∧
          (sumar_pesos g (camino e) 0 = costo_total e →
           (∀ u, NoDup (obtener_vecinos_con_peso g u).*1) →
           sumar_pesos g (camino e') 0 = costo_total e').
Proof.
  induction fuel as [|fuel IH];
    intros e n pasos r ps Hnum Hn Hco Hvis Hlast (p0 & Hp0 & Hp0c & Hp0t) Hb;
    cbn [bucle] in Hb.
  - case_decide as Hg; [done|]. case_decide as Ho.
    + injection Hb as <- <-. split_and!; [done..|].
      exists p0, e. split_and!; [done..| |done].
      intros c [= <-]. split; [done|].
      destruct (proj1 (Forall_forall _ _) Hco p0) as [_ Hn0].
      { by apply last_Some_elem_of. }
      by rewrite Hn0, Hp0c, Hlast, Ho.
    + injection Hb as <- <-. split_and!.
      * apply numerados_informada_snoc; [done|by subst].
      * apply Forall_app. split; [done|]. constructor; [|done]. by split.
      * eexists _, e. rewrite last_snoc. by split_and!.
  - case_decide as Hg.
    + destruct (obtener_vecinos_con_peso g (nodo_actual e)) as [|vp vs] eqn:Hvs.
      { injection Hb as <- <-. split_and!.
        - apply numerados_informada_snoc; [done|by subst].
        - apply Forall_app. split; [done|]. constructor; [|done]. by split.
        - eexists _, e. rewrite last_snoc. by split_and!. }
      destruct (evaluar_vecinos objetivo posiciones_canvas e (vp :: vs))
        as [[[[[v w]|] f] evals]| |] eqn:He; [| |done..].
      * pose proof (evaluar_vecinos_elige objetivo posiciones_canvas e _ _ _ _ _ He)
          as [Hin Hnv].
        apply IH in Hb.
        -- destruct Hb as (Hnum' & Hco' & p & e' & Hp & Hpc & Hpt & Hr & Hcost).
           split_and!; [done..|]. exists p, e'. split_and!; [done..|].
           intros Hc Hpar. apply Hcost; [|done]. cbn [camino costo_total].
           rewrite (sumar_pesos_snoc g (nodo_actual e) v w); [by rewrite Hc|done|].
           unfold obtener_peso. apply primer_peso_sin_repetir; [apply Hpar|].
           unfold obtener_vecinos_con_peso in Hvs. by rewrite Hvs.
        -- apply numerados_informada_snoc; [|rewrite length_app; simpl; lia].
           apply numerados_informada_snoc; [done|by subst].
        -- rewrite !length_app. simpl. lia.
        -- apply Forall_app. split; [apply Forall_app; split; [done|]|].
           ++ constructor; [|done]. by split.
           ++ constructor; [|done]. split; cbn [visitados_paso camino_actual camino
                visitados nodo_actual_paso].
              ** rewrite list_to_set_app_L, Hvis. set_solver.
              ** by rewrite last_snoc.
        -- cbn [visitados camino]. rewrite list_to_set_app_L, Hvis. set_solver.
        -- cbn [camino nodo_actual]. by rewrite last_snoc.
        -- eexists. rewrite last_snoc. by split_and!.
      * injection Hb as <- <-. split_and!.
        -- apply numerados_informada_snoc; [|rewrite length_app; simpl; lia].
           apply numerados_informada_snoc; [done|by subst].
        -- apply Forall_app. split; [apply Forall_app; split; [done|]|];
             (constructor; [|done]); by split.
        -- eexists _, e. rewrite last_snoc. by split_and!.
    + case_decide as Ho.
      * injection Hb as <- <-. split_and!; [done..|].
        exists p0, e. split_and!; [done..| |done].
        intros c [= <-]. split; [done|].
        destruct (proj1 (Forall_forall _ _) Hco p0) as [_ Hn0].
        { by apply last_Some_elem_of. }
        by rewrite Hn0, Hp0c, Hlast, Ho.
      * injection Hb as <- <-. split_and!.
        -- apply numerados_informada_snoc; [done|by subst].
        -- apply Forall_app. split; [done|]. constructor; [|done]. by split.
        -- eexists _, e. rewrite last_snoc. by split_and!.
Qed.

End Bucle.

Lemma sin_paralelas_vecinos g u :
  sin_paralelas g → NoDup (obtener_vecinos_con_peso g u).*1.
Proof.
  intros Hg. unfold obtener_vecinos_con_peso, adyacentes.
  destruct (adyacencias g !! u) as [l|] eqn:Hl; [by eapply Hg|constructor].
Qed.

End LemasTrazaInformada.

(** X13. In the trace of [AlgoritmoHillClimbing.buscar_camino], on any
    graph and any input, every record is numbered by its position in the
    list, shows as visited exactly the nodes of its [camino_actual], and has
    the last of them as [nodo_actual] (none in the record of unknown
    nodes): the search never leaves its own path. When a path is returned,
    it is the [camino_actual] of the last record, whose node is the goal. *)
Theorem traza_informada `{Python} (g : Informada.Grafo) (inicio objetivo : string)
    (posiciones_canvas : option (gmap string (float * float))) (fuel : nat)
    (r : option (list string)) (pasos : list Informada.paso_busqueda) :
  Informada.buscar_camino fuel g inicio objetivo posiciones_canvas = Valor (r, pasos) →
  InformadaTraza.numerados pasos ∧
  Forall InformadaTraza.coherente pasos ∧
  ∀ camino, r = Some camino →
    ∃ p, last pasos = Some p ∧ Informada.camino_actual p = camino ∧
         Informada.nodo_actual_paso p = Some objetivo.
Proof.
  unfold Informada.buscar_camino. case_decide as Hn.
  - intros [= <- <-]. split_and!; [|by repeat constructor|done].
    intros [|i] p Hp; [|done]. by injection Hp as <-.
  - intros Hb. apply bucle_traza_informada in Hb.
    + destruct Hb as (Hnum & Hco & p & e' & Hp & Hpc & _ & Hr & _).
      split_and!; [done..|]. intros c Hc. destruct (Hr c Hc) as [-> Ho]. by exists p.
    + intros [|i] p Hp; [|done]. by injection Hp as <-.
    + done.
    + repeat constructor. cbn. set_solver.
    + cbn. set_solver.
    + done.
    + by eexists.
Qed.

Lemma traza_informada_testigo :
  ∃ r pasos,
    Informada.buscar_camino (H := python_ejemplo) 2 grafo_informado_abc "A" "C" None = Valor (r, pasos) ∧
    InformadaTraza.numerados pasos ∧
    Forall InformadaTraza.coherente pasos ∧
    ∀ camino, r = Some camino →
      ∃ p, last pasos = Some p ∧ Informada.camino_actual p = camino ∧
           Informada.nodo_actual_paso p = Some "C".
Proof.
  eexists _, _. split; [vm_compute; reflexivity|].
  eapply (@traza_informada python_ejemplo grafo_informado_abc "A" "C" None 2).
  vm_compute. reflexivity.
Defined.

(** X14. The cost the window prints for a path found,
    [_calcular_costo_camino], is the [costo_total] of the last record of the
    search when no two edges of the graph leave a node for the same target:
    both add the same weights in the same order. *)
Theorem costo_mostrado `{Python} (g : Informada.Grafo) (inicio objetivo : string)
    (posiciones_canvas : option (gmap string (float * float))) (fuel : nat)
    (camino : list string) (pasos : list Informada.paso_busqueda) :
  InformadaTraza.sin_paralelas g →
  Informada.buscar_camino fuel g inicio objetivo posiciones_canvas
    = Valor (Some camino, pasos) →
  ∃ p, last pasos = Some p ∧ Informada.camino_actual p = camino ∧
       InterfazInformada._calcular_costo_camino g camino = Informada.costo_total_paso p.
Proof.
  intros Hpar. unfold Informada.buscar_camino. case_decide as Hn; [done|].
  intros Hb. apply bucle_traza_informada in Hb.
  - destruct Hb as (_ & _ & p & e' & Hp & Hpc & Hpt & Hr & Hcost).
    destruct (Hr camino eq_refl) as [-> _]. exists p. split_and!; [done..|].
    rewrite Hpt, <- Hcost; [|done|intros u; by apply sin_paralelas_vecinos].
    unfold InterfazInformada._calcular_costo_camino. case_decide as Hl; [|done].
    by destruct (Informada.camino e') as [|a [|b c]]; [..|simpl in Hl; lia].
  - intros [|i] p Hp; [|done]. by injection Hp as <-.
  - done.
  - repeat constructor. cbn. set_solver.
  - cbn. set_solver.
  - done.
  - by eexists.
Qed.

Lemma costo_mostrado_testigo :
  ∃ camino pasos,
    Informada.buscar_camino (H := python_ejemplo) 2 grafo_informado_abc "A" "C" None
      = Valor (Some camino, pasos) ∧
    ∃ p, last pasos = Some p ∧ Informada.camino_actual p = camino ∧
         InterfazInformada._calcular_costo_camino grafo_informado_abc camino
           = Informada.costo_total_paso p.
Proof.
  eexists _, _. split; [vm_compute; reflexivity|].
  eapply (@costo_mostrado python_ejemplo grafo_informado_abc "A" "C" None 2).
  - unfold InformadaTraza.sin_paralelas. por_calculo.
  - vm_compute. reflexivity.
Defined.

(** * The choice of the best neighbour *)

Section LemasFlotantes.

Lemma SFltb_trans a b c : SFltb a b = true → SFltb b c = true → SFltb a c = true.
Proof.
  unfold SFltb.
  destruct a as [sa|sa| |sa ma ea], b as [sb|sb| |sb mb eb], c as [sc|sc| |sc mc ec];
    simpl; try done;
    repeat match goal with s : bool |- _ => destruct s end; simpl; try done.
  - destruct (Z.compare_spec ea eb), (Z.compare_spec eb ec), (Z.compare_spec ea ec);
      simpl; try done; try lia; subst.
    change (PosDef.Pos.compare_cont Eq) with Pos.compare.
    destruct (Pos.compare_spec ma mb), (Pos.compare_spec mb mc), (Pos.compare_spec ma mc);
      simpl; try done; lia.
  - destruct (Z.compare_spec ea eb), (Z.compare_spec eb ec), (Z.compare_spec ea ec);
      simpl; try done; try lia; subst.
    change (PosDef.Pos.compare_cont Eq) with Pos.compare.
    destruct (Pos.compare_spec ma mb), (Pos.compare_spec mb mc), (Pos.compare_spec ma mc);
      simpl; try done; lia.
Qed.

Lemma SFleb_ltb_trans a b c : SFleb a b = true → SFltb b c = true → SFltb a c = true.
Proof.
  unfold SFltb, SFleb.
  destruct a as [sa|sa| |sa ma ea], b as [sb|sb| |sb mb eb], c as [sc|sc| |sc mc ec];
    simpl; try done;
    repeat match goal with s : bool |- _ => destruct s end; simpl; try done.
  - destruct (Z.compare_spec ea eb), (Z.compare_spec eb ec), (Z.compare_spec ea ec);
      simpl; try done; try lia; subst.
    change (PosDef.Pos.compare_cont Eq) with Pos.compare.
    destruct (Pos.compare_spec ma mb), (Pos.compare_spec mb mc), (Pos.compare_spec ma mc);
      simpl; try done; lia.
  - destruct (Z.compare_spec ea eb), (Z.compare_spec eb ec), (Z.compare_spec ea ec);
      simpl; try done; try lia; subst.
    change (PosDef.Pos.compare_cont Eq) with Pos.compare.
    destruct (Pos.compare_spec ma mb), (Pos.compare_spec mb mc), (Pos.compare_spec ma mc);
      simpl; try done; lia.
Qed.

Lemma SFltb_irrefl a : SFltb a a = false.
Proof.
  unfold SFltb. destruct a as [s|s| |s m e]; simpl; try done; destruct s; try done.
  - rewrite Z.compare_refl. change (PosDef.Pos.compare_cont Eq) with Pos.compare.
    by rewrite Pos.compare_refl.
  - rewrite Z.compare_refl. change (PosDef.Pos.compare_cont Eq) with Pos.compare.
    by rewrite Pos.compare_refl.
Qed.

Lemma ltb_trans (a b c : float) :
  (a <? b)%float = true → (b <? c)%float = true → (a <? c)%float = true.
Proof. rewrite !FloatAxioms.ltb_spec. apply SFltb_trans. Qed.

Lemma leb_ltb_trans (a b c : float) :
  (a <=? b)%float = true → (b <? c)%float = true → (a <? c)%float = true.
Proof. rewrite FloatAxioms.leb_spec, !FloatAxioms.ltb_spec. apply SFleb_ltb_trans. Qed.

Lemma ltb_irrefl (a : float) : (a <? a)%float = false.
Proof. rewrite FloatAxioms.ltb_spec. apply SFltb_irrefl. Qed.

End LemasFlotantes.

Section LemasEleccion.
Import Informada InformadaTraza.
Context `{Python} (objetivo : string)
  (posiciones_canvas : option (gmap string (float * float))) (e : estado).

Lemma evaluar_elegido acc vp acc' :
  elegido acc → evaluar objetivo posiciones_canvas e acc vp = Valor acc' → elegido acc'.
Proof.
  destruct acc as [[mejor f] evals], vp as [v w]. unfold evaluar.
  case_decide as Hv; [by intros ? [= <-]|].
  destruct (heuristica_de posiciones_canvas v objetivo) as [h| |]; [|done..].
  cbn [ligar].
  set (f' := (costo_total e + w + h)%float).
  set (ev := {| vecino := v; peso := w; heuristica := h; valor_evaluacion := f' |}).
  intros Hacc.
  assert (∀ ev', ev' ∈ evals → (valor_evaluacion ev' <? f)%float = false) as Hmin.
  { destruct mejor as [[v0 w0]|].
    - by destruct Hacc as (j & ev0 & _ & _ & _ & _ & _ & Hmin & _).
    - destruct Hacc as [-> Hmin]. done. }
  assert ((f <? infinity)%float = true ∨ f = infinity) as Hinf.
  { destruct mejor as [[v0 w0]|].
    - left. by destruct Hacc as (j & ev0 & _ & _ & _ & _ & Hinf & _).
    - right. by destruct Hacc. }
  destruct (f' <? f)%float eqn:Hlt; intros [= <-].
  - exists (length evals), ev. split_and!.
    + by rewrite lookup_app_r, Nat.sub_diag.
    + done.
    + done.
    + done.
    + destruct Hinf as [Hinf| <-]; [by eapply ltb_trans|done].
    + intros ev' [Hev'| ->%list_elem_of_singleton]%elem_of_app.
      * destruct (valor_evaluacion ev' <? f')%float eqn:Hc; [|done].
        pose proof (Hmin ev' Hev') as Hm. by rewrite (ltb_trans _ _ _ Hc Hlt) in Hm.
      * apply ltb_irrefl.
    + intros i ev' Hi Hev'. rewrite lookup_app_l in Hev' by done.
      destruct (valor_evaluacion ev' <=? f')%float eqn:Hc; [|done].
      rewrite <- (Hmin ev'); [|by eapply list_elem_of_lookup_2].
      symmetry. by eapply leb_ltb_trans.
  - destruct mejor as [[v0 w0]|].
    + destruct Hacc as (j & ev0 & Hj & ? & ? & ? & ? & _ & Hantes).
      exists j, ev0. split_and!; [|done..| |].
      * by apply lookup_app_l_Some.
      * intros ev' [Hev'| ->%list_elem_of_singleton]%elem_of_app; [by apply Hmin|done].
      * intros i ev' Hi Hev'. apply (Hantes i ev' Hi).
        rewrite lookup_app_l in Hev'; [done|].
        apply lookup_lt_Some in Hj. lia.
    + destruct Hacc as [-> _]. split; [done|].
      intros ev' [Hev'| ->%list_elem_of_singleton]%elem_of_app; [by apply Hmin|done].
Qed.

(** What one turn appends to [evaluaciones]. *)
Lemma evaluar_registra acc vp acc' :
  evaluar objetivo posiciones_canvas e acc vp = Valor acc' →
  ∃ nuevas, acc'.2 = acc.2 ++ nuevas ∧
            Forall2 (evaluada objetivo posiciones_canvas e) (por_visitar e [vp]) nuevas.
Proof.
  destruct acc as [[mejor f] evals], vp as [v w]. unfold evaluar, por_visitar.
  rewrite filter_cons, filter_nil. cbn [fst].
  case_decide as Hv.
  - intros [= <-]. exists []. rewrite decide_False by tauto.
    split; [by rewrite app_nil_r|constructor].
  - rewrite decide_True by done.
    destruct (heuristica_de posiciones_canvas v objetivo) as [h| |] eqn:Hh; [|done..].
    cbn [ligar]. intros Hacc. eexists [_]. split.
    + by destruct (_ <? f)%float; injection Hacc as <-.
    + constructor; [|constructor]. by split_and!.
Qed.

Lemma evaluar_cada_elegido vecinos : ∀ acc r,
  elegido acc →
  evaluar_cada objetivo posiciones_canvas e vecinos acc = Valor r →
  elegido r ∧
  ∃ nuevas, r.2 = acc.2 ++ nuevas ∧
            Forall2 (evaluada objetivo posiciones_canvas e) (por_visitar e vecinos) nuevas.
Proof.
  induction vecinos as [|vp vs IH]; intros acc r Hacc Hr.
  - injection Hr as <-. split; [done|]. exists []. split; [by rewrite app_nil_r|constructor].
  - cbn [evaluar_cada] in Hr.
    destruct (evaluar objetivo posiciones_canvas e acc vp) as [acc'| |] eqn:He; [|done..].
    cbn [ligar] in Hr.
    destruct (IH acc' r (evaluar_elegido acc vp acc' Hacc He) Hr) as (Hel & n2 & Hn2 & Hf2).
    destruct (evaluar_registra acc vp acc' He) as (n1 & Hn1 & Hf1).
    split; [done|]. exists (n1 ++ n2). split.
    + by rewrite Hn2, Hn1, app_assoc.
    + change (vp :: vs) with ([vp] ++ vs). unfold por_visitar in *.
      rewrite filter_app. by apply Forall2_app.
Qed.

(** The loop raises nothing but the [OverflowError] of a square, and only
    with a position map that is not empty. *)
Lemma evaluar_cada_excepcion vecinos : ∀ acc,
  match evaluar_cada objetivo posiciones_canvas e vecinos acc with
  | Valor _ => True
  | Excepcion ex => ex = OverflowError ∧ hay_posiciones posiciones_canvas = true
  | SinCombustible => False
  end.
Proof.
  induction vecinos as [|[v w] vs IH]; intros acc; [done|].
  cbn [evaluar_cada].
  assert (match evaluar objetivo posiciones_canvas e acc (v, w) with
          | Valor _ => True
          | Excepcion ex => ex = OverflowError ∧ hay_posiciones posiciones_canvas = true
          | SinCombustible => False
          end) as He.
  { destruct acc as [[mejor f] evals]. unfold evaluar. case_decide; [done|].
    unfold heuristica_de. destruct (hay_posiciones posiciones_canvas) eqn:Hp.
    - unfold calcular_heuristica_euclidiana, py_potencia_2.
      destruct (default ∅ posiciones_canvas !! v) as [[x1 y1]|]; [|cbn; by destruct (_ <? _)%float].
      destruct (default ∅ posiciones_canvas !! objetivo) as [[x2 y2]|];
        [|cbn; by destruct (_ <? _)%float].
      destruct (potencia_2 (x2 - x1)) as [a|]; [|done].
      destruct (potencia_2 (y2 - y1)) as [b|]; [|done].
      cbn. by destruct (_ <? _)%float.
    - cbn. by destruct (_ <? _)%float. }
  destruct (evaluar objetivo posiciones_canvas e acc (v, w)) as [acc'| |]; [|done..].
  cbn [ligar]. apply IH.
Qed.

End LemasEleccion.

(** X15. The [for] loop of [AlgoritmoHillClimbing.buscar_camino] that picks
    the next node, when no heuristic raises. It records one evaluation for
    each neighbour not yet visited, in the order of the adjacency list:
    the heuristic computed for the neighbour and the cost so far plus the
    weight plus that heuristic. The neighbour it picks is one of them, its
    evaluation is below infinity, no recorded evaluation is below it and
    none recorded before it is below or equal to it: the choice is the
    first neighbour of least evaluation. It picks none exactly when no
    recorded evaluation is below infinity, which covers the case of no
    unvisited neighbour. *)
Theorem eleccion_del_mejor `{Python} (objetivo : string)
    (posiciones_canvas : option (gmap string (float * float)))
    (e : Informada.estado) (vecinos : list (string * float))
    (mejor : option (string * float)) (mejor_evaluacion : float)
    (evals : list Informada.evaluacion) :
  Informada.evaluar_vecinos objetivo posiciones_canvas e vecinos
    = Valor (mejor, mejor_evaluacion, evals) →
  Forall2 (InformadaTraza.evaluada objetivo posiciones_canvas e)
    (InformadaTraza.por_visitar e vecinos) evals ∧
  (mejor = None ↔
   ∀ ev', ev' ∈ evals → (Informada.valor_evaluacion ev' <? infinity)%float = false) ∧
  match mejor with
  | Some (v, w) =>
      (mejor_evaluacion <? infinity)%float = true ∧
      ∃ j ev, evals !! j = Some ev ∧
        Informada.vecino ev = v ∧ Informada.peso ev = w ∧
        Informada.valor_evaluacion ev = mejor_evaluacion ∧
        (∀ ev', ev' ∈ evals →
           (Informada.valor_evaluacion ev' <? mejor_evaluacion)%float = false) ∧
        (∀ i ev', i < j → evals !! i = Some ev' →
           (Informada.valor_evaluacion ev' <=? mejor_evaluacion)%float = false)
  | None => mejor_evaluacion = infinity
  end.
Proof.
  unfold Informada.evaluar_vecinos. intros He.
  assert (InformadaTraza.elegido (None, infinity, [])) as Hini.
  { split; [done|]. intros ev' Hev'. by apply elem_of_nil in Hev'. }
  destruct (evaluar_cada_elegido objetivo posiciones_canvas e vecinos
              (None, infinity, []) _ Hini He) as (Hel & nuevas & Hn & Hf).
  cbn [snd app] in Hn. subst nuevas. split; [done|].
  destruct mejor as [[v w]|].
  - destruct Hel as (j & ev & Hj & ? & ? & Hval & Hinf & ? & ?). split_and!.
    + split; [done|]. intros Hno. exfalso.
      rewrite <- Hval, (Hno ev) in Hinf; [done|]. by eapply list_elem_of_lookup_2.
    + done.
    + by exists j, ev.
  - destruct Hel as [-> Hno]. by split_and!.
Qed.

Lemma eleccion_del_mejor_testigo :
  ∃ mejor mejor_evaluacion evals,
    Informada.evaluar_vecinos (H := python_ejemplo) "C" None
      {| Informada.nodo_actual := "A"; Informada.camino := ["A"];
         Informada.costo_total := 0%float; Informada.visitados := {["A"]} |}
      (Informada.obtener_vecinos_con_peso grafo_informado_abc "A")
      = Valor (mejor, mejor_evaluacion, evals) ∧
    Forall2
      (InformadaTraza.evaluada (H := python_ejemplo) "C" None
         {| Informada.nodo_actual := "A"; Informada.camino := ["A"];
            Informada.costo_total := 0%float; Informada.visitados := {["A"]} |})
      (InformadaTraza.por_visitar
         {| Informada.nodo_actual := "A"; Informada.camino := ["A"];
            Informada.costo_total := 0%float; Informada.visitados := {["A"]} |}
         (Informada.obtener_vecinos_con_peso grafo_informado_abc "A")) evals ∧
    (mejor = None ↔
     ∀ ev', ev' ∈ evals → (Informada.valor_evaluacion ev' <? infinity)%float = false) ∧
    match mejor with
    | Some (v, w) =>
        (mejor_evaluacion <? infinity)%float = true ∧
        ∃ j ev, evals !! j = Some ev ∧
          Informada.vecino ev = v ∧ Informada.peso ev = w ∧
          Informada.valor_evaluacion ev = mejor_evaluacion ∧
          (∀ ev', ev' ∈ evals →
             (Informada.valor_evaluacion ev' <? mejor_evaluacion)%float = false) ∧
          (∀ i ev', i < j → evals !! i = Some ev' →
             (Informada.valor_evaluacion ev' <=? mejor_evaluacion)%float = false)
    | None => mejor_evaluacion = infinity
    end.
Proof.
  eexists _, _, _. split; [vm_compute; reflexivity|].
  apply eleccion_del_mejor. vm_compute. reflexivity.
Defined.

(** * The operations of the informed-search script on the graph *)

Section LemasOperacionesInformada.
Import Informada InformadaGrafo InterfazInformada.
Context `{Python}.

Lemma cargar_aristas_bien_formado_informada l : ∀ i g n errs,
  bien_formado g → bien_formado (cargar_aristas i l g n errs).2.
Proof.
  induction l as [|a l IH]; intros i g n errs Hg; [done|].
  cbn [cargar_aristas].
  destruct (leer_arista a) as [[[o d] p]|e|]; [| |done].
  - pose proof (agregar_arista_informada_bien_formado g o d (JFloat p) Hg) as Hg'.
    destruct (agregar_arista g o d (JFloat p)) as [[[]|e|] g']; simpl in Hg';
      [by apply IH|by apply IH| |done].
    destruct (atrapada e); [by apply IH|done].
  - destruct (atrapada e); [by apply IH|done].
Qed.

Lemma agregar_normalizado_informada g o d w :
  normalizado g → normalizar o = o → normalizar d = d →
  normalizado (agregar_arista g o d w).2.
Proof.
  intros Hg Ho Hd. unfold agregar_arista.
  destruct (py_float w) as [p|e|]; simpl; [|by destruct e|done].
  unfold normalizado. cbn [aristas]. apply Forall_app. split; [done|].
  by repeat constructor.
Qed.

Lemma cargar_aristas_normalizado_informada l : ∀ i g n errs,
  normalizado g → normalizado (cargar_aristas i l g n errs).2.
Proof.
  induction l as [|a l IH]; intros i g n errs Hg; [done|].
  cbn [cargar_aristas].
  destruct (leer_arista a) as [[[o d] p]|e|] eqn:Ha; [| |done].
  - apply leer_arista_normaliza in Ha as [Ho Hd].
    pose proof (agregar_normalizado_informada g o d (JFloat p) Hg Ho Hd) as Hg'.
    destruct (agregar_arista g o d (JFloat p)) as [[[]|e|] g']; simpl in Hg';
      [by apply IH|by apply IH| |done].
    destruct (atrapada e); [by apply IH|done].
  - destruct (atrapada e); [by apply IH|done].
Qed.

(** The loop over [posiciones] touches nothing but [posiciones_nodos]. *)
Lemma cargar_posiciones_grafo lp : ∀ g,
  adyacencias (cargar_posiciones lp g).2 = adyacencias g ∧
  aristas (cargar_posiciones lp g).2 = aristas g ∧
  nodos (cargar_posiciones lp g).2 = nodos g.
Proof.
  induction lp as [|[nodo pos] lp IH]; intros g; [done|].
  cbn [cargar_posiciones].
  destruct (py_getitem pos "x") as [x| |]; [|done..]. cbn [ligar].
  destruct (py_getitem pos "y") as [y| |]; [|done..]. cbn [ligar].
  match goal with |- context [cargar_posiciones lp ?g1] => by destruct (IH g1) as (-> & -> & ->) end.
Qed.

Lemma mismo_grafo_mantiene g g' :
  adyacencias g' = adyacencias g → aristas g' = aristas g → nodos g' = nodos g →
  bien_formado g ∧ normalizado g → bien_formado g' ∧ normalizado g'.
Proof.
  intros Ha Hl Hn [[Hba Hbn] Hno]. split; [split|].
  - intros u. unfold adyacentes. rewrite Ha, Hl. apply Hba.
  - by rewrite Hn, Hl.
  - unfold normalizado. by rewrite Hl.
Qed.

Lemma cargar_desde_json_mantiene_informada g datos_json :
  bien_formado (cargar_desde_json g datos_json).2 ∧
  normalizado (cargar_desde_json g datos_json).2.
Proof.
  assert (bien_formado vacio ∧ normalizado vacio) as [Hv Hn].
  { split; [apply vacio_informado_bien_formado|constructor]. }
  unfold cargar_desde_json, limpiar.
  destruct datos_json as [| | | | | |kvs]; try done.
  destruct (buscar_clave "aristas" kvs) as [v|]; [|done].
  destruct (iterar v) as [l| |]; [|done..].
  pose proof (cargar_aristas_bien_formado_informada l 0 vacio 0 [] Hv) as Hb1.
  pose proof (cargar_aristas_normalizado_informada l 0 vacio 0 [] Hn) as Hn1.
  destruct (cargar_aristas 0 l vacio 0 []) as [[r|e|] g1]; [|done..].
  destruct (buscar_clave "posiciones" kvs) as [ps|]; [|done].
  destruct (items ps) as [lp| |]; [|done..].
  destruct (cargar_posiciones_grafo lp g1) as (Ha & Hl & Hno).
  simpl in Hb1, Hn1.
  pose proof (mismo_grafo_mantiene g1 _ Ha Hl Hno (conj Hb1 Hn1)) as Hg2.
  by destruct (cargar_posiciones lp g1) as [[[]|e|] g2].
Qed.

Lemma _agregar_arista_mantiene_informada g eo ed ep :
  bien_formado g → normalizado g →
  bien_formado (_agregar_arista g eo ed ep).2 ∧ normalizado (_agregar_arista g eo ed ep).2.
Proof.
  intros Hg Hn. unfold _agregar_arista. case_decide; [done|].
  pose proof (agregar_arista_informada_bien_formado g (normalizar eo) (normalizar ed)
                (JStr (strip ep)) Hg) as Hg'.
  pose proof (agregar_normalizado_informada g (normalizar eo) (normalizar ed)
                (JStr (strip ep)) Hn (normalizar_idem eo) (normalizar_idem ed)) as Hn'.
  by destruct (agregar_arista g (normalizar eo) (normalizar ed) (JStr (strip ep)))
    as [[[]|e|] g'].
Qed.

Lemma sesion_mantiene_informada pulsaciones :
  bien_formado (sesion pulsaciones) ∧ normalizado (sesion pulsaciones).
Proof.
  unfold sesion.
  assert (bien_formado vacio ∧ normalizado vacio) as Hv.
  { split; [apply vacio_informado_bien_formado|constructor]. }
  revert Hv. generalize vacio. induction pulsaciones as [|b bs IH]; intros g [Hg Hn]; [done|].
  simpl. apply IH. destruct b as [eo ed ep| |datos]; simpl.
  - by apply _agregar_arista_mantiene_informada.
  - split; [apply vacio_informado_bien_formado|constructor].
  - apply cargar_desde_json_mantiene_informada.
Qed.

Lemma normalizado_nodos_informada g :
  bien_formado g → normalizado g → set_Forall (λ n, normalizar n = n) (nodos g).
Proof.
  intros Hg Hn n. rewrite (bf_nodos g Hg). intros (o & d & p & Hin & Hor)%elem_of_extremos.
  unfold normalizado in Hn. rewrite Forall_forall in Hn.
  destruct (Hn _ Hin) as [Ho Hd]. simpl in *. by destruct Hor as [->| ->].
Qed.

End LemasOperacionesInformada.

(** * Positions in the files of the informed-search script *)

Section LemasPosiciones.
Import Informada InformadaGrafo.
Context `{Python}.




End LemasPosiciones.



(** * Saving and opening again in the informed-search script *)

Section LemasGuardarInformada.
Import Informada InformadaGrafo InterfazInformada.
Context `{Python}.

Lemma validas_exportadas_informada l :
  Forall (λ a, normalizar a.1.1 = a.1.1 ∧ normalizar a.1.2 = a.1.2) l →
  Forall tolerable (exportar_arista <$> l) ∧
  validas (exportar_arista <$> l) = l ∧
  ∀ i, errores_desde i (exportar_arista <$> l) = [].
Proof. apply validas_exportadas. Qed.

(** The first pair written for a node stops the loop over [posiciones]. *)
Lemma cargar_posiciones_exportadas (m : gmap string (json * json)) g :
  cargar_posiciones ((λ kp, (kp.1, JArr [kp.2.1; kp.2.2])) <$> map_to_list m) g
    = (if decide (m = ∅) then Valor tt else Excepcion TypeError, g).
Proof.
  destruct (map_to_list m) as [|[k [x y]] lm] eqn:Hm.
  - apply map_to_list_empty_iff in Hm. by rewrite decide_True.
  - rewrite decide_False; [done|]. intros ->. by rewrite map_to_list_empty in Hm.
Qed.

Lemma exportar_cargar_informada g g0 :
  bien_formado g → normalizado g →
  ∃ g', cargar_desde_json g0 (exportar_a_json g)
          = (if decide (posiciones_nodos g = ∅)
             then Valor (length (aristas g), []) else Excepcion ValueError, g') ∧
        aristas g' = aristas g ∧ nodos g' = nodos g ∧
        (∀ u, adyacentes g' u = adyacentes g u) ∧
        posiciones_nodos g' = ∅.
Proof.
  intros Hg Hl.
  destruct (validas_exportadas_informada _ Hl) as (Ht & Hv & He).
  pose proof (cargar_aristas_tolerables_informada (exportar_arista <$> aristas g)
                0 vacio 0 [] Ht) as Hc.
  rewrite Hv, He in Hc. cbn [Nat.add app] in Hc.
  set (g1 := fold_left con_arista (aristas g) vacio) in *.
  assert (bien_formado g1) as Hg1.
  { pose proof (cargar_aristas_bien_formado_informada (exportar_arista <$> aristas g)
                  0 vacio 0 [] vacio_informado_bien_formado) as Hb.
    by rewrite Hc in Hb. }
  assert (aristas g1 = aristas g) as Ha.
  { unfold g1. by rewrite con_aristas_aristas_informada. }
  assert (posiciones_nodos g1 = ∅) as Hp.
  { unfold g1. generalize (aristas g).
    intros la. assert (posiciones_nodos vacio = ∅) as Hv0 by done.
    revert Hv0. generalize vacio.
    induction la as [|a la IH]; intros g2 Hg2; [done|]. simpl. by apply IH. }
  exists g1. split_and!.
  - unfold cargar_desde_json, exportar_a_json.
    change (buscar_clave "aristas" _) with (Some (JArr (exportar_arista <$> aristas g))).
    cbn [iterar]. change (limpiar g0) with vacio. rewrite Hc.
    match goal with |- context [buscar_clave "posiciones" ?kvs] =>
      change (buscar_clave "posiciones" kvs)
        with (Some (JObj ((λ kp : string * (json * json), (kp.1, JArr [kp.2.1; kp.2.2]))
                            <$> map_to_list (posiciones_nodos g)))) end.
    cbn [items]. rewrite cargar_posiciones_exportadas. by case_decide.
  - done.
  - by rewrite (bf_nodos _ Hg1), Ha, (bf_nodos g Hg).
  - intros u. by rewrite (bf_adyacentes _ Hg1), Ha, (bf_adyacentes g Hg).
  - done.
Qed.

End LemasGuardarInformada.

(** X17. Saving and opening again in the informed-search script, for the
    graph of any run of the window. Nothing is written exactly when the
    graph has no edge. What is written loads back with the same edges in
    the same order, the same nodes and the same adjacency lists, but the
    load succeeds only if the graph held no position: a position is
    written as an array of two numbers, which the loader does not accept,
    so the load is rejected with [ValueError] after the edges have been
    stored, and no position comes back. *)
Theorem guardar_y_abrir_informada `{Python}
    (pulsaciones : list InterfazInformada.pulsacion) (g0 : Informada.Grafo) :
  match InterfazInformada._exportar_json (InterfazInformada.sesion pulsaciones) with
  | Some datos_json =>
      Informada.aristas (InterfazInformada.sesion pulsaciones) ≠ [] ∧
      ∃ g', Informada.cargar_desde_json g0 datos_json
              = (if decide (Informada.posiciones_nodos
                              (InterfazInformada.sesion pulsaciones) = ∅)
                 then Valor (length (Informada.aristas
                                       (InterfazInformada.sesion pulsaciones)), [])
                 else Excepcion ValueError, g') ∧
            Informada.aristas g' = Informada.aristas (InterfazInformada.sesion pulsaciones) ∧
            Informada.nodos g' = Informada.nodos (InterfazInformada.sesion pulsaciones) ∧
            (∀ u, Informada.adyacentes g' u
                  = Informada.adyacentes (InterfazInformada.sesion pulsaciones) u) ∧
            Informada.posiciones_nodos g' = ∅
  | None => Informada.aristas (InterfazInformada.sesion pulsaciones) = []
  end.
Proof.
  destruct (sesion_mantiene_informada pulsaciones) as [Hg Hn].
  unfold InterfazInformada._exportar_json.
  destruct (Informada.aristas (InterfazInformada.sesion pulsaciones)) eqn:Ha; [done|].
  split; [done|]. rewrite <- Ha. by apply exportar_cargar_informada.
Qed.

(** X18. Whatever buttons are pressed in the window of the informed-search
    script (adding edges through the form, clearing, opening files, also
    files that are rejected), the graph it holds is well formed and all
    its node labels are in normal form. *)
Theorem grafo_de_la_sesion_informada `{Python}
    (pulsaciones : list InterfazInformada.pulsacion) :
  InformadaGrafo.bien_formado (InterfazInformada.sesion pulsaciones) ∧
  set_Forall (λ n, normalizar n = n)
    (Informada.nodos (InterfazInformada.sesion pulsaciones)).
Proof.
  destruct (sesion_mantiene_informada pulsaciones) as [Hg Hn].
  split; [done|]. by apply normalizado_nodos_informada.
Qed.

(** * Searching from the window *)

Section LemasBusquedaVentana.

(** The blind search on a well-formed graph, whatever the labels. *)
Lemma buscar_camino_correcto (g : Ciega.Grafo) (inicio final : string) (fuel : nat) :
  CiegaGrafo.bien_formado g → size (Ciega.nodos g) < fuel →
  ∃ r pasos,
    Ciega.buscar_camino fuel g inicio final = Valor (r, pasos) ∧
    match r with
    | Some camino =>
        camino_entre (CiegaGrafo.arista_dirigida g) inicio final camino ∧
        ∀ l, camino_entre (CiegaGrafo.arista_dirigida g) inicio final l →
             saltos camino ≤ saltos l
    | None =>
        inicio ∉ Ciega.nodos g ∨ final ∉ Ciega.nodos g ∨
        ∀ l, ¬ camino_entre (CiegaGrafo.arista_dirigida g) inicio final l
    end.
Proof.
  intros Hg Hfuel.
  assert (∀ u v, CiegaGrafo.arista_dirigida g u v → CiegaGrafo.arco g u v) as Hab.
  { intros u v. by apply arco_arista. }
  assert (∀ u v, CiegaGrafo.arco g u v → CiegaGrafo.arista_dirigida g u v) as Hba.
  { intros u v. by apply arco_arista. }
  unfold Ciega.buscar_camino. case_decide as Hn.
  { eexists None, _. split; [done|]. destruct Hn; tauto. }
  assert (inicio ∈ Ciega.nodos g) as Hi.
  { destruct (decide (inicio ∈ Ciega.nodos g)); [done|]. exfalso. apply Hn. by left. }
  match goal with |- context [Ciega.bucle fuel fuel g inicio final ?e ?n ?ps] =>
    pose proof (bucle_correcto g inicio final
                  (λ u v, arco_en_nodos g u v Hg) fuel fuel e n ps
                  (λ _, 0) 0
                  (inv_inicial g inicio final
                     (λ u v, arco_en_nodos g u v Hg) Hi)) as Hb;
    destruct (Ciega.bucle fuel fuel g inicio final e n ps) as [[[c|] ps']|ex|]
  end.
  - destruct Hb as [Hc Hmin]. exists (Some c), ps'. split_and!; [done| |].
    + by eapply camino_entre_mono.
    + intros l' Hl'. apply (camino_entre_mono _ _ _ _ _ Hab) in Hl'.
      apply camino_alcanza, Hmin in Hl'. unfold saltos in *. lia.
  - exists None, ps'. split; [done|]. right. right.
    intros l Hl. apply (camino_entre_mono _ _ _ _ _ Hab) in Hl.
    apply camino_alcanza in Hl. by eapply Hb.
  - done.
  - exfalso. cbn [Ciega.visitados Ciega.cola] in Hb.
    rewrite size_singleton in Hb. simpl in Hb. lia.
Qed.

End LemasBusquedaVentana.

(** X19. The search button of the blind-search script, after any run of
    the window. It warns and does not search exactly when an end label is
    blank once normalised, and otherwise exactly when the graph has no
    edge. In every other case the search of the normalised labels
    returns: a path of the graph between them with the fewest edges of all
    such paths, or no path, and then one of the two labels is not a node
    or no path joins them. The graph of the window always meets what the
    search needs. *)
Theorem busqueda_desde_la_ventana `{Python}
    (pulsaciones : list InterfazCiega.pulsacion) (entry_inicio entry_final : string)
    (fuel : nat) :
  size (Ciega.nodos (InterfazCiega.sesion pulsaciones)) < fuel →
  match InterfazCiega._iniciar_busqueda fuel (InterfazCiega.sesion pulsaciones)
          entry_inicio entry_final with
  | InterfazCiega.IngreseNodos =>
      normalizar entry_inicio = EmptyString ∨ normalizar entry_final = EmptyString
  | InterfazCiega.PrimeroUnGrafo =>
      ¬ (normalizar entry_inicio = EmptyString ∨ normalizar entry_final = EmptyString) ∧
      Ciega.aristas (InterfazCiega.sesion pulsaciones) = []
  | InterfazCiega.Busqueda res =>
      ¬ (normalizar entry_inicio = EmptyString ∨ normalizar entry_final = EmptyString) ∧
      Ciega.aristas (InterfazCiega.sesion pulsaciones) ≠ [] ∧
      ∃ r pasos, res = Valor (r, pasos) ∧
        match r with
        | Some camino =>
            camino_entre (CiegaGrafo.arista_dirigida (InterfazCiega.sesion pulsaciones))
              (normalizar entry_inicio) (normalizar entry_final) camino ∧
            ∀ l, camino_entre (CiegaGrafo.arista_dirigida (InterfazCiega.sesion pulsaciones))
                   (normalizar entry_inicio) (normalizar entry_final) l →
                 saltos camino ≤ saltos l
        | None =>
            normalizar entry_inicio ∉ Ciega.nodos (InterfazCiega.sesion pulsaciones) ∨
            normalizar entry_final ∉ Ciega.nodos (InterfazCiega.sesion pulsaciones) ∨
            ∀ l, ¬ camino_entre
                     (CiegaGrafo.arista_dirigida (InterfazCiega.sesion pulsaciones))
                     (normalizar entry_inicio) (normalizar entry_final) l
        end
  end.
Proof.
  intros Hfuel. destruct (sesion_mantiene pulsaciones) as [Hg _].
  unfold InterfazCiega._iniciar_busqueda. case_decide as Hv; [done|].
  destruct (Ciega.aristas (InterfazCiega.sesion pulsaciones)) eqn:Ha; [done|].
  split; [done|]. split; [done|]. by apply buscar_camino_correcto.
Qed.

Lemma busqueda_desde_la_ventana_testigo :
  match InterfazCiega._iniciar_busqueda 4
          (InterfazCiega.sesion (H := python_ejemplo) pulsaciones_abc) " a" "C " with
  | InterfazCiega.IngreseNodos =>
      normalizar " a" = EmptyString ∨ normalizar "C " = EmptyString
  | InterfazCiega.PrimeroUnGrafo =>
      ¬ (normalizar " a" = EmptyString ∨ normalizar "C " = EmptyString) ∧
      Ciega.aristas (InterfazCiega.sesion (H := python_ejemplo) pulsaciones_abc) = []
  | InterfazCiega.Busqueda res =>
      ¬ (normalizar " a" = EmptyString ∨ normalizar "C " = EmptyString) ∧
      Ciega.aristas (InterfazCiega.sesion (H := python_ejemplo) pulsaciones_abc) ≠ [] ∧
      ∃ r pasos, res = Valor (r, pasos) ∧
        match r with
        | Some camino =>
            camino_entre
              (CiegaGrafo.arista_dirigida
                 (InterfazCiega.sesion (H := python_ejemplo) pulsaciones_abc))
              (normalizar " a") (normalizar "C ") camino ∧
            ∀ l, camino_entre
                   (CiegaGrafo.arista_dirigida
                      (InterfazCiega.sesion (H := python_ejemplo) pulsaciones_abc))
                   (normalizar " a") (normalizar "C ") l →
                 saltos camino ≤ saltos l
        | None =>
            normalizar " a"
              ∉ Ciega.nodos (InterfazCiega.sesion (H := python_ejemplo) pulsaciones_abc) ∨
            normalizar "C "
              ∉ Ciega.nodos (InterfazCiega.sesion (H := python_ejemplo) pulsaciones_abc) ∨
            ∀ l, ¬ camino_entre
                     (CiegaGrafo.arista_dirigida
                        (InterfazCiega.sesion (H := python_ejemplo) pulsaciones_abc))
                     (normalizar " a") (normalizar "C ") l
        end
  end.
Proof.
  apply (@busqueda_desde_la_ventana python_ejemplo pulsaciones_abc " a" "C " 4).
  vm_compute. lia.
Defined.

(** * How the informed search ends *)

Section LemasDesenlaceInformada.
Import Informada InformadaGrafo InformadaTraza.
Context `{Python}.

Lemma movimientos_snoc pasos p :
  movimientos (pasos ++ [p]) = movimientos pasos + (if es_movimiento p then 1 else 0).
Proof.
  unfold movimientos. rewrite filter_app, length_app, filter_cons, filter_nil.
  destruct (es_movimiento p); [by rewrite decide_True|by rewrite decide_False].
Qed.

Section Bucle.
Context (g : Grafo) (objetivo : string)
  (posiciones_canvas : option (gmap string (float * float))) (max_iteraciones : nat).

(** The loop ends for any fuel that covers the turns left below the cap,
    and the last record of the trace tells how: the step counter is one
    more than twice the number of moves at every test of the [while]. *)
Lemma bucle_desenlace fuel : ∀ e n pasos,
  n = 1 + 2 * movimientos pasos → length pasos = n →
  n ≤ S max_iteraciones → max_iteraciones ≤ n + 2 * fuel →
  last (camino e) = Some (nodo_actual e) →
  (∃ p0, last pasos = Some p0 ∧ camino_actual p0 = camino e ∧
         match accion_paso p0 with Iniciar _ | Moverse _ _ _ => True | _ => False end) →
  match bucle fuel g objetivo posiciones_canvas max_iteraciones e n pasos with
  | Valor (r, ps) =>
      length ps ≤ max_iteraciones + 2 ∧ 2 * movimientos ps ≤ max_iteraciones ∧
      ∃ ult, last ps = Some ult ∧
        match accion_paso ult with
        | Iniciar _ | Moverse _ _ _ =>
            r = Some (camino_actual ult) ∧ last (camino_actual ult) = Some objetivo
        | SinVecinos x =>
            r = None ∧ x ≠ objetivo ∧ obtener_vecinos_con_peso g x = []
        | TodosVisitados =>
            r = None ∧
            ∃ x, nodo_actual_paso ult = Some x ∧ x ≠ objetivo ∧
              ∀ vp, vp ∈ obtener_vecinos_con_peso g x → vp.1 ∉ visitados_paso ult →
                ∃ h, heuristica_de posiciones_canvas vp.1 objetivo = Valor h ∧
                     (costo_total_paso ult + vp.2 + h <? infinity)%float = false
        | MaximoIteraciones =>
            r = None ∧ max_iteraciones ≤ 1 + 2 * movimientos ps
        | ErrorNodos | EvaluarVecinos _ => False
        end
  | Excepcion ex => ex = OverflowError ∧ hay_posiciones posiciones_canvas = true
  | SinCombustible => False
  end.
Proof.
  assert (∀ e n pasos,
    n = 1 + 2 * movimientos pasos → length pasos = n → n ≤ S max_iteraciones →
    last (camino e) = Some (nodo_actual e) →
    (∃ p0, last pasos = Some p0 ∧ camino_actual p0 = camino e ∧
           match accion_paso p0 with Iniciar _ | Moverse _ _ _ => True | _ => False end) →
    nodo_actual e = objetivo →
    length pasos ≤ max_iteraciones + 2 ∧ 2 * movimientos pasos ≤ max_iteraciones ∧
    ∃ ult, last pasos = Some ult ∧
      match accion_paso ult with
      | Iniciar _ | Moverse _ _ _ =>
          Some (camino e) = Some (camino_actual ult) ∧
          last (camino_actual ult) = Some objetivo
      | _ => False
      end) as Hexito.
  { intros e n pasos Hn Hlen Hmax Hlast (p0 & Hp0 & Hc0 & Ha0) Ho.
    split_and!; [lia|lia|]. exists p0. split; [done|].
    rewrite Hc0, Hlast, Ho. by destruct (accion_paso p0). }
  assert (∀ e n pasos,
    n = 1 + 2 * movimientos pasos → length pasos = n → n ≤ S max_iteraciones →
    ¬ n < max_iteraciones →
    let ps := pasos ++ [registro n MaximoIteraciones (Some (nodo_actual e)) e] in
    length ps ≤ max_iteraciones + 2 ∧ 2 * movimientos ps ≤ max_iteraciones ∧
    ∃ ult, last ps = Some ult ∧ accion_paso ult = MaximoIteraciones ∧
           max_iteraciones ≤ 1 + 2 * movimientos ps) as Hlimite.
  { intros e n pasos Hn Hlen Hmax Hno ps. unfold ps.
    rewrite length_app, movimientos_snoc. cbn [length es_movimiento registro accion_paso].
    split_and!; [lia|lia|]. eexists. rewrite last_snoc. split_and!; [done|done|lia]. }
  induction fuel as [|fuel IH]; intros e n pasos Hn Hlen Hmax Hfuel Hlast Hp0.
  - cbn [bucle]. case_decide as Hg; [lia|]. case_decide as Ho.
    + destruct (Hexito e n pasos) as (? & ? & ult & ? & Hult); [done..|].
      split_and!; [done..|]. exists ult. split; [done|].
      destruct (accion_paso ult); try done.
    + destruct (Hlimite e n pasos) as (? & ? & ult & ? & Hult & ?); [done..|tauto|].
      split_and!; [done..|]. exists ult. split; [done|]. by rewrite Hult.
  - cbn [bucle]. case_decide as Hg.
    + destruct Hg as [Hno Hlt].
      destruct (obtener_vecinos_con_peso g (nodo_actual e)) as [|vp vs] eqn:Hvs.
      { rewrite length_app, movimientos_snoc.
        cbn [length es_movimiento registro accion_paso].
        split_and!; [lia|lia|]. eexists. rewrite last_snoc. split; [done|].
        by cbn [registro accion_paso]. }
      pose proof (evaluar_cada_excepcion objetivo posiciones_canvas e (vp :: vs)
                    (None, infinity, [])) as Hex.
      fold (evaluar_vecinos objetivo posiciones_canvas e (vp :: vs)) in Hex.
      destruct (evaluar_vecinos objetivo posiciones_canvas e (vp :: vs))
        as [[[[[v w]|] f] evals]| |] eqn:He; [| |done..].
      * match goal with |- context [bucle fuel g objetivo posiciones_canvas
                                      max_iteraciones ?e1 ?n1 ?ps1] =>
          apply (IH e1 n1 ps1) end.
        -- rewrite !movimientos_snoc. cbn [es_movimiento accion_paso]. lia.
        -- rewrite !length_app. simpl. lia.
        -- lia.
        -- lia.
        -- cbn [camino nodo_actual]. by rewrite last_snoc.
        -- eexists. rewrite last_snoc. by split_and!.
      * rewrite !length_app, !movimientos_snoc.
        cbn [length es_movimiento registro accion_paso].
        split_and!; [lia|lia|]. eexists. rewrite last_snoc. split; [done|].
        cbn [registro accion_paso nodo_actual_paso visitados_paso costo_total_paso].
        split; [done|]. exists (nodo_actual e). split_and!; [done|done|].
        intros [v w] Hin Hnv. rewrite <- Hvs in He. unfold evaluar_vecinos in He.
        assert (elegido (None, infinity, [])) as Hini.
        { split; [done|]. intros ev' Hev'. by apply elem_of_nil in Hev'. }
        destruct (evaluar_cada_elegido objetivo posiciones_canvas e _ _ _ Hini He)
          as ([_ Hinf] & nuevas & Hnu & Hf2).
        cbn [snd app] in Hnu. subst nuevas.
        assert ((v, w) ∈ por_visitar e (obtener_vecinos_con_peso g (nodo_actual e))) as Hpv.
        { unfold por_visitar. by apply list_elem_of_filter. }
        apply list_elem_of_lookup in Hpv as [i Hi].
        destruct (Forall2_lookup_l _ _ _ _ _ Hf2 Hi) as (ev & Hev & _ & _ & Hh & Hval).
        exists (heuristica ev). split; [done|]. cbn [fst snd] in *.
        rewrite <- Hval. apply Hinf. by eapply list_elem_of_lookup_2.
    + case_decide as Ho.
      * destruct (Hexito e n pasos) as (? & ? & ult & ? & Hult); [done..|].
        split_and!; [done..|]. exists ult. split; [done|].
        destruct (accion_paso ult); try done.
      * destruct (Hlimite e n pasos) as (? & ? & ult & ? & Hult & ?); [done..|tauto|].
        split_and!; [done..|]. exists ult. split; [done|]. by rewrite Hult.
Qed.

End Bucle.

End LemasDesenlaceInformada.

Section LemasBusquedaVentanaInformada.
Import Informada InformadaGrafo.
Context `{Python}.

(** The informed search on a well-formed graph, whatever the labels. *)
Lemma buscar_camino_informada_correcto (g : Grafo) (inicio objetivo : string)
    (posiciones_canvas : option (gmap string (float * float))) (fuel : nat) :
  bien_formado g → size (nodos g) ≤ fuel →
  match buscar_camino fuel g inicio objetivo posiciones_canvas with
  | Valor (r, pasos) =>
      match r with
      | Some camino =>
          camino_entre (arista_dirigida g) inicio objetivo camino ∧ NoDup camino
      | None =>
          ∃ ult, last pasos = Some ult ∧
            match accion_paso ult with
            | ErrorNodos => inicio ∉ nodos g ∨ objetivo ∉ nodos g
            | SinVecinos _ | TodosVisitados => True
            | _ => False
            end
      end
  | Excepcion ex => ex = OverflowError ∧ hay_posiciones posiciones_canvas = true
  | SinCombustible => False
  end.
Proof.
  intros Hg Hfuel.
  destruct (decide (inicio ∉ nodos g ∨ objetivo ∉ nodos g)) as [Hn|Hn].
  { unfold buscar_camino. rewrite decide_True by done. by eexists. }
  unfold buscar_camino. rewrite decide_False by done.
  match goal with |- context [bucle fuel g objetivo posiciones_canvas ?m ?e ?n ?ps] =>
    pose proof (bucle_desenlace g objetivo posiciones_canvas m fuel e n ps) as Hd;
    pose proof (bucle_sin_limite g objetivo posiciones_canvas fuel Hg e n ps) as Hsin;
    pose proof (bucle_camino g objetivo posiciones_canvas m inicio fuel e n ps) as Hcam;
    destruct (bucle fuel g objetivo posiciones_canvas m e n ps) as [[r ps']|ex|]
  end.
  - destruct Hd as (_ & _ & ult & Hult & Hacc); [done|done|lia|lia|done|by eexists|].
    destruct r as [c|].
    + destruct (Hcam c ps') as [Hc Hnd]; [|done|].
      * split_and!; cbn [camino nodo_actual visitados].
        -- apply camino_un_nodo.
        -- apply NoDup_singleton.
        -- intros x ->%list_elem_of_singleton. set_solver.
      * split; [|done]. eapply camino_entre_mono; [|exact Hc].
        intros u v. by apply arco_arista_informada.
    + exists ult. split; [done|].
      assert (accion_paso ult ≠ MaximoIteraciones) as Hne.
      { assert (Forall (λ p, accion_paso p ≠ MaximoIteraciones) ps') as Hps.
        { apply (Hsin None ps'); cbn [visitados].
          - apply singleton_subseteq_l.
            destruct (decide (inicio ∈ nodos g)); [done|]. exfalso. apply Hn. by left.
          - by rewrite size_singleton.
          - by repeat constructor.
          - done. }
        rewrite Forall_forall in Hps. by apply Hps, last_Some_elem_of. }
      destruct (accion_paso ult); try done; by destruct Hacc.
  - apply Hd; [done|done|lia|lia|done|by eexists].
  - apply Hd; [done|done|lia|lia|done|by eexists].
Qed.

End LemasBusquedaVentanaInformada.

(** X20. The search button of the informed-search script, after any run
    of the window and with any positions on the canvas. It warns and does
    not search exactly when an end label is blank once normalised, and
    otherwise exactly when the graph has no edge. In every other case the
    search of the normalised labels ends. A path returned is a path of the
    graph between the two labels without a repeated node, and a cost is
    printed for it. With no path returned no cost is printed, and the
    trace ends with the record of unknown nodes, of a node without
    neighbours or of neighbours all visited: never with the iteration
    limit. The only other way out is the [OverflowError] of a square in
    the Euclidean heuristic, which needs positions on the canvas. *)
Theorem busqueda_informada_desde_la_ventana `{Python}
    (pulsaciones : list InterfazInformada.pulsacion)
    (posiciones_nodos : gmap string (float * float))
    (entry_inicio entry_final : string) (fuel : nat) :
  size (Informada.nodos (InterfazInformada.sesion pulsaciones)) ≤ fuel →
  match InterfazInformada._iniciar_busqueda fuel (InterfazInformada.sesion pulsaciones)
          posiciones_nodos entry_inicio entry_final with
  | InterfazInformada.IngreseNodos =>
      normalizar entry_inicio = EmptyString ∨ normalizar entry_final = EmptyString
  | InterfazInformada.PrimeroUnGrafo =>
      ¬ (normalizar entry_inicio = EmptyString ∨ normalizar entry_final = EmptyString) ∧
      Informada.aristas (InterfazInformada.sesion pulsaciones) = []
  | InterfazInformada.Busqueda res costo_total =>
      ¬ (normalizar entry_inicio = EmptyString ∨ normalizar entry_final = EmptyString) ∧
      Informada.aristas (InterfazInformada.sesion pulsaciones) ≠ [] ∧
      match res with
      | Valor (Some camino, pasos) =>
          camino_entre
            (InformadaGrafo.arista_dirigida (InterfazInformada.sesion pulsaciones))
            (normalizar entry_inicio) (normalizar entry_final) camino ∧
          NoDup camino ∧
          costo_total
            = Some (InterfazInformada._calcular_costo_camino
                      (InterfazInformada.sesion pulsaciones) camino)
      | Valor (None, pasos) =>
          costo_total = None ∧
          ∃ ult, last pasos = Some ult ∧
            match Informada.accion_paso ult with
            | Informada.ErrorNodos =>
                normalizar entry_inicio
                  ∉ Informada.nodos (InterfazInformada.sesion pulsaciones) ∨
                normalizar entry_final
                  ∉ Informada.nodos (InterfazInformada.sesion pulsaciones)
            | Informada.SinVecinos _ | Informada.TodosVisitados => True
            | _ => False
            end
      | Excepcion ex =>
          ex = OverflowError ∧ posiciones_nodos ≠ ∅ ∧ costo_total = None
      | SinCombustible => False
      end
  end.
Proof.
  intros Hfuel. destruct (sesion_mantiene_informada pulsaciones) as [Hg _].
  unfold InterfazInformada._iniciar_busqueda. case_decide as Hv; [done|].
  destruct (Informada.aristas (InterfazInformada.sesion pulsaciones)) eqn:Ha; [done|].
  split; [done|]. split; [done|].
  pose proof (buscar_camino_informada_correcto (InterfazInformada.sesion pulsaciones)
                (normalizar entry_inicio) (normalizar entry_final)
                (Some posiciones_nodos) fuel Hg Hfuel) as Hb.
  destruct (Informada.buscar_camino fuel (InterfazInformada.sesion pulsaciones)
              (normalizar entry_inicio) (normalizar entry_final) (Some posiciones_nodos))
    as [[[c|] pasos]|ex|]; [| | |done].
  - destruct Hb as [Hc Hnd]. split; [done|]. split; [done|].
    destruct c as [|x c]; [|done]. by destruct Hc as [? _].
  - by split.
  - destruct Hb as [-> Hp]. split_and!; [done| |done].
    cbn [Informada.hay_posiciones] in Hp. by apply bool_decide_eq_true in Hp.
Qed.

Lemma busqueda_informada_desde_la_ventana_testigo :
  match InterfazInformada._iniciar_busqueda (H := python_ejemplo) 3
          (InterfazInformada.sesion (H := python_ejemplo) pulsaciones_informadas_abc)
          ∅ " a" "C " with
  | InterfazInformada.IngreseNodos =>
      normalizar " a" = EmptyString ∨ normalizar "C " = EmptyString
  | InterfazInformada.PrimeroUnGrafo =>
      ¬ (normalizar " a" = EmptyString ∨ normalizar "C " = EmptyString) ∧
      Informada.aristas
        (InterfazInformada.sesion (H := python_ejemplo) pulsaciones_informadas_abc) = []
  | InterfazInformada.Busqueda res costo_total =>
      ¬ (normalizar " a" = EmptyString ∨ normalizar "C " = EmptyString) ∧
      Informada.aristas
        (InterfazInformada.sesion (H := python_ejemplo) pulsaciones_informadas_abc) ≠ [] ∧
      match res with
      | Valor (Some camino, pasos) =>
          camino_entre
            (InformadaGrafo.arista_dirigida
               (InterfazInformada.sesion (H := python_ejemplo) pulsaciones_informadas_abc))
            (normalizar " a") (normalizar "C ") camino ∧
          NoDup camino ∧
          costo_total
            = Some (InterfazInformada._calcular_costo_camino
                      (InterfazInformada.sesion (H := python_ejemplo)
                         pulsaciones_informadas_abc) camino)
      | Valor (None, pasos) =>
          costo_total = None ∧
          ∃ ult, last pasos = Some ult ∧
            match Informada.accion_paso ult with
            | Informada.ErrorNodos =>
                normalizar " a"
                  ∉ Informada.nodos
                      (InterfazInformada.sesion (H := python_ejemplo)
                         pulsaciones_informadas_abc) ∨
                normalizar "C "
                  ∉ Informada.nodos
                      (InterfazInformada.sesion (H := python_ejemplo)
                         pulsaciones_informadas_abc)
            | Informada.SinVecinos _ | Informada.TodosVisitados => True
            | _ => False
            end
      | Excepcion ex =>
          ex = OverflowError ∧ (∅ : gmap string (float * float)) ≠ ∅ ∧ costo_total = None
      | SinCombustible => False
      end
  end.
Proof.
  apply (@busqueda_informada_desde_la_ventana python_ejemplo
           pulsaciones_informadas_abc ∅ " a" "C " 3).
  vm_compute. lia.
Defined.

(** X21. The form that adds an edge, in both scripts, for any text in its
    three fields: it never raises. It warns and leaves the graph
    unchanged exactly when a label or the weight is blank once trimmed.
    Otherwise, if [float] rejects the trimmed weight it reports it and the
    graph is unchanged; if not, the graph gains exactly the edge between
    the trimmed, upper-cased labels with the parsed weight. *)
Theorem formulario_agregar `{Python} (entry_origen entry_destino entry_peso : string) :
  (∀ g : Ciega.Grafo,
     match InterfazCiega._agregar_arista g entry_origen entry_destino entry_peso with
     | (Valor InterfazCiega.CamposIncompletos, g') =>
         g' = g ∧ (normalizar entry_origen = EmptyString ∨
                   normalizar entry_destino = EmptyString ∨
                   strip entry_peso = EmptyString)
     | (Valor InterfazCiega.AristaAgregada, g') =>
         ¬ (normalizar entry_origen = EmptyString ∨
            normalizar entry_destino = EmptyString ∨
            strip entry_peso = EmptyString) ∧
         ∃ p, float_de_texto (strip entry_peso) = Some p ∧
              g' = CiegaGrafo.con_arista g
                     (normalizar entry_origen, normalizar entry_destino, p)
     | (Valor InterfazCiega.PesoInvalido, g') =>
         ¬ (normalizar entry_origen = EmptyString ∨
            normalizar entry_destino = EmptyString ∨
            strip entry_peso = EmptyString) ∧
         g' = g ∧ float_de_texto (strip entry_peso) = None
     | _ => False
     end) ∧
  (∀ g : Informada.Grafo,
     match InterfazInformada._agregar_arista g entry_origen entry_destino entry_peso with
     | (Valor InterfazInformada.CamposIncompletos, g') =>
         g' = g ∧ (normalizar entry_origen = EmptyString ∨
                   normalizar entry_destino = EmptyString ∨
                   strip entry_peso = EmptyString)
     | (Valor InterfazInformada.AristaAgregada, g') =>
         ¬ (normalizar entry_origen = EmptyString ∨
            normalizar entry_destino = EmptyString ∨
            strip entry_peso = EmptyString) ∧
         ∃ p, float_de_texto (strip entry_peso) = Some p ∧
              g' = InformadaGrafo.con_arista g
                     (normalizar entry_origen, normalizar entry_destino, p)
     | (Valor InterfazInformada.PesoInvalido, g') =>
         ¬ (normalizar entry_origen = EmptyString ∨
            normalizar entry_destino = EmptyString ∨
            strip entry_peso = EmptyString) ∧
         g' = g ∧ float_de_texto (strip entry_peso) = None
     | _ => False
     end).
Proof.
  split; intros g.
  - unfold InterfazCiega._agregar_arista. case_decide as Hb; [done|].
    unfold Ciega.agregar_arista, py_float.
    destruct (float_de_texto (strip entry_peso)) as [p|]; [|done].
    split; [done|]. by exists p.
  - unfold InterfazInformada._agregar_arista. case_decide as Hb; [done|].
    unfold Informada.agregar_arista, py_float.
    destruct (float_de_texto (strip entry_peso)) as [p|]; [|done].
    split; [done|]. by exists p.
Qed.

(** * A key [aristas] that is not a list *)

Section LemasAristasNoLista.
Context `{Python}.

Lemma leer_arista_texto s : leer_arista (JStr s) = Excepcion TypeError.
Proof. done. Qed.

Lemma validas_textos (ks : list string) : validas (JStr <$> ks) = [].
Proof. by induction ks. Qed.

Lemma tolerables_textos (ks : list string) : Forall tolerable (JStr <$> ks).
Proof. induction ks; by constructor. Qed.

Lemma errores_desde_textos (ks : list string) : ∀ i,
  errores_desde i (JStr <$> ks)
  = (λ j, {| indice := S j; motivo := FormatoInvalido TypeError |}) <$> seq i (length ks).
Proof.
  induction ks as [|k ks IH]; intros i; [done|].
  rewrite fmap_cons. cbn [errores_desde]. rewrite leer_arista_texto.
  simpl. by rewrite IH.
Qed.

End LemasAristasNoLista.

(** X22. A file whose key [aristas] is not bound to a list. Bound to a
    dictionary, its keys are taken for the records: the load returns no
    edge and one error of type for each key, and the graph is empty. Bound
    to a number, a boolean or [null], the load is rejected with
    [ValueError] and the graph is empty. This holds for both loaders, for
    the informed one on a file without positions in the first case. *)
Theorem carga_aristas_no_lista `{Python} (kvs : list (string * json)) (v : json) :
  buscar_clave "aristas" kvs = Some v →
  match v with
  | JArr _ | JStr _ => True
  | JObj campos =>
      (∀ g, Ciega.cargar_desde_json g (JObj kvs)
            = (Valor (0, errores_de_tipo (length campos)), Ciega.vacio)) ∧
      (buscar_clave "posiciones" kvs = None →
       ∀ g, Informada.cargar_desde_json g (JObj kvs)
            = (Valor (0, errores_de_tipo (length campos)), Informada.vacio))
  | _ =>
      (∀ g, Ciega.cargar_desde_json g (JObj kvs) = (Excepcion ValueError, Ciega.vacio)) ∧
      (∀ g, Informada.cargar_desde_json g (JObj kvs)
            = (Excepcion ValueError, Informada.vacio))
  end.
Proof.
  intros Hk.
  destruct v as [| | | | | |campos]; try done;
    try (split; intros g; unfold Ciega.cargar_desde_json, Informada.cargar_desde_json;
         by rewrite Hk).
  split; [|intros Hp]; intros g;
    unfold Ciega.cargar_desde_json, Informada.cargar_desde_json; rewrite Hk; cbn [iterar].
  - rewrite cargar_aristas_tolerables by apply tolerables_textos.
    by rewrite validas_textos, errores_desde_textos, length_fmap.
  - rewrite cargar_aristas_tolerables_informada by apply tolerables_textos.
    by rewrite Hp, validas_textos, errores_desde_textos, length_fmap.
Qed.

Lemma carga_aristas_no_lista_testigo :
  (∀ g, Ciega.cargar_desde_json (H := python_ejemplo) g
          (JObj [("aristas", registro_arista "A" "B" (JInt 1))])
        = (Valor (0, errores_de_tipo 3), Ciega.vacio)) ∧
  (buscar_clave "posiciones" [("aristas", registro_arista "A" "B" (JInt 1))] = None →
   ∀ g, Informada.cargar_desde_json (H := python_ejemplo) g
          (JObj [("aristas", registro_arista "A" "B" (JInt 1))])
        = (Valor (0, errores_de_tipo 3), Informada.vacio)).
Proof.
  apply (@carga_aristas_no_lista python_ejemplo
           [("aristas", registro_arista "A" "B" (JInt 1))]
           (registro_arista "A" "B" (JInt 1))).
  reflexivity.
Defined.


(** * The informed search ends *)



